(** * bayesloop: the hyper-parameter raster study ([rasterStudy.py])

    A shallow embedding of [RasterStudy.fit], [RasterStudy.parallelFit] and
    [RasterStudy.plotHyperParameterDistribution], and the properties of the
    raster inference engine proved about them.

    Numbers.  The program computes with NumPy [float64] values.  They are
    modelled as extended reals ([npfloat]): a finite value is an exact real
    number, and the special values [inf], [-inf] and [nan] follow the IEEE
    rules NumPy applies (a division by zero gives [inf] or [nan] and a
    warning, never an exception; [log 0 = -inf]; [inf - inf = nan]).
    Arithmetic on finite values is exact: rounding and the sign of zero
    are not modelled.  The exponential is the exception, since its result
    leaves the range of [float64] for arguments the program can meet:
    [np.exp] overflows to [inf] and underflows to [0.0] as in [float64]
    ([exp64]).  Where a theorem depends on a sum of exponentials staying
    within that range, it says so. *)

From Stdlib Require Import String.
From Stdlib Require Import Reals Lra Lia ZArith Bool Arith List.
Import ListNotations.
Open Scope R_scope.

(** ** NumPy floating-point values *)

Module NpFloat.

Inductive npfloat : Type :=
| Fin (x : R)
| PInf
| NInf
| NaN.

(** [x * inf] for a finite [x]: the sign of [x] decides, [0 * inf = nan]. *)
Definition signed_inf (x : R) : npfloat :=
  match total_order_T x 0 with
  | inleft (left _) => NInf
  | inleft (right _) => NaN
  | inright _ => PInf
  end.

Definition npopp (a : npfloat) : npfloat :=
  match a with
  | Fin x => Fin (- x)
  | PInf => NInf
  | NInf => PInf
  | NaN => NaN
  end.

Definition npadd (a b : npfloat) : npfloat :=
  match a, b with
  | NaN, _ | _, NaN => NaN
  | Fin x, Fin y => Fin (x + y)
  | PInf, NInf | NInf, PInf => NaN
  | PInf, _ | _, PInf => PInf
  | NInf, _ | _, NInf => NInf
  end.

Definition npsub (a b : npfloat) : npfloat := npadd a (npopp b).

Definition npmul (a b : npfloat) : npfloat :=
  match a, b with
  | NaN, _ | _, NaN => NaN
  | Fin x, Fin y => Fin (x * y)
  | Fin x, PInf | PInf, Fin x => signed_inf x
  | Fin x, NInf | NInf, Fin x => signed_inf (- x)
  | PInf, PInf | NInf, NInf => PInf
  | PInf, NInf | NInf, PInf => NInf
  end.

(** Division never raises: NumPy scalars and arrays divide by zero to
    [inf] ([nan] for [0/0]) with a warning. *)
Definition npdiv (a b : npfloat) : npfloat :=
  match a, b with
  | NaN, _ | _, NaN => NaN
  | Fin x, Fin y => if Req_EM_T y 0 then signed_inf x else Fin (x / y)
  | Fin _, PInf | Fin _, NInf => Fin 0
  | PInf, Fin y => if Rlt_dec y 0 then NInf else PInf
  | NInf, Fin y => if Rlt_dec y 0 then PInf else NInf
  | PInf, PInf | PInf, NInf | NInf, PInf | NInf, NInf => NaN
  end.

Definition npabs (a : npfloat) : npfloat :=
  match a with
  | Fin x => Fin (Rabs x)
  | PInf | NInf => PInf
  | NaN => NaN
  end.

(** The largest finite [float64], [(2 - 2^-52) * 2^1023], and half the
    smallest positive one, [2^-1075]. *)
Definition float64_max : R := IZR (2 ^ 1024 - 2 ^ 971).
Definition float64_tiny : R := / IZR (2 ^ 1075).

(** [np.exp] of a finite value: the result overflows to [inf] (with a
    warning) when the exponential exceeds the largest [float64], and
    underflows to [0.0] when it lies below half the smallest positive
    one. *)
Definition exp64 (x : R) : npfloat :=
  if Rlt_dec float64_max (exp x) then PInf
  else if Rlt_dec (exp x) float64_tiny then Fin 0
  else Fin (exp x).

Definition npexp (a : npfloat) : npfloat :=
  match a with
  | Fin x => exp64 x
  | PInf => PInf
  | NInf => Fin 0
  | NaN => NaN
  end.

Definition nplog (a : npfloat) : npfloat :=
  match a with
  | Fin x =>
      match total_order_T x 0 with
      | inleft (left _) => NaN
      | inleft (right _) => NInf
      | inright _ => Fin (ln x)
      end
  | PInf => PInf
  | NInf => NaN
  | NaN => NaN
  end.

(** [np.maximum]: [nan] propagates. *)
Definition npmaximum (a b : npfloat) : npfloat :=
  match a, b with
  | NaN, _ | _, NaN => NaN
  | PInf, _ | _, PInf => PInf
  | NInf, c | c, NInf => c
  | Fin x, Fin y => Fin (Rmax x y)
  end.

Definition is_finite (a : npfloat) : bool :=
  match a with Fin _ => true | _ => false end.

(** A Python integer used as a float ([float(n)], or an [int] operand). *)
Definition of_nat (n : nat) : npfloat := Fin (INR n).

End NpFloat.
Import NpFloat.

(** ** The NumPy and SciPy functions the program calls *)

Module Np.

Fixpoint zipWith {A B C : Type} (f : A -> B -> C) (u : list A) (v : list B) : list C :=
  match u, v with
  | a :: u', b :: v' => f a b :: zipWith f u' v'
  | _, _ => []
  end.

(** [np.sum], [np.prod], [np.mean] over a flat array. *)
Definition sum (l : list npfloat) : npfloat := fold_right npadd (Fin 0) l.
Definition prod (l : list npfloat) : npfloat := fold_right npmul (Fin 1) l.
Definition mean (l : list npfloat) : npfloat := npdiv (sum l) (of_nat (length l)).

(** [a.max()]: raises [ValueError] on an empty array ([None]). *)
Definition max (l : list npfloat) : option npfloat :=
  match l with
  | [] => None
  | a :: l' => Some (fold_left npmaximum l' a)
  end.

Definition ones (n : nat) : list npfloat := repeat (Fin 1) n.
Definition zeros (n : nat) : list npfloat := repeat (Fin 0) n.
Definition zeros2 (t g : nat) : list (list npfloat) := repeat (zeros g) t.

(** Elementwise operations on flat arrays and on (time step x grid) arrays. *)
Definition add (u v : list npfloat) : list npfloat := zipWith npadd u v.
Definition add2 (u v : list (list npfloat)) : list (list npfloat) := zipWith add u v.
Definition scale (c : npfloat) (u : list npfloat) : list npfloat :=
  map (fun x => npmul x c) u.
Definition divide (u : list npfloat) (c : npfloat) : list npfloat :=
  map (fun x => npdiv x c) u.

(** [np.linspace(start, stop, num)] with the end point included:
    [arange(0, num) * step + start], the last entry then set to [stop]. *)
Definition linspace (start stop : npfloat) (num : nat) : list npfloat :=
  match num with
  | O => []
  | S O => [start]
  | S n =>
      let step := npdiv (npsub stop start) (of_nat n) in
      map (fun i => npadd (npmul (of_nat i) step) start) (seq 0 n) ++ [stop]
  end.

Definition nat_prod (l : list nat) : nat := fold_right Nat.mul 1%nat l.

(** [x] with every entry repeated [m] times in a row. *)
Definition repeat_each {A : Type} (m : nat) (x : list A) : list A :=
  flat_map (fun a => repeat a m) x.

(** [l] written [n] times one after the other. *)
Definition tile {A : Type} (n : nat) (l : list A) : list A :=
  concat (repeat l n).

(** The raveled outputs of [np.meshgrid] called on the arrays [xs] with
    ij indexing ([t.ravel()] for every output [t]): the d-th output holds [xs[d][i_d]] at the multi-index [(i_1, ..., i_D)], read in
    C order (last index fastest). *)
Fixpoint meshgrid_ij_ravel {A : Type} (xs : list (list A)) : list (list A) :=
  match xs with
  | [] => []
  | x :: rest =>
      repeat_each (nat_prod (map (@length A) rest)) x
        :: map (tile (length x)) (meshgrid_ij_ravel rest)
  end.

(** [np.array(cols).T] for a non-empty list of equally long columns: row
    [k] collects the k-th entry of every column. *)
Fixpoint transpose {A : Type} (cols : list (list A)) : list (list A) :=
  match cols with
  | [] => []
  | c :: cs =>
      match cs with
      | [] => map (fun a => [a]) c
      | _ :: _ => zipWith cons c (transpose cs)
      end
  end.

(** Consecutive slices of [l] of the given sizes. *)
Fixpoint slices {A : Type} (sizes : list nat) (l : list A) : list (list A) :=
  match sizes with
  | [] => []
  | m :: sizes' => firstn m l :: slices sizes' (skipn m l)
  end.

(** [np.array_split(l, n)] along the first axis, [n > 0]: the first
    [len % n] sections hold [len / n + 1] entries, the others [len / n]. *)
Definition array_split {A : Type} (l : list A) (n : nat) : list (list A) :=
  let each := (length l / n)%nat in
  let extras := (length l mod n)%nat in
  slices (repeat (S each) extras ++ repeat each (n - extras)) l.

(** [scipy.misc.logsumexp(a)]:
    [a_max = a.max(); out = log(sum(exp(a - a_max))); out += a_max]. *)
Definition logsumexp (a : list npfloat) : option npfloat :=
  match max a with
  | None => None
  | Some a_max =>
      Some (npadd (nplog (sum (map (fun x => npexp (npsub x a_max)) a))) a_max)
  end.

(** [n] consecutive chunks of [m] entries: the rows of a C-ordered array
    along its first axis. *)
Fixpoint chunks {A : Type} (m n : nat) (l : list A) : list (list A) :=
  match n with
  | O => []
  | S n' => firstn m l :: chunks m n' (skipn m l)
  end.

(** Elementwise sum of arrays of [m] entries. *)
Definition vsum (m : nat) (rows : list (list npfloat)) : list npfloat :=
  fold_right add (zeros m) rows.

(** [np.sum(a, axis)] with the summed axis kept (length 1), on the flat
    C-ordered data of an array of the given shape. *)
Fixpoint sum_axis (shape : list nat) (axis : nat) (flat : list npfloat) : list npfloat :=
  match shape with
  | [] => flat
  | n :: rest =>
      match axis with
      | O => vsum (nat_prod rest) (chunks (nat_prod rest) n flat)
      | S axis' => concat (map (sum_axis rest axis') (chunks (nat_prod rest) n flat))
      end
  end.

(** The shape after [sum_axis]. *)
Fixpoint collapse (shape : list nat) (axis : nat) : list nat :=
  match shape, axis with
  | [], _ => []
  | _ :: rest, O => 1%nat :: rest
  | n :: rest, S axis' => n :: collapse rest axis'
  end.

(** [np.apply_over_axes(np.sum, a, axes)]: one axis after the other. *)
Fixpoint apply_over_axes_sum (shape : list nat) (axes : list nat) (flat : list npfloat)
  : list npfloat :=
  match axes with
  | [] => flat
  | a :: axes' => apply_over_axes_sum (collapse shape a) axes' (sum_axis shape a flat)
  end.

End Np.

(** ** The data model *)

(** One entry [[name, lower, upper, steps]] of the [raster] argument. *)
Record RasterSpec : Type := {
  name : string;
  lower : npfloat;
  upper : npfloat;
  steps : nat
}.

(** A SymPy random variable given as prior: the free symbols of its
    distribution and its density as [lambdify] returns it (applied
    elementwise to an array). *)
Record RandomVariable : Type := {
  free_symbols : list string;
  pdf : npfloat -> npfloat
}.

(** What one run of the single-point filtering routine produces. *)
Record FitResult : Type := {
  res_logEvidence : npfloat;
  res_localEvidence : list npfloat;
  res_posteriorSequence : list (list npfloat)
}.

(** One invocation of [Study.fit], as a call counter on the filtering
    routine sees it. *)
Record FitCall : Type := {
  call_hyperParameterValues : list npfloat;
  call_forwardOnly : bool;
  call_evidenceOnly : bool;
  call_silent : bool
}.

(** The attributes of the base class [Study] that [RasterStudy] reads and
    writes.  A posterior sequence is a list of time steps, each the flat
    array of the distribution over the parameter grid.  [fitCalls] records
    the invocations of [Study.fit] made on this instance. *)
Record Study : Type := {
  rawData : list npfloat;
  segmentLength : nat;
  formattedData : list (list npfloat);
  gridSize : list nat;
  grid : list (list npfloat);
  selectedHyperParameters : list string;
  hyperParameterValues : list npfloat;
  logEvidence : npfloat;
  localEvidence : list npfloat;
  posteriorSequence : list (list npfloat);
  posteriorMeanValues : list (list npfloat);
  fitCalls : list FitCall
}.

(** The attributes [RasterStudy.__init__] adds; [None] is Python's [None].
    [rasterValues] and [rasterConstant] hold a Python list ([__init__]
    stores [[]]) or a NumPy array; the two kinds compare differently with
    [[]] (lines 93 and 96), so the kind is recorded: [rasterValuesIsArray]
    and [rasterConstantIsArray] tell whether the attribute holds a NumPy
    array. *)
Record RasterStudy : Type := {
  base : Study;
  raster : list RasterSpec;
  rasterValues : list (list npfloat);
  rasterValuesIsArray : bool;
  rasterConstant : list npfloat;
  rasterConstantIsArray : bool;
  hyperParameterPrior : option (list npfloat);
  hyperParameterDistribution : option (list npfloat);
  averagePosteriorSequence : option (list (list npfloat));
  logEvidenceList : list npfloat;
  localEvidenceList : list (list npfloat)
}.

(** Attribute assignment. *)
Definition with_formattedData (v : list (list npfloat)) (b : Study) : Study :=
  {| rawData := rawData b; segmentLength := segmentLength b; formattedData := v;
     gridSize := gridSize b; grid := grid b;
     selectedHyperParameters := selectedHyperParameters b;
     hyperParameterValues := hyperParameterValues b; logEvidence := logEvidence b;
     localEvidence := localEvidence b; posteriorSequence := posteriorSequence b;
     posteriorMeanValues := posteriorMeanValues b; fitCalls := fitCalls b |}.

Definition with_selectedHyperParameters (v : list string) (b : Study) : Study :=
  {| rawData := rawData b; segmentLength := segmentLength b;
     formattedData := formattedData b; gridSize := gridSize b; grid := grid b;
     selectedHyperParameters := v;
     hyperParameterValues := hyperParameterValues b; logEvidence := logEvidence b;
     localEvidence := localEvidence b; posteriorSequence := posteriorSequence b;
     posteriorMeanValues := posteriorMeanValues b; fitCalls := fitCalls b |}.

Definition with_hyperParameterValues (v : list npfloat) (b : Study) : Study :=
  {| rawData := rawData b; segmentLength := segmentLength b;
     formattedData := formattedData b; gridSize := gridSize b; grid := grid b;
     selectedHyperParameters := selectedHyperParameters b;
     hyperParameterValues := v; logEvidence := logEvidence b;
     localEvidence := localEvidence b; posteriorSequence := posteriorSequence b;
     posteriorMeanValues := posteriorMeanValues b; fitCalls := fitCalls b |}.

Definition with_logEvidence (v : npfloat) (b : Study) : Study :=
  {| rawData := rawData b; segmentLength := segmentLength b;
     formattedData := formattedData b; gridSize := gridSize b; grid := grid b;
     selectedHyperParameters := selectedHyperParameters b;
     hyperParameterValues := hyperParameterValues b; logEvidence := v;
     localEvidence := localEvidence b; posteriorSequence := posteriorSequence b;
     posteriorMeanValues := posteriorMeanValues b; fitCalls := fitCalls b |}.

Definition with_localEvidence (v : list npfloat) (b : Study) : Study :=
  {| rawData := rawData b; segmentLength := segmentLength b;
     formattedData := formattedData b; gridSize := gridSize b; grid := grid b;
     selectedHyperParameters := selectedHyperParameters b;
     hyperParameterValues := hyperParameterValues b; logEvidence := logEvidence b;
     localEvidence := v; posteriorSequence := posteriorSequence b;
     posteriorMeanValues := posteriorMeanValues b; fitCalls := fitCalls b |}.

Definition with_posteriorSequence (v : list (list npfloat)) (b : Study) : Study :=
  {| rawData := rawData b; segmentLength := segmentLength b;
     formattedData := formattedData b; gridSize := gridSize b; grid := grid b;
     selectedHyperParameters := selectedHyperParameters b;
     hyperParameterValues := hyperParameterValues b; logEvidence := logEvidence b;
     localEvidence := localEvidence b; posteriorSequence := v;
     posteriorMeanValues := posteriorMeanValues b; fitCalls := fitCalls b |}.

Definition with_posteriorMeanValues (v : list (list npfloat)) (b : Study) : Study :=
  {| rawData := rawData b; segmentLength := segmentLength b;
     formattedData := formattedData b; gridSize := gridSize b; grid := grid b;
     selectedHyperParameters := selectedHyperParameters b;
     hyperParameterValues := hyperParameterValues b; logEvidence := logEvidence b;
     localEvidence := localEvidence b; posteriorSequence := posteriorSequence b;
     posteriorMeanValues := v; fitCalls := fitCalls b |}.

Definition with_fitCalls (v : list FitCall) (b : Study) : Study :=
  {| rawData := rawData b; segmentLength := segmentLength b;
     formattedData := formattedData b; gridSize := gridSize b; grid := grid b;
     selectedHyperParameters := selectedHyperParameters b;
     hyperParameterValues := hyperParameterValues b; logEvidence := logEvidence b;
     localEvidence := localEvidence b; posteriorSequence := posteriorSequence b;
     posteriorMeanValues := posteriorMeanValues b; fitCalls := v |}.

Definition upd_base (f : Study -> Study) (s : RasterStudy) : RasterStudy :=
  {| base := f (base s); raster := raster s; rasterValues := rasterValues s;
     rasterValuesIsArray := rasterValuesIsArray s;
     rasterConstant := rasterConstant s;
     rasterConstantIsArray := rasterConstantIsArray s;
     hyperParameterPrior := hyperParameterPrior s;
     hyperParameterDistribution := hyperParameterDistribution s;
     averagePosteriorSequence := averagePosteriorSequence s;
     logEvidenceList := logEvidenceList s; localEvidenceList := localEvidenceList s |}.

Definition with_raster (v : list RasterSpec) (s : RasterStudy) : RasterStudy :=
  {| base := base s; raster := v; rasterValues := rasterValues s;
     rasterValuesIsArray := rasterValuesIsArray s;
     rasterConstant := rasterConstant s;
     rasterConstantIsArray := rasterConstantIsArray s;
     hyperParameterPrior := hyperParameterPrior s;
     hyperParameterDistribution := hyperParameterDistribution s;
     averagePosteriorSequence := averagePosteriorSequence s;
     logEvidenceList := logEvidenceList s; localEvidenceList := localEvidenceList s |}.

(** [rasterValues] is assigned a NumPy array (lines 86 and 279). *)
Definition with_rasterValues (v : list (list npfloat)) (s : RasterStudy) : RasterStudy :=
  {| base := base s; raster := raster s; rasterValues := v; rasterValuesIsArray := true;
     rasterConstant := rasterConstant s;
     rasterConstantIsArray := rasterConstantIsArray s;
     hyperParameterPrior := hyperParameterPrior s;
     hyperParameterDistribution := hyperParameterDistribution s;
     averagePosteriorSequence := averagePosteriorSequence s;
     logEvidenceList := logEvidenceList s; localEvidenceList := localEvidenceList s |}.

(** [rasterConstant] is assigned a Python list (line 87). *)
Definition with_rasterConstant (v : list npfloat) (s : RasterStudy) : RasterStudy :=
  {| base := base s; raster := raster s; rasterValues := rasterValues s;
     rasterValuesIsArray := rasterValuesIsArray s;
     rasterConstant := v; rasterConstantIsArray := false;
     hyperParameterPrior := hyperParameterPrior s;
     hyperParameterDistribution := hyperParameterDistribution s;
     averagePosteriorSequence := averagePosteriorSequence s;
     logEvidenceList := logEvidenceList s; localEvidenceList := localEvidenceList s |}.

Definition with_hyperParameterPrior (v : option (list npfloat)) (s : RasterStudy)
  : RasterStudy :=
  {| base := base s; raster := raster s; rasterValues := rasterValues s;
     rasterValuesIsArray := rasterValuesIsArray s;
     rasterConstant := rasterConstant s;
     rasterConstantIsArray := rasterConstantIsArray s; hyperParameterPrior := v;
     hyperParameterDistribution := hyperParameterDistribution s;
     averagePosteriorSequence := averagePosteriorSequence s;
     logEvidenceList := logEvidenceList s; localEvidenceList := localEvidenceList s |}.

Definition with_hyperParameterDistribution (v : option (list npfloat)) (s : RasterStudy)
  : RasterStudy :=
  {| base := base s; raster := raster s; rasterValues := rasterValues s;
     rasterValuesIsArray := rasterValuesIsArray s;
     rasterConstant := rasterConstant s;
     rasterConstantIsArray := rasterConstantIsArray s;
     hyperParameterPrior := hyperParameterPrior s;
     hyperParameterDistribution := v;
     averagePosteriorSequence := averagePosteriorSequence s;
     logEvidenceList := logEvidenceList s; localEvidenceList := localEvidenceList s |}.

Definition with_averagePosteriorSequence (v : option (list (list npfloat)))
  (s : RasterStudy) : RasterStudy :=
  {| base := base s; raster := raster s; rasterValues := rasterValues s;
     rasterValuesIsArray := rasterValuesIsArray s;
     rasterConstant := rasterConstant s;
     rasterConstantIsArray := rasterConstantIsArray s;
     hyperParameterPrior := hyperParameterPrior s;
     hyperParameterDistribution := hyperParameterDistribution s;
     averagePosteriorSequence := v;
     logEvidenceList := logEvidenceList s; localEvidenceList := localEvidenceList s |}.

Definition with_logEvidenceList (v : list npfloat) (s : RasterStudy) : RasterStudy :=
  {| base := base s; raster := raster s; rasterValues := rasterValues s;
     rasterValuesIsArray := rasterValuesIsArray s;
     rasterConstant := rasterConstant s;
     rasterConstantIsArray := rasterConstantIsArray s;
     hyperParameterPrior := hyperParameterPrior s;
     hyperParameterDistribution := hyperParameterDistribution s;
     averagePosteriorSequence := averagePosteriorSequence s;
     logEvidenceList := v; localEvidenceList := localEvidenceList s |}.

Definition with_localEvidenceList (v : list (list npfloat)) (s : RasterStudy)
  : RasterStudy :=
  {| base := base s; raster := raster s; rasterValues := rasterValues s;
     rasterValuesIsArray := rasterValuesIsArray s;
     rasterConstant := rasterConstant s;
     rasterConstantIsArray := rasterConstantIsArray s;
     hyperParameterPrior := hyperParameterPrior s;
     hyperParameterDistribution := hyperParameterDistribution s;
     averagePosteriorSequence := averagePosteriorSequence s;
     logEvidenceList := logEvidenceList s; localEvidenceList := v |}.

(** The value of an attribute that holds an array ([None] read as empty:
    [fit] assigns the attribute before every such read). *)
Definition arrayOf {A : Type} (v : option (list A)) : list A :=
  match v with Some l => l | None => [] end.

(** How a call of [fit] ends.  Every [return] of the method returns
    [None]; the variants tell them apart by the message printed before. *)
Inductive ConfigError : Type :=
| NoDummyRaster
| NoRasterValues
| NoRasterConstant
| PriorLengthMismatch
| PriorFreeParameters
| Inconsistent.

Inductive PyError : Type :=
| IndexError
| ValueError.

Inductive Outcome : Type :=
| Finished
| Delegated
| Aborted (e : ConfigError)
| Raised (e : PyError).

(** ** The base class and the collaborators of [study.py] *)

(** The parts of [study.py] and [preprocessing.py] the raster study calls.
    The files are not under [src/]; the three functions are parameters of
    the development.  [filtering data names values forwardOnly evidenceOnly]
    is the single-point forward(-backward) pass for the hyper-parameter
    values bound to the selected names. *)
Class StudyBase : Type := {
  movingWindow : list npfloat -> nat -> list (list npfloat);
  checkConsistency : Study -> bool;
  filtering : list (list npfloat) -> list string -> list npfloat -> bool -> bool -> FitResult
}.

Section Model.

Context `{SB : StudyBase}.

(** Modelled from the spec: [Study.setSelectedHyperParameters] is missing
    from [src/]; it binds the given vector as the selected hyper-parameter
    values of the underlying model. *)
Definition setSelectedHyperParameters (values : list npfloat) (b : Study) : Study :=
  with_hyperParameterValues values b.

(** Modelled from the spec: [Study.fit] is missing from [src/]; it runs the
    filtering routine on the formatted observations and stores the
    log-evidence, the local evidence and, unless evidence-only, the
    posterior sequence. *)
Definition Study_fit (forwardOnly evidenceOnly silent : bool) (b : Study) : Study :=
  let r := filtering (formattedData b) (selectedHyperParameters b)
             (hyperParameterValues b) forwardOnly evidenceOnly in
  let b := with_fitCalls
             (fitCalls b ++ [{| call_hyperParameterValues := hyperParameterValues b;
                                call_forwardOnly := forwardOnly;
                                call_evidenceOnly := evidenceOnly;
                                call_silent := silent |}]) b in
  let b := with_logEvidence (res_logEvidence r) b in
  let b := with_localEvidence (res_localEvidence r) b in
  if evidenceOnly then b else with_posteriorSequence (res_posteriorSequence r) b.

(** ** [RasterStudy.fit] *)

Definition enumerate {A : Type} (l : list A) : list (nat * A) :=
  combine (seq 0 (length l)) l.

(** [v == []] as the condition of an [if], for an attribute that holds a
    Python list or a NumPy array.  Two lists are equal when both are
    empty.  For an array the comparison is elementwise: its result is an
    empty array when the operands broadcast (an empty array is false as a
    condition) and [False] when they do not, in the NumPy versions that
    run under Python 2, which the program requires; so the condition fails
    for every array, the empty one too. *)
Definition equalsEmptyList {A : Type} (isArray : bool) (v : list A) : bool :=
  if isArray then false
  else match v with
       | [] => true
       | _ :: _ => false
       end.

(** Lines 74-98: the raster is built from the argument, or the attributes
    set by hand are checked.  [inl] is an early [return]. *)
Definition prepareRaster (raster_arg : list RasterSpec)
  (forwardOnly evidenceOnly customRaster silent : bool) (self : RasterStudy)
  : (Outcome * RasterStudy) + RasterStudy :=
  if negb customRaster then
    let self := with_raster raster_arg self in
    match raster self with
    | [] => inl (Delegated, upd_base (Study_fit forwardOnly evidenceOnly silent) self)
    | _ :: _ =>
        let temp :=
          Np.meshgrid_ij_ravel
            (map (fun r => Np.linspace (lower r) (upper r) (steps r)) (raster self)) in
        let self := with_rasterValues (Np.transpose temp) self in
        inr (with_rasterConstant
               (map (fun r => npdiv (npabs (npsub (upper r) (lower r)))
                                    (npsub (of_nat (steps r)) (Fin 1)))
                    (raster self)) self)
    end
  else
    match raster self with
    | [] => inl (Aborted NoDummyRaster, self)
    | _ :: _ =>
        if equalsEmptyList (rasterValuesIsArray self) (rasterValues self) then
          inl (Aborted NoRasterValues, self)
        else if equalsEmptyList (rasterConstantIsArray self) (rasterConstant self) then
          inl (Aborted NoRasterConstant, self)
        else inr self
    end.

(** Lines 116-129: the loop over the supplied priors.  [inl] is the
    [return] on a prior with free parameters, with the prior as far as it
    was multiplied up. *)
Fixpoint priorLoop (i : nat) (prior : list RandomVariable) (values : list (list npfloat))
  (acc : list npfloat) : list npfloat + list npfloat :=
  match prior with
  | [] => inr acc
  | rv :: prior' =>
      match free_symbols rv with
      | _ :: _ => inl acc
      | [] =>
          let column := map (fun row => nth i row NaN) values in
          priorLoop (S i) prior' values (Np.zipWith npmul acc (map (pdf rv) column))
      end
  end.

(** Lines 103-132: the prior distribution over the raster points. *)
Definition determinePrior (prior : list RandomVariable) (self : RasterStudy)
  : (Outcome * RasterStudy) + RasterStudy :=
  match prior with
  | [] =>
      inr (with_hyperParameterPrior
             (Some (Np.divide (Np.ones (length (rasterValues self)))
                              (of_nat (length (rasterValues self))))) self)
  | _ :: _ =>
      match rasterValues self with
      | [] => inl (Raised IndexError, self)
      | row0 :: _ =>
          if negb (length prior =? length row0)%nat then
            inl (Aborted PriorLengthMismatch, self)
          else
            let self :=
              with_hyperParameterPrior (Some (Np.ones (length (rasterValues self)))) self in
            match priorLoop 0 prior (rasterValues self)
                    (arrayOf (hyperParameterPrior self)) with
            | inl partial =>
                inl (Aborted PriorFreeParameters,
                     with_hyperParameterPrior (Some partial) self)
            | inr p =>
                inr (with_hyperParameterPrior (Some (Np.divide p (Np.sum p))) self)
            end
      end
  end.

(** Lines 178-189 (and 282-293 in [parallelFit]): one pass of the loop
    over the raster points. *)
Definition sweepStep (forwardOnly evidenceOnly : bool) (self : RasterStudy)
  (ih : nat * list npfloat) : RasterStudy :=
  let i := fst ih in
  let hyperParamValues := snd ih in
  let self := upd_base (setSelectedHyperParameters hyperParamValues) self in
  let self := upd_base (Study_fit forwardOnly evidenceOnly true) self in
  let self :=
    with_logEvidenceList (logEvidenceList self ++ [logEvidence (base self)]) self in
  let self :=
    with_localEvidenceList (localEvidenceList self ++ [localEvidence (base self)]) self in
  if evidenceOnly then self
  else
    let weight := npexp (npsub (logEvidence (base self)) (nth 0 (logEvidenceList self) NaN)) in
    let p := nth i (arrayOf (hyperParameterPrior self)) NaN in
    with_averagePosteriorSequence
      (Some (Np.add2 (arrayOf (averagePosteriorSequence self))
               (map (fun posterior => Np.scale p (Np.scale weight posterior))
                    (posteriorSequence (base self))))) self.

Definition sweep (forwardOnly evidenceOnly : bool) (self : RasterStudy) : RasterStudy :=
  fold_left (sweepStep forwardOnly evidenceOnly) (enumerate (rasterValues self)) self.

(** Lines 278-299: [parallelFit].  The instance arrives in the worker
    process by value; the worker sweeps its section of the raster values
    and of the prior and returns the copy. *)
Definition parallelFit (idx nJobs : nat) (forwardOnly evidenceOnly silent : bool)
  (self : RasterStudy) : RasterStudy :=
  let S := self in
  let S := with_rasterValues (nth idx (Np.array_split (rasterValues S) nJobs) []) S in
  let S :=
    with_hyperParameterPrior
      (Some (nth idx (Np.array_split (arrayOf (hyperParameterPrior S)) nJobs) [])) S in
  sweep forwardOnly evidenceOnly S.

(** Lines 171-175: the sub-studies are merged in the order of their index. *)
Definition mergeStudy (evidenceOnly : bool) (self S : RasterStudy) : RasterStudy :=
  let self := with_logEvidenceList (logEvidenceList self ++ logEvidenceList S) self in
  let self := with_localEvidenceList (localEvidenceList self ++ localEvidenceList S) self in
  if evidenceOnly then self
  else
    with_averagePosteriorSequence
      (Some (Np.add2 (arrayOf (averagePosteriorSequence self))
                     (arrayOf (averagePosteriorSequence S)))) self.

(** Lines 200-203: every time step of the accumulator divided by its sum. *)
Definition normalizeSequence (sequence : list (list npfloat)) : list (list npfloat) :=
  map (fun posterior => Np.divide posterior (Np.sum posterior)) sequence.

(** Lines 217-221: the hyper-parameter distribution. *)
Definition computeHyperParameterDistribution (logEvidences prior constants : list npfloat)
  : list npfloat :=
  let logHyperParameterDistribution := Np.add logEvidences (map nplog prior) in
  let scaledLogHyperParameterDistribution :=
    map (fun x => npsub x (Np.mean logHyperParameterDistribution))
        logHyperParameterDistribution in
  let distribution := map npexp scaledLogHyperParameterDistribution in
  let distribution := Np.divide distribution (Np.sum distribution) in
  Np.divide distribution (Np.prod constants).

(** [np.sum(rows, axis=0)] of a non-empty list of equally long rows. *)
Definition sum_axis0 (rows : list (list npfloat)) : list npfloat :=
  match rows with
  | [] => []
  | r :: _ => Np.vsum (length r) rows
  end.

(** Lines 196-248: the results of the sweep are combined. *)
Definition aggregate (evidenceOnly : bool) (self : RasterStudy) : Outcome * RasterStudy :=
  let self := upd_base (with_selectedHyperParameters []) self in
  let self :=
    if evidenceOnly then self
    else
      let average := normalizeSequence (arrayOf (averagePosteriorSequence self)) in
      upd_base (with_posteriorSequence average)
               (with_averagePosteriorSequence (Some average) self) in
  let prior := arrayOf (hyperParameterPrior self) in
  match Np.logsumexp (Np.add (logEvidenceList self) (map nplog prior)) with
  | None => (Raised ValueError, self)
  | Some total =>
      let self := upd_base (with_logEvidence total) self in
      let distribution :=
        computeHyperParameterDistribution (logEvidenceList self) prior
          (rasterConstant self) in
      let self := with_hyperParameterDistribution (Some distribution) self in
      let self :=
        upd_base (with_localEvidence
                    (sum_axis0 (Np.zipWith (fun row h => Np.scale h row)
                                  (localEvidenceList self) distribution))) self in
      let self :=
        if evidenceOnly then self
        else
          upd_base (fun b =>
            with_posteriorMeanValues
              (map (fun g => map (fun p => Np.sum (Np.zipWith npmul p g))
                                 (posteriorSequence b)) (grid b)) b) self in
      let self := with_hyperParameterPrior None self in
      let self := with_logEvidenceList [] self in
      let self := with_localEvidenceList [] self in
      (Finished, self)
  end.

(** Lines 134-141: the accumulator and the evidence lists are reset and
    the names of the raster are selected. *)
Definition initSweep (evidenceOnly : bool) (self : RasterStudy) : RasterStudy :=
  let self :=
    if evidenceOnly then self
    else
      with_averagePosteriorSequence
        (Some (Np.zeros2 (length (formattedData (base self)))
                         (Np.nat_prod (gridSize (base self))))) self in
  let self := with_logEvidenceList [] self in
  let self := with_localEvidenceList [] self in
  upd_base (with_selectedHyperParameters (map name (raster self))) self.

(** Lines 148-193: the raster points are analysed, by [nJobs] worker
    processes or in this process.  [pathosAvailable] tells whether the
    import of [pathos.multiprocessing] succeeds. *)
Definition runSweep (forwardOnly evidenceOnly silent : bool) (nJobs : Z)
  (pathosAvailable : bool) (self : RasterStudy) : RasterStudy :=
  let nJobs := if (1 <? nJobs)%Z && negb pathosAvailable then 1%Z else nJobs in
  if (1 <? nJobs)%Z then
    let subStudies :=
      map (fun idx => parallelFit idx (Z.to_nat nJobs) forwardOnly evidenceOnly silent self)
          (seq 0 (Z.to_nat nJobs)) in
    fold_left (mergeStudy evidenceOnly) subStudies self
  else sweep forwardOnly evidenceOnly self.

(** [RasterStudy.fit]. *)
Definition fit (raster_arg : list RasterSpec) (prior : list RandomVariable)
  (forwardOnly evidenceOnly customRaster silent : bool) (nJobs : Z)
  (pathosAvailable : bool) (self : RasterStudy) : Outcome * RasterStudy :=
  match prepareRaster raster_arg forwardOnly evidenceOnly customRaster silent self with
  | inl returned => returned
  | inr self =>
      let self :=
        upd_base (fun b => with_formattedData (movingWindow (rawData b) (segmentLength b)) b)
                 self in
      match determinePrior prior self with
      | inl returned => returned
      | inr self =>
          let self := initSweep evidenceOnly self in
          if negb (checkConsistency (base self)) then (Aborted Inconsistent, self)
          else
            aggregate evidenceOnly
              (runSweep forwardOnly evidenceOnly silent nJobs pathosAvailable self)
      end
  end.

End Model.

(** ** [RasterStudy.plotHyperParameterDistribution] *)

(** The [param] argument: an integer, a string, or anything else. *)
Inductive Param : Type :=
| ParamIndex (i : Z)
| ParamName (n : string)
| ParamOther.

(** What the method hands back: the two arrays, [None] after a message, or
    an exception of a list or array operation. *)
Inductive PlotResult : Type :=
| PlotReturned (x marginalDistribution : list npfloat)
| PlotNone
| PlotRaised.

(** Lines 328-331: the index of the last raster entry of that name, [-1]
    when there is none. *)
Definition findParamIndex (param : string) (hyperParameterNames : list string) : Z :=
  fold_left (fun paramIndex iname =>
               if String.eqb (snd iname) param then Z.of_nat (fst iname) else paramIndex)
            (enumerate hyperParameterNames) (-1)%Z.

(** [list.remove(x)]: the first occurrence is removed; [None] stands for
    the [ValueError] raised when there is none. *)
Fixpoint list_remove (x : nat) (l : list nat) : option (list nat) :=
  match l with
  | [] => None
  | y :: l' =>
      if (y =? x)%nat then Some l'
      else match list_remove x l' with
           | Some r => Some (y :: r)
           | None => None
           end
  end.

(** [[constants[axis] for axis in axes]]; [None] stands for [IndexError]. *)
Fixpoint lookup_all (constants : list npfloat) (axes : list nat) : option (list npfloat) :=
  match axes with
  | [] => Some []
  | a :: axes' =>
      match nth_error constants a, lookup_all constants axes' with
      | Some c, Some cs => Some (c :: cs)
      | _, _ => None
      end
  end.

(** Lines 341-353 and 365: the marginal distribution of one
    hyper-parameter.  The array is kept flat in C order; [np.squeeze] then
    changes nothing.  The plotting calls are left out. *)
Definition marginalize (paramIndex : Z) (self : RasterStudy) : PlotResult :=
  let hyperParameterNames := map name (raster self) in
  if (paramIndex <? 0)%Z then PlotRaised
  else
    match list_remove (Z.to_nat paramIndex) (seq 0 (length hyperParameterNames)) with
    | None => PlotRaised
    | Some axesToMarginalize =>
        let rasterSteps := map steps (raster self) in
        match hyperParameterDistribution self with
        | None => PlotRaised
        | Some distribution =>
            if negb (length distribution =? Np.nat_prod rasterSteps)%nat then PlotRaised
            else
              let marginalDistribution :=
                Np.apply_over_axes_sum rasterSteps axesToMarginalize distribution in
              match lookup_all (rasterConstant self) axesToMarginalize with
              | None => PlotRaised
              | Some constants =>
                  let integrationFactor := Np.prod constants in
                  let marginalDistribution :=
                    Np.scale integrationFactor marginalDistribution in
                  match nth_error (raster self) (Z.to_nat paramIndex) with
                  | None => PlotRaised
                  | Some r =>
                      PlotReturned (Np.linspace (lower r) (upper r) (steps r))
                                   marginalDistribution
                  end
              end
        end
    end.

(** Lines 323-339: the parameter is resolved to an index. *)
Definition plotHyperParameterDistribution (param : Param) (self : RasterStudy)
  : PlotResult :=
  let hyperParameterNames := map name (raster self) in
  match param with
  | ParamIndex i => marginalize i self
  | ParamName n =>
      let paramIndex := findParamIndex n hyperParameterNames in
      if (paramIndex =? -1)%Z then PlotNone else marginalize paramIndex self
  | ParamOther => PlotNone
  end.

(** * Properties *)

(** ** What the phases of [fit] leave alone *)

Section Frames.

Context `{SB : StudyBase}.

Lemma fold_left_keeps {S X B : Type} (f : S -> B) (step : S -> X -> S) :
  (forall s x, f (step s x) = f s) ->
  forall l s, f (fold_left step l s) = f s.
Proof.
  intros Hstep l; induction l as [|x l IH]; intros s; simpl.
  - reflexivity.
  - rewrite IH. apply Hstep.
Qed.

Lemma prepareRaster_returns raster_arg fo eo custom silent self o s1 :
  prepareRaster raster_arg fo eo custom silent self = inl (o, s1) ->
  (o = Delegated /\ custom = false /\ raster_arg = []
   /\ s1 = upd_base (Study_fit fo eo silent) (with_raster [] self))
  \/ (exists e, o = Aborted e /\ s1 = self /\ custom = true).
Proof.
  unfold prepareRaster. destruct custom; simpl.
  - destruct (raster self); [intros H; inversion H; right; eauto|].
    destruct (equalsEmptyList _ (rasterValues self));
      [intros H; inversion H; right; eauto|].
    destruct (equalsEmptyList _ (rasterConstant self));
      [intros H; inversion H; right; eauto|].
    discriminate.
  - destruct raster_arg; [|discriminate].
    intros H; inversion H; left; auto.
Qed.

Lemma prepareRaster_continues raster_arg fo eo custom silent self s1 :
  prepareRaster raster_arg fo eo custom silent self = inr s1 ->
  base s1 = base self
  /\ hyperParameterDistribution s1 = hyperParameterDistribution self
  /\ averagePosteriorSequence s1 = averagePosteriorSequence self.
Proof.
  unfold prepareRaster. destruct custom; simpl.
  - destruct (raster self); [discriminate|].
    destruct (equalsEmptyList _ (rasterValues self)); [discriminate|].
    destruct (equalsEmptyList _ (rasterConstant self)); [discriminate|].
    intros H; inversion H; auto.
  - destruct raster_arg; [discriminate|].
    intros H; inversion H; auto.
Qed.

Lemma determinePrior_returns prior self o s1 :
  determinePrior prior self = inl (o, s1) ->
  base s1 = base self
  /\ hyperParameterDistribution s1 = hyperParameterDistribution self
  /\ raster s1 = raster self /\ rasterValues s1 = rasterValues self
  /\ rasterConstant s1 = rasterConstant self.
Proof.
  unfold determinePrior. destruct prior as [|rv prior]; [discriminate|].
  destruct (rasterValues self) as [|row0 rows] eqn:Hv.
  - intros H; inversion H; subst. rewrite Hv. auto.
  - destruct (negb _).
    + intros H; inversion H; subst. rewrite Hv. auto.
    + destruct (priorLoop _ _ _ _); intros H; inversion H; subst; simpl; auto.
Qed.

Lemma determinePrior_continues prior self s1 :
  determinePrior prior self = inr s1 ->
  base s1 = base self
  /\ hyperParameterDistribution s1 = hyperParameterDistribution self
  /\ raster s1 = raster self /\ rasterValues s1 = rasterValues self
  /\ rasterConstant s1 = rasterConstant self
  /\ averagePosteriorSequence s1 = averagePosteriorSequence self
  /\ exists p, hyperParameterPrior s1 = Some p.
Proof.
  unfold determinePrior. destruct prior as [|rv prior].
  - intros H; inversion H; subst; simpl. repeat split; eauto.
  - destruct (rasterValues self) as [|row0 rows] eqn:Hv; [discriminate|].
    destruct (negb _); [discriminate|].
    destruct (priorLoop _ _ _ _); [discriminate|].
    intros H; inversion H; subst; simpl. repeat split; eauto.
Qed.

Lemma aggregate_outcome eo self :
  fst (aggregate eo self) = Finished \/ fst (aggregate eo self) = Raised ValueError.
Proof.
  unfold aggregate.
  destruct (Np.logsumexp _); simpl; auto.
Qed.

Lemma sweepStep_grid fo eo self ih :
  raster (sweepStep fo eo self ih) = raster self
  /\ rasterValues (sweepStep fo eo self ih) = rasterValues self
  /\ rasterConstant (sweepStep fo eo self ih) = rasterConstant self
  /\ hyperParameterPrior (sweepStep fo eo self ih) = hyperParameterPrior self
  /\ hyperParameterDistribution (sweepStep fo eo self ih) = hyperParameterDistribution self.
Proof. unfold sweepStep; destruct eo; simpl; auto. Qed.

Lemma mergeStudy_grid eo self S :
  raster (mergeStudy eo self S) = raster self
  /\ rasterValues (mergeStudy eo self S) = rasterValues self
  /\ rasterConstant (mergeStudy eo self S) = rasterConstant self
  /\ hyperParameterPrior (mergeStudy eo self S) = hyperParameterPrior self
  /\ hyperParameterDistribution (mergeStudy eo self S) = hyperParameterDistribution self
  /\ base (mergeStudy eo self S) = base self.
Proof. unfold mergeStudy; destruct eo; simpl; auto 10. Qed.

Lemma aggregate_grid eo self :
  raster (snd (aggregate eo self)) = raster self
  /\ rasterValues (snd (aggregate eo self)) = rasterValues self
  /\ rasterConstant (snd (aggregate eo self)) = rasterConstant self.
Proof.
  unfold aggregate. destruct (Np.logsumexp _); destruct eo; simpl; auto.
Qed.

End Frames.

Section FitFrames.

Context `{SB : StudyBase}.

Lemma sweep_grid fo eo self :
  raster (sweep fo eo self) = raster self
  /\ rasterValues (sweep fo eo self) = rasterValues self
  /\ rasterConstant (sweep fo eo self) = rasterConstant self.
Proof.
  unfold sweep. repeat split.
  - apply (fold_left_keeps raster); intros; apply sweepStep_grid.
  - apply (fold_left_keeps rasterValues); intros; apply sweepStep_grid.
  - apply (fold_left_keeps rasterConstant); intros; apply sweepStep_grid.
Qed.

Lemma merge_grid eo subStudies self :
  raster (fold_left (mergeStudy eo) subStudies self) = raster self
  /\ rasterValues (fold_left (mergeStudy eo) subStudies self) = rasterValues self
  /\ rasterConstant (fold_left (mergeStudy eo) subStudies self) = rasterConstant self
  /\ base (fold_left (mergeStudy eo) subStudies self) = base self.
Proof.
  repeat split.
  - apply (fold_left_keeps raster); intros; apply mergeStudy_grid.
  - apply (fold_left_keeps rasterValues); intros; apply mergeStudy_grid.
  - apply (fold_left_keeps rasterConstant); intros; apply mergeStudy_grid.
  - apply (fold_left_keeps base); intros; apply mergeStudy_grid.
Qed.

Lemma initSweep_grid eo self :
  raster (initSweep eo self) = raster self
  /\ rasterValues (initSweep eo self) = rasterValues self
  /\ rasterConstant (initSweep eo self) = rasterConstant self.
Proof. unfold initSweep; destruct eo; simpl; auto. Qed.

Lemma runSweep_grid fo eo silent nJobs pathos self :
  raster (runSweep fo eo silent nJobs pathos self) = raster self
  /\ rasterValues (runSweep fo eo silent nJobs pathos self) = rasterValues self
  /\ rasterConstant (runSweep fo eo silent nJobs pathos self) = rasterConstant self.
Proof.
  unfold runSweep. cbv zeta. destruct (1 <? _)%Z.
  - pose proof (merge_grid eo) as H. split; [|split]; apply H.
  - apply sweep_grid.
Qed.

(** Once the raster is prepared, nothing in [fit] changes it. *)
Lemma fit_keeps_grid raster_arg prior fo eo custom silent nJobs pathos self s1 :
  prepareRaster raster_arg fo eo custom silent self = inr s1 ->
  let self' := snd (fit raster_arg prior fo eo custom silent nJobs pathos self) in
  raster self' = raster s1
  /\ rasterValues self' = rasterValues s1
  /\ rasterConstant self' = rasterConstant s1.
Proof.
  intros Hprep. unfold fit. rewrite Hprep.
  destruct (determinePrior _ _) as [[o s2]|s2] eqn:Hprior.
  - apply determinePrior_returns in Hprior. simpl in *. tauto.
  - apply determinePrior_continues in Hprior.
    destruct Hprior as (_ & _ & Hr & Hv & Hc & _). simpl in Hr, Hv, Hc.
    cbv zeta.
    destruct (initSweep_grid eo s2) as (Ir & Iv & Ic).
    destruct (negb (checkConsistency _)).
    + cbn [snd]. rewrite Ir, Iv, Ic. auto.
    + destruct (aggregate_grid eo (runSweep fo eo silent nJobs pathos (initSweep eo s2)))
        as (Ar & Av & Ac).
      destruct (runSweep_grid fo eo silent nJobs pathos (initSweep eo s2))
        as (Rr & Rv & Rc).
      rewrite Ar, Av, Ac, Rr, Rv, Rc, Ir, Iv, Ic. auto.
Qed.

End FitFrames.

(** ** A concrete study, used to instantiate the theorems *)

Module Example.

(** A filtering routine on one observation and a parameter grid of two
    points: the log-evidence is the first hyper-parameter value [v], the
    posterior of the single time step is [[v, 1 - v]]. *)
Definition filtering0 (_ : list (list npfloat)) (_ : list string) (values : list npfloat)
  (_ _ : bool) : FitResult :=
  let v := nth 0 values (Fin 0) in
  {| res_logEvidence := v;
     res_localEvidence := [v];
     res_posteriorSequence := [[v; npsub (Fin 1) v]] |}.

#[export] Instance base0 : StudyBase := {
  movingWindow := fun data _ => map (fun x => [x]) data;
  checkConsistency := fun _ => true;
  filtering := filtering0
}.

(** The instance as [__init__] leaves it, with one observation loaded. *)
Definition study0 : RasterStudy :=
  {| base := {| rawData := [Fin 0]; segmentLength := 1%nat; formattedData := [];
                gridSize := [2%nat]; grid := [[Fin 0; Fin 1]];
                selectedHyperParameters := []; hyperParameterValues := [];
                logEvidence := Fin 0; localEvidence := []; posteriorSequence := [];
                posteriorMeanValues := []; fitCalls := [] |};
     raster := []; rasterValues := []; rasterValuesIsArray := false;
     rasterConstant := []; rasterConstantIsArray := false;
     hyperParameterPrior := None; hyperParameterDistribution := None;
     averagePosteriorSequence := None; logEvidenceList := []; localEvidenceList := [] |}.

Definition sigma (lo up : R) (n : nat) : RasterSpec :=
  {| name := "sigma"; lower := Fin lo; upper := Fin up; steps := n |}.

Definition log10pMin (lo up : R) (n : nat) : RasterSpec :=
  {| name := "log10pMin"; lower := Fin lo; upper := Fin up; steps := n |}.

End Example.

(** ** Fit without a raster (C9) *)

Section Delegation.

Context `{SB : StudyBase}.

(** C9.  With [customRaster=False] and an empty [raster] argument, [fit]
    does not abort: it calls [Study.fit] once, with the given
    [forwardOnly], [evidenceOnly] and [silent] flags, and returns; no grid
    is built and no hyper-parameter distribution is computed. *)
Theorem fit_without_raster_delegates :
  forall prior forwardOnly evidenceOnly silent nJobs pathosAvailable self,
    let result :=
      fit [] prior forwardOnly evidenceOnly false silent nJobs pathosAvailable self in
    fst result = Delegated
    /\ snd result
       = upd_base (Study_fit forwardOnly evidenceOnly silent) (with_raster [] self)
    /\ fitCalls (base (snd result))
       = fitCalls (base self)
         ++ [{| call_hyperParameterValues := hyperParameterValues (base self);
                call_forwardOnly := forwardOnly;
                call_evidenceOnly := evidenceOnly;
                call_silent := silent |}]
    /\ raster (snd result) = []
    /\ rasterValues (snd result) = rasterValues self
    /\ rasterConstant (snd result) = rasterConstant self
    /\ hyperParameterPrior (snd result) = hyperParameterPrior self
    /\ hyperParameterDistribution (snd result) = hyperParameterDistribution self
    /\ averagePosteriorSequence (snd result) = averagePosteriorSequence self.
Proof.
  intros prior fo eo silent nJobs pathos self result.
  subst result. unfold fit, prepareRaster. simpl.
  repeat split.
  unfold Study_fit. destruct eo; reflexivity.
Qed.

End Delegation.

(** ** Configuration errors (C4) *)

Section ValidationCases.

Context `{SB : StudyBase}.

(** With [customRaster=True], an empty [raster] attribute, or a
    [rasterValues] or [rasterConstant] attribute that is the empty list,
    ends the call; the instance is as before. *)
Lemma fit_aborts_custom_raster raster_arg prior fo eo silent nJobs pathos self :
  raster self = []
  \/ (rasterValuesIsArray self = false /\ rasterValues self = [])
  \/ (rasterConstantIsArray self = false /\ rasterConstant self = []) ->
  exists e, fit raster_arg prior fo eo true silent nJobs pathos self = (Aborted e, self).
Proof.
  intros H. unfold fit, prepareRaster. simpl.
  destruct (raster self); [eauto|].
  destruct (equalsEmptyList _ (rasterValues self)) eqn:Hv; [eauto|].
  destruct (equalsEmptyList _ (rasterConstant self)) eqn:Hc; [eauto|].
  destruct H as [H|[(Hk & H)|(Hk & H)]]; [discriminate| |].
  - rewrite Hk, H in Hv. discriminate.
  - rewrite Hk, H in Hc. discriminate.
Qed.

Lemma equalsEmptyList_true {A : Type} isArray (v : list A) :
  equalsEmptyList isArray v = true -> isArray = false /\ v = [].
Proof. destruct isArray, v; simpl; intros H; try discriminate; auto. Qed.

Lemma priorLoop_free_symbols prior :
  Exists (fun rv => free_symbols rv <> []) prior ->
  forall i values acc, exists partial, priorLoop i prior values acc = inl partial.
Proof.
  induction 1 as [rv prior Hfree|rv prior _ IH]; intros i values acc; simpl.
  - destruct (free_symbols rv); [congruence|eauto].
  - destruct (free_symbols rv); [apply IH|eauto].
Qed.

Lemma priorLoop_returns prior :
  forall i values acc partial,
    priorLoop i prior values acc = inl partial ->
    Exists (fun rv => free_symbols rv <> []) prior.
Proof.
  induction prior as [|rv prior IH]; intros i values acc partial; simpl; [discriminate|].
  destruct (free_symbols rv) eqn:Hfree.
  - intros H. right. eapply IH. exact H.
  - intros _. left. rewrite Hfree. discriminate.
Qed.

Lemma fit_aborts_prior_length raster_arg prior fo eo custom silent nJobs pathos self s1
      row rows :
  prepareRaster raster_arg fo eo custom silent self = inr s1 ->
  rasterValues s1 = row :: rows ->
  prior <> [] ->
  length prior <> length row ->
  fst (fit raster_arg prior fo eo custom silent nJobs pathos self)
  = Aborted PriorLengthMismatch.
Proof.
  intros Hprep Hv Hp Hlen. unfold fit. rewrite Hprep.
  unfold determinePrior. destruct prior as [|rv prior]; [congruence|].
  cbn [rasterValues upd_base]. rewrite Hv.
  destruct (Nat.eqb_spec (length (rv :: prior)) (length row)); [contradiction|].
  reflexivity.
Qed.

Lemma fit_aborts_free_parameters raster_arg prior fo eo custom silent nJobs pathos self s1
      row rows :
  prepareRaster raster_arg fo eo custom silent self = inr s1 ->
  rasterValues s1 = row :: rows ->
  length prior = length row ->
  Exists (fun rv => free_symbols rv <> []) prior ->
  fst (fit raster_arg prior fo eo custom silent nJobs pathos self)
  = Aborted PriorFreeParameters.
Proof.
  intros Hprep Hv Hlen Hfree. unfold fit. rewrite Hprep.
  unfold determinePrior. destruct prior as [|rv prior]; [inversion Hfree|].
  cbn [rasterValues upd_base]. rewrite Hv.
  destruct (Nat.eqb_spec (length (rv :: prior)) (length row)); [|contradiction].
  cbn [negb].
  match goal with
  | |- context [priorLoop ?i ?p ?v ?a] =>
      destruct (priorLoop_free_symbols (rv :: prior) Hfree i v a) as [partial Hl]
  end.
  cbv zeta. rewrite Hl. reflexivity.
Qed.

Lemma fit_aborts_inconsistent raster_arg prior fo eo custom silent nJobs pathos self s1 s2 :
  prepareRaster raster_arg fo eo custom silent self = inr s1 ->
  determinePrior prior
    (upd_base (fun b => with_formattedData (movingWindow (rawData b) (segmentLength b)) b) s1)
  = inr s2 ->
  checkConsistency (base (initSweep eo s2)) = false ->
  fit raster_arg prior fo eo custom silent nJobs pathos self
  = (Aborted Inconsistent, initSweep eo s2).
Proof.
  intros Hprep Hprior Hc. unfold fit. rewrite Hprep, Hprior. cbv zeta.
  rewrite Hc. reflexivity.
Qed.

(** What the two early phases leave of the averaged posterior sequence,
    and which return they take. *)
Lemma prepareRaster_aborts raster_arg fo eo custom silent self e s1 :
  prepareRaster raster_arg fo eo custom silent self = inl (Aborted e, s1) ->
  s1 = self /\ custom = true
  /\ match e with
     | NoDummyRaster => raster self = []
     | NoRasterValues => rasterValuesIsArray self = false /\ rasterValues self = []
     | NoRasterConstant => rasterConstantIsArray self = false /\ rasterConstant self = []
     | _ => False
     end.
Proof.
  unfold prepareRaster. destruct custom; simpl.
  - destruct (raster self) eqn:Hr; [intros H; inversion H; subst; auto|].
    destruct (equalsEmptyList _ (rasterValues self)) eqn:Hv.
    { intros H; inversion H; subst. apply equalsEmptyList_true in Hv. auto. }
    destruct (equalsEmptyList _ (rasterConstant self)) eqn:Hc.
    { intros H; inversion H; subst. apply equalsEmptyList_true in Hc. auto. }
    discriminate.
  - destruct raster_arg; discriminate.
Qed.

Lemma determinePrior_aborts prior self e s1 :
  determinePrior prior self = inl (Aborted e, s1) ->
  averagePosteriorSequence s1 = averagePosteriorSequence self
  /\ rasterValues s1 = rasterValues self
  /\ match e with
     | PriorLengthMismatch =>
         exists row rows,
           rasterValues self = row :: rows /\ prior <> [] /\ length prior <> length row
     | PriorFreeParameters => Exists (fun rv => free_symbols rv <> []) prior
     | _ => False
     end.
Proof.
  unfold determinePrior. destruct prior as [|rv prior]; [discriminate|].
  destruct (rasterValues self) as [|row0 rows] eqn:Hv; [discriminate|].
  destruct (Nat.eqb_spec (length (rv :: prior)) (length row0)) as [Heq|Hne]; cbn [negb].
  - destruct (priorLoop _ _ _ _) as [partial|p] eqn:Hloop; [|discriminate].
    intros H; inversion H; subst. cbn. rewrite Hv.
    split; [reflexivity|split; [reflexivity|]].
    eapply priorLoop_returns. exact Hloop.
  - intros H; inversion H; subst. rewrite Hv.
    split; [reflexivity|split; [reflexivity|]].
    exists row0, rows. split; [reflexivity|split; [discriminate|exact Hne]].
Qed.

(** C4, as amended.  A call of [fit] that ends at one of the
    configuration-error returns has not invoked [Study.fit], and the total
    log-evidence, the local evidence, the posterior sequence, the
    posterior mean values and the hyper-parameter distribution of the
    instance are the ones from before the call.  The averaged posterior
    sequence is the one from before the call as well, except after a
    failed consistency check of a fit that is not evidence-only: there it
    has been reset to zeros (line 135 runs before the check).  Each of the
    returns is taken for its own reason only: the first three with
    [customRaster=True] and an empty [raster], or a [rasterValues] or
    [rasterConstant] that is the empty list; the next two with priors
    given whose number differs from the number of raster dimensions, or of
    which one has free parameters; the last when [checkConsistency]
    fails. *)
Theorem fit_aborted_leaves_results :
  forall raster_arg prior forwardOnly evidenceOnly customRaster silent nJobs
         pathosAvailable self e,
    fst (fit raster_arg prior forwardOnly evidenceOnly customRaster silent nJobs
           pathosAvailable self) = Aborted e ->
    let self' :=
      snd (fit raster_arg prior forwardOnly evidenceOnly customRaster silent nJobs
             pathosAvailable self) in
    fitCalls (base self') = fitCalls (base self)
    /\ logEvidence (base self') = logEvidence (base self)
    /\ localEvidence (base self') = localEvidence (base self)
    /\ posteriorSequence (base self') = posteriorSequence (base self)
    /\ posteriorMeanValues (base self') = posteriorMeanValues (base self)
    /\ hyperParameterDistribution self' = hyperParameterDistribution self
    /\ match e with
       | NoDummyRaster =>
           self' = self /\ customRaster = true /\ raster self = []
       | NoRasterValues =>
           self' = self /\ customRaster = true
           /\ rasterValuesIsArray self = false /\ rasterValues self = []
       | NoRasterConstant =>
           self' = self /\ customRaster = true
           /\ rasterConstantIsArray self = false /\ rasterConstant self = []
       | PriorLengthMismatch =>
           averagePosteriorSequence self' = averagePosteriorSequence self
           /\ exists row rows,
                rasterValues self' = row :: rows
                /\ prior <> [] /\ length prior <> length row
       | PriorFreeParameters =>
           averagePosteriorSequence self' = averagePosteriorSequence self
           /\ Exists (fun rv => free_symbols rv <> []) prior
       | Inconsistent =>
           checkConsistency (base self') = false
           /\ averagePosteriorSequence self'
              = (if evidenceOnly then averagePosteriorSequence self
                 else Some (Np.zeros2
                              (length (movingWindow (rawData (base self))
                                         (segmentLength (base self))))
                              (Np.nat_prod (gridSize (base self)))))
       end.
Proof.
  intros ra prior fo eo custom silent nJobs pathos self e.
  unfold fit.
  destruct (prepareRaster _ _ _ _ _ _) as [[o s1]|s1] eqn:Hprep.
  - cbn [fst snd]. intros Ho. subst o.
    apply prepareRaster_aborts in Hprep. destruct Hprep as (-> & -> & He).
    repeat (split; [reflexivity|]).
    destruct e; try contradiction; repeat split; tauto.
  - pose proof (prepareRaster_continues _ _ _ _ _ _ _ Hprep) as (Hb & Hd & Ha).
    destruct (determinePrior _ _) as [[o s2]|s2] eqn:Hprior.
    + cbn [fst snd]. intros Ho. subst o.
      pose proof (determinePrior_returns _ _ _ _ Hprior) as (Hb2 & Hd2 & _).
      apply determinePrior_aborts in Hprior. destruct Hprior as (Ha2 & Hv2 & He).
      cbn [base upd_base hyperParameterDistribution averagePosteriorSequence rasterValues]
        in Hb2, Hd2, Ha2, Hv2, He.
      rewrite Hb2, Hd2, Hb, Hd. cbn [fitCalls logEvidence localEvidence posteriorSequence
                                     posteriorMeanValues with_formattedData].
      repeat (split; [reflexivity|]).
      destruct e; try contradiction.
      * split; [rewrite Ha2; exact Ha|].
        destruct He as (row & rows & Hrow & Hne & Hlen).
        exists row, rows. rewrite Hv2. auto.
      * split; [rewrite Ha2; exact Ha|exact He].
    + pose proof (determinePrior_continues _ _ _ Hprior) as (Hb2 & Hd2 & _ & _ & _ & Ha2 & _).
      cbn [base upd_base hyperParameterDistribution averagePosteriorSequence] in Hb2, Hd2, Ha2.
      cbv zeta. destruct (negb (checkConsistency _)) eqn:Hcheck.
      * cbn [fst snd]. intros He. inversion He; subst e.
        apply negb_true_iff in Hcheck.
        assert (Hib : base (initSweep eo s2)
                      = with_selectedHyperParameters (map name (raster (initSweep eo s2)))
                          (base s2)).
        { unfold initSweep. destruct eo; reflexivity. }
        assert (Hid : hyperParameterDistribution (initSweep eo s2)
                      = hyperParameterDistribution s2).
        { unfold initSweep. destruct eo; reflexivity. }
        assert (Hia : averagePosteriorSequence (initSweep eo s2)
                      = if eo then averagePosteriorSequence s2
                        else Some (Np.zeros2 (length (formattedData (base s2)))
                                     (Np.nat_prod (gridSize (base s2))))).
        { unfold initSweep. destruct eo; reflexivity. }
        rewrite Hib, Hid, Hia, Hd2, Hd, Ha2, Ha, Hb2, Hb.
        cbn [fitCalls logEvidence localEvidence posteriorSequence posteriorMeanValues
             with_selectedHyperParameters with_formattedData formattedData gridSize].
        repeat (split; [reflexivity|]).
        split; [|reflexivity].
        rewrite <- Hcheck. f_equal. rewrite Hib, Hb2, Hb. reflexivity.
      * intros He.
        destruct (aggregate_outcome eo
                    (runSweep fo eo silent nJobs pathos (initSweep eo s2))) as [H|H];
          rewrite H in He; discriminate.
Qed.

End ValidationCases.

Module AbortExample.
Import Example.

(** The instance as an earlier completed fit of the raster
    [[["sigma", 0, 1, 2]]] can leave it. *)
Definition fitted : RasterStudy :=
  {| base := {| rawData := [Fin 0]; segmentLength := 1%nat; formattedData := [[Fin 0]];
                gridSize := [2%nat]; grid := [[Fin 0; Fin 1]];
                selectedHyperParameters := []; hyperParameterValues := [Fin 1];
                logEvidence := Fin 1; localEvidence := [Fin 1];
                posteriorSequence := [[Fin (1 / 4); Fin (3 / 4)]];
                posteriorMeanValues := [[Fin (3 / 4)]]; fitCalls := [] |};
     raster := [sigma 0 1 2]; rasterValues := [[Fin 0]; [Fin 1]];
     rasterValuesIsArray := true;
     rasterConstant := [Fin 1]; rasterConstantIsArray := false;
     hyperParameterPrior := None;
     hyperParameterDistribution := Some [Fin (1 / 4); Fin (3 / 4)];
     averagePosteriorSequence := Some [[Fin (1 / 4); Fin (3 / 4)]];
     logEvidenceList := []; localEvidenceList := [] |}.

(** A prior distribution without free parameters. *)
Definition uniform01 : RandomVariable :=
  {| free_symbols := []; pdf := fun _ => Fin 1 |}.

(** A base class whose consistency check fails. *)
Definition base_inconsistent : StudyBase :=
  {| movingWindow := fun data _ => map (fun x => [x]) data;
     checkConsistency := fun _ => false;
     filtering := filtering0 |}.

End AbortExample.

(** The instance of C4 for a fit, on an instance that holds the results
    of an earlier fit, with two priors for a raster of one dimension. *)
Lemma fit_aborted_leaves_results_witness :
  let result :=
    fit (SB := Example.base0) [Example.sigma 0 1 2]
      [AbortExample.uniform01; AbortExample.uniform01] false false false false 1%Z
      false AbortExample.fitted in
  fst result = Aborted PriorLengthMismatch
  /\ fitCalls (base (snd result)) = []
  /\ logEvidence (base (snd result)) = Fin 1
  /\ posteriorSequence (base (snd result)) = [[Fin (1 / 4); Fin (3 / 4)]]
  /\ hyperParameterDistribution (snd result) = Some [Fin (1 / 4); Fin (3 / 4)]
  /\ averagePosteriorSequence (snd result) = Some [[Fin (1 / 4); Fin (3 / 4)]].
Proof.
  cbv zeta. split; [reflexivity|].
  pose proof (fit_aborted_leaves_results (SB := Example.base0)
                [Example.sigma 0 1 2] [AbortExample.uniform01; AbortExample.uniform01]
                false false false false 1%Z false AbortExample.fitted PriorLengthMismatch
                eq_refl) as H.
  cbv zeta in H. destruct H as (H1 & H2 & _ & H4 & _ & H6 & H7 & _).
  split; [exact H1|]. split; [exact H2|]. split; [exact H4|]. split; [exact H6|exact H7].
Defined.

(** C4 as stated fails: on an instance that holds the results of an
    earlier fit, a fit that is not evidence-only and fails the consistency
    check returns with the averaged posterior sequence reset to zeros. *)
Lemma fit_inconsistent_counterexample :
  let result :=
    fit (SB := AbortExample.base_inconsistent) [Example.sigma 0 1 2] [] false false false
      false 1%Z false AbortExample.fitted in
  fst result = Aborted Inconsistent
  /\ averagePosteriorSequence AbortExample.fitted = Some [[Fin (1 / 4); Fin (3 / 4)]]
  /\ averagePosteriorSequence (snd result) = Some [[Fin 0; Fin 0]].
Proof.
  cbv zeta. split; [reflexivity|]. split; [reflexivity|]. reflexivity.
Qed.

(** ** Arithmetic of [npfloat] *)

(** Sums and products of real numbers, for statements about finite values. *)
Definition Rsum (l : list R) : R := fold_right Rplus 0 l.
Definition Rprod (l : list R) : R := fold_right Rmult 1 l.

Section NpFloatFacts.

Lemma signed_inf_pos x : 0 < x -> signed_inf x = PInf.
Proof.
  intros H. unfold signed_inf.
  destruct (total_order_T x 0) as [[H1|H1]|H1]; try reflexivity; exfalso; lra.
Qed.

Lemma signed_inf_neg x : x < 0 -> signed_inf x = NInf.
Proof.
  intros H. unfold signed_inf.
  destruct (total_order_T x 0) as [[H1|H1]|H1]; try reflexivity; exfalso; lra.
Qed.

Lemma signed_inf_zero : signed_inf 0 = NaN.
Proof.
  unfold signed_inf.
  destruct (total_order_T 0 0) as [[H1|H1]|H1]; try reflexivity; exfalso; lra.
Qed.

Lemma signed_inf_not_finite x : is_finite (signed_inf x) = false.
Proof.
  unfold signed_inf. destruct (total_order_T x 0) as [[H1|H1]|H1]; reflexivity.
Qed.

Lemma npdiv_fin x y : y <> 0 -> npdiv (Fin x) (Fin y) = Fin (x / y).
Proof.
  intros H. simpl. destruct (Req_EM_T y 0); [contradiction|reflexivity].
Qed.

Lemma npdiv_fin_zero x : npdiv (Fin x) (Fin 0) = signed_inf x.
Proof.
  simpl. destruct (Req_EM_T 0 0); [reflexivity|exfalso; lra].
Qed.

Lemma npdiv_zero_not_finite a z : z = 0 -> is_finite (npdiv a (Fin z)) = false.
Proof.
  intros ->. destruct a; simpl; try reflexivity.
  - destruct (Req_EM_T 0 0); [apply signed_inf_not_finite|exfalso; lra].
  - destruct (Rlt_dec 0 0); reflexivity.
  - destruct (Rlt_dec 0 0); reflexivity.
Qed.

Lemma nplog_pos x : 0 < x -> nplog (Fin x) = Fin (ln x).
Proof.
  intros H. simpl.
  destruct (total_order_T x 0) as [[H1|H1]|H1]; try reflexivity; exfalso; lra.
Qed.

Lemma nplog_zero : nplog (Fin 0) = NInf.
Proof.
  simpl. destruct (total_order_T 0 0) as [[H1|H1]|H1]; try reflexivity; exfalso; lra.
Qed.

Lemma npadd_comm a b : npadd a b = npadd b a.
Proof. destruct a, b; simpl; try reflexivity. f_equal; lra. Qed.

Lemma npadd_assoc a b c : npadd a (npadd b c) = npadd (npadd a b) c.
Proof. destruct a, b, c; simpl; try reflexivity. f_equal; lra. Qed.

Lemma npadd_0_l a : npadd (Fin 0) a = a.
Proof. destruct a; simpl; try reflexivity. f_equal; lra. Qed.

Lemma npadd_0_r a : npadd a (Fin 0) = a.
Proof. rewrite npadd_comm. apply npadd_0_l. Qed.

Lemma npmul_1_r a : npmul a (Fin 1) = a.
Proof.
  destruct a; simpl.
  - f_equal; lra.
  - apply signed_inf_pos; lra.
  - apply signed_inf_neg; lra.
  - reflexivity.
Qed.

Lemma sum_cons a l : Np.sum (a :: l) = npadd a (Np.sum l).
Proof. reflexivity. Qed.

Lemma prod_cons a l : Np.prod (a :: l) = npmul a (Np.prod l).
Proof. reflexivity. Qed.

Lemma sum_fin l : Np.sum (map Fin l) = Fin (Rsum l).
Proof.
  induction l as [|x l IH]; [reflexivity|].
  cbn [map]. rewrite sum_cons, IH. reflexivity.
Qed.

Lemma prod_fin l : Np.prod (map Fin l) = Fin (Rprod l).
Proof.
  induction l as [|x l IH]; [reflexivity|].
  cbn [map]. rewrite prod_cons, IH. reflexivity.
Qed.

Lemma sum_app u v : Np.sum (u ++ v) = npadd (Np.sum u) (Np.sum v).
Proof.
  induction u as [|a u IH].
  - symmetry; apply npadd_0_l.
  - cbn [app]. rewrite !sum_cons, IH. apply npadd_assoc.
Qed.

Lemma Rsum_app u v : Rsum (u ++ v) = Rsum u + Rsum v.
Proof. induction u as [|a u IH]; simpl; [lra|rewrite IH; lra]. Qed.

Lemma Rsum_concat ls : Rsum (concat ls) = Rsum (map Rsum ls).
Proof.
  induction ls as [|l ls IH]; [reflexivity|].
  cbn [concat map]. rewrite Rsum_app, IH. reflexivity.
Qed.

Lemma Rsum_scale c l : Rsum (map (fun x => x * c) l) = Rsum l * c.
Proof. induction l as [|a l IH]; simpl; [lra|rewrite IH; lra]. Qed.

Lemma Rsum_repeat x n : Rsum (repeat x n) = INR n * x.
Proof.
  induction n as [|n IH]; [simpl; lra|].
  rewrite S_INR. simpl. rewrite IH. lra.
Qed.

Lemma scale_fin c l : Np.scale (Fin c) (map Fin l) = map Fin (map (fun x => x * c) l).
Proof. unfold Np.scale. rewrite !map_map. reflexivity. Qed.

Lemma divide_fin c l :
  c <> 0 -> Np.divide (map Fin l) (Fin c) = map Fin (map (fun x => x / c) l).
Proof.
  intros H. unfold Np.divide. rewrite !map_map.
  apply map_ext. intros x. apply npdiv_fin; assumption.
Qed.

End NpFloatFacts.

(** ** The range of [np.exp] *)

(** The exponential of [x] is a [float64] in the normal way: it neither
    overflows nor underflows. *)
Definition exp_in_range (x : R) : Prop := float64_tiny <= exp x <= float64_max.

(** The value of [np.exp] at [x] where it does not overflow: results below
    the range are flushed to 0. *)
Definition exp_flush (x : R) : R :=
  if Rlt_dec (exp x) float64_tiny then 0 else exp x.

Section Float64Range.

Lemma exp_nat_mult (n : nat) (x : R) : exp (INR n * x) = exp x ^ n.
Proof.
  induction n as [|n IH].
  - simpl. rewrite Rmult_0_l. apply exp_0.
  - rewrite S_INR, Rmult_plus_distr_r, Rmult_1_l, exp_plus, IH. simpl. ring.
Qed.

Lemma exp_1_ge_2 : 2 <= exp 1.
Proof. pose proof (exp_ineq1 1 ltac:(lra)). lra. Qed.

Lemma exp_monotone x y : x <= y -> exp x <= exp y.
Proof.
  intros H. destruct (Req_dec x y) as [->|Hne]; [lra|].
  left. apply exp_increasing. lra.
Qed.

Lemma float64_tiny_pos : 0 < float64_tiny.
Proof. unfold float64_tiny. apply Rinv_0_lt_compat. apply IZR_lt. reflexivity. Qed.

Lemma float64_tiny_inv : float64_tiny = / 2 ^ 1075.
Proof. unfold float64_tiny. rewrite pow_IZR. reflexivity. Qed.

Lemma pow2_le_float64_max (n : nat) : (n <= 1020)%nat -> 2 ^ n <= float64_max.
Proof.
  intros Hn. apply Rle_trans with (2 ^ 1020).
  - apply Rle_pow; [lra|exact Hn].
  - unfold float64_max. rewrite pow_IZR. apply IZR_le. vm_compute. discriminate.
Qed.

Lemma float64_max_lt_pow2 : float64_max < 2 ^ 1024.
Proof. unfold float64_max. rewrite pow_IZR. apply IZR_lt. vm_compute. reflexivity. Qed.

Lemma float64_tiny_le_1 : float64_tiny <= 1.
Proof.
  rewrite float64_tiny_inv.
  assert (H : 1 <= 2 ^ 1075) by (apply pow_R1_Rle; lra).
  apply Rmult_le_reg_l with (2 ^ 1075); [lra|].
  rewrite Rinv_r by lra. lra.
Qed.

Lemma float64_max_ge_1 : 1 <= float64_max.
Proof. apply Rle_trans with (2 ^ 0); [simpl; lra|]. apply pow2_le_float64_max. lia. Qed.

Lemma exp_le_pow2_1000 x : x <= 500 -> exp x <= 2 ^ 1000.
Proof.
  intros Hx. apply Rle_trans with (exp 500); [apply exp_monotone; exact Hx|].
  replace 500 with (INR 500 * 1) by (rewrite INR_IZR_INZ; simpl; lra).
  rewrite exp_nat_mult.
  apply Rle_trans with (4 ^ 500).
  - apply pow_incr. pose proof (exp_pos 1). pose proof exp_le_3. lra.
  - replace 4 with (2 ^ 2) by lra. rewrite <- pow_mult. simpl Nat.mul. lra.
Qed.

(** Arguments between -500 and 500 are far inside the range. *)
Lemma exp_in_range_500 x : -500 <= x <= 500 -> exp_in_range x.
Proof.
  intros [Hlo Hhi].
  pose proof exp_le_pow2_1000 as Hup.
  split.
  - rewrite float64_tiny_inv.
    replace x with (- - x) by lra. rewrite exp_Ropp.
    pose proof (Hup (- x) ltac:(lra)) as H.
    pose proof (exp_pos (- x)) as Hp.
    apply Rinv_le_contravar; [exact Hp|].
    apply Rle_trans with (2 ^ 1000); [exact H|].
    apply Rle_pow; [lra|lia].
  - apply Rle_trans with (2 ^ 1000); [apply Hup; exact Hhi|].
    apply pow2_le_float64_max. lia.
Qed.


(** From 1024 on the exponential is beyond the largest [float64]. *)
Lemma exp_overflows x : 1024 <= x -> float64_max < exp x.
Proof.
  intros Hx. apply Rlt_le_trans with (2 ^ 1024); [apply float64_max_lt_pow2|].
  apply Rle_trans with (exp 1024); [|apply exp_monotone; exact Hx].
  replace 1024 with (INR 1024 * 1) by (rewrite INR_IZR_INZ; simpl; lra).
  rewrite exp_nat_mult. apply pow_incr. pose proof exp_1_ge_2. lra.
Qed.


Lemma exp64_in_range x : exp_in_range x -> exp64 x = Fin (exp x).
Proof.
  intros [Hlo Hhi]. unfold exp64.
  destruct (Rlt_dec float64_max (exp x)) as [H|_]; [exfalso; lra|].
  destruct (Rlt_dec (exp x) float64_tiny) as [H|_]; [exfalso; lra|reflexivity].
Qed.

Lemma exp64_no_overflow x : exp x <= float64_max -> exp64 x = Fin (exp_flush x).
Proof.
  intros Hhi. unfold exp64, exp_flush.
  destruct (Rlt_dec float64_max (exp x)) as [H|_]; [exfalso; lra|].
  destruct (Rlt_dec (exp x) float64_tiny); reflexivity.
Qed.

Lemma exp64_overflow x : float64_max < exp x -> exp64 x = PInf.
Proof.
  intros H. unfold exp64. destruct (Rlt_dec float64_max (exp x)); [reflexivity|contradiction].
Qed.



Lemma exp_flush_bounds x : 0 <= exp_flush x <= exp x.
Proof.
  unfold exp_flush. pose proof (exp_pos x).
  destruct (Rlt_dec (exp x) float64_tiny); lra.
Qed.

(** At a non-negative argument nothing is flushed. *)
Lemma exp_flush_nonneg_arg x : 0 <= x -> exp_flush x = exp x /\ 1 <= exp x.
Proof.
  intros Hx. pose proof (exp_monotone 0 x Hx) as H. rewrite exp_0 in H.
  pose proof float64_tiny_le_1.
  unfold exp_flush. destruct (Rlt_dec (exp x) float64_tiny); [exfalso; lra|].
  split; [reflexivity|exact H].
Qed.

(** At a non-positive argument nothing overflows. *)
Lemma exp64_nonpos x : x <= 0 -> exp64 x = Fin (exp_flush x) /\ exp_flush x <= 1.
Proof.
  intros Hx. pose proof (exp_monotone x 0 Hx) as H. rewrite exp_0 in H.
  pose proof float64_max_ge_1. pose proof (exp_flush_bounds x).
  split; [apply exp64_no_overflow|]; lra.
Qed.

Lemma map_exp64_no_overflow l :
  Forall (fun x => exp x <= float64_max) l -> map exp64 l = map Fin (map exp_flush l).
Proof.
  induction 1 as [|x l Hx _ IH]; [reflexivity|].
  cbn [map]. rewrite IH, exp64_no_overflow by exact Hx. reflexivity.
Qed.

(** Where the sum of the exponentials is in range, each of them is. *)
Lemma sum_exp_nonneg l : 0 <= Rsum (map exp l).
Proof.
  induction l as [|x l IH]; [simpl; lra|].
  cbn [map Rsum fold_right]. pose proof (exp_pos x). unfold Rsum in IH. lra.
Qed.

Lemma sum_no_overflow l :
  Rsum (map exp l) <= float64_max -> Forall (fun x => exp x <= float64_max) l.
Proof.
  induction l as [|x l IH]; intros H; constructor.
  - cbn [map Rsum fold_right] in H.
    pose proof (sum_exp_nonneg l).
    unfold Rsum in *. lra.
  - apply IH. cbn [map Rsum fold_right] in H. pose proof (exp_pos x).
    unfold Rsum in *. lra.
Qed.

(** Up to a thousand exponentials of arguments up to 500 sum up within the
    range. *)
Lemma sum_exp_in_range l :
  (length l <= 1000)%nat -> Forall (fun x => x <= 500) l ->
  Rsum (map exp l) <= float64_max.
Proof.
  intros Hlen Hall.
  assert (H : Rsum (map exp l) <= INR (length l) * 2 ^ 1000).
  { clear Hlen. induction Hall as [|x l Hx _ IH]; [simpl; lra|].
    cbn [map Rsum fold_right length]. rewrite S_INR.
    pose proof (exp_le_pow2_1000 x Hx). unfold Rsum in IH. lra. }
  apply Rle_trans with (2 ^ 10 * 2 ^ 1000).
  - apply Rle_trans with (INR (length l) * 2 ^ 1000); [exact H|].
    apply Rmult_le_compat_r; [apply pow_le; lra|].
    apply Rle_trans with (INR 1000); [apply le_INR; exact Hlen|].
    rewrite INR_IZR_INZ. simpl. lra.
  - rewrite <- pow_add. apply pow2_le_float64_max. simpl. lia.
Qed.

Lemma map_exp64_in_range l :
  Forall exp_in_range l -> map exp64 l = map Fin (map exp l).
Proof.
  induction 1 as [|x l Hx _ IH]; [reflexivity|].
  cbn [map]. rewrite IH, exp64_in_range by exact Hx. reflexivity.
Qed.

End Float64Range.

(** ** A single-value raster dimension (C10) *)

Section Spacing.

Context `{SB : StudyBase}.

(** The spacing constant line 87 computes for one raster entry. *)
Lemma spacing_single_step r :
  steps r = 1%nat ->
  is_finite (npdiv (npabs (npsub (upper r) (lower r))) (npsub (of_nat (steps r)) (Fin 1)))
  = false.
Proof.
  intros ->. unfold of_nat. simpl npsub at 2.
  apply npdiv_zero_not_finite. simpl. lra.
Qed.

(** C10.  For a regular raster with an entry whose step count is 1, the
    spacing constant [|upper - lower| / (steps - 1)] that [fit] stores for
    this entry is the result of a division by zero and is not finite:
    [inf] when the bounds differ, [nan] when they are equal. *)
Theorem fit_single_step_spacing_not_finite :
  forall raster_arg prior forwardOnly evidenceOnly silent nJobs pathosAvailable self d r,
    nth_error raster_arg d = Some r ->
    steps r = 1%nat ->
    let self' :=
      snd (fit raster_arg prior forwardOnly evidenceOnly false silent nJobs
             pathosAvailable self) in
    exists c,
      nth_error (rasterConstant self') d = Some c
      /\ c = npdiv (npabs (npsub (upper r) (lower r))) (Fin 0)
      /\ is_finite c = false
      /\ (forall lo up, lower r = Fin lo -> upper r = Fin up -> lo <> up -> c = PInf)
      /\ (forall lo, lower r = Fin lo -> upper r = Fin lo -> c = NaN).
Proof.
  intros ra prior fo eo silent nJobs pathos self d r Hd Hsteps self'.
  assert (Hprep : exists s1,
             prepareRaster ra fo eo false silent self = inr s1
             /\ rasterConstant s1
                = map (fun r => npdiv (npabs (npsub (upper r) (lower r)))
                                      (npsub (of_nat (steps r)) (Fin 1))) ra).
  { unfold prepareRaster. simpl. destruct ra as [|r0 ra].
    - destruct d; discriminate.
    - eexists; split; reflexivity. }
  destruct Hprep as (s1 & Hprep & Hc).
  destruct (fit_keeps_grid ra prior fo eo false silent nJobs pathos self s1 Hprep)
    as (_ & _ & Hk).
  subst self'. rewrite Hk, Hc.
  exists (npdiv (npabs (npsub (upper r) (lower r))) (Fin 0)).
  assert (Hz : npsub (of_nat (steps r)) (Fin 1) = Fin 0).
  { rewrite Hsteps. unfold of_nat. simpl. f_equal. lra. }
  split; [|split; [reflexivity|split; [|split]]].
  - rewrite nth_error_map, Hd. cbn [option_map]. rewrite Hz. reflexivity.
  - apply npdiv_zero_not_finite. reflexivity.
  - intros lo up Hlo Hup Hne. rewrite Hlo, Hup. simpl npabs.
    rewrite npdiv_fin_zero. apply signed_inf_pos.
    apply Rabs_pos_lt. lra.
  - intros lo Hlo Hup. rewrite Hlo, Hup. simpl npabs.
    rewrite npdiv_fin_zero.
    replace (Rabs (lo + - lo)) with 0; [apply signed_inf_zero|].
    replace (lo + - lo) with 0 by lra. symmetry; apply Rabs_R0.
Qed.

End Spacing.

(** The instance of C10 for the raster [[["sigma", 0, 1, 1]]]. *)
Lemma fit_single_step_spacing_not_finite_witness :
  exists c,
    nth_error (rasterConstant
                 (snd (fit (SB := Example.base0) [Example.sigma 0 1 1] [] false false false
                         false 1%Z false Example.study0))) 0 = Some c
    /\ c = PInf.
Proof.
  destruct (fit_single_step_spacing_not_finite (SB := Example.base0)
              [Example.sigma 0 1 1] [] false false false 1%Z false Example.study0
              0%nat (Example.sigma 0 1 1) eq_refl eq_refl) as (c & Hc & _ & _ & Hinf & _).
  exists c. split; [exact Hc|].
  apply (Hinf 0 1); [reflexivity|reflexivity|lra].
Defined.

(** ** The grid of a regular raster (C6) *)

(** The grid as the specification words it: the Cartesian product of the
    axes, the first axis varying slowest and the last fastest. *)
Fixpoint cartesian {A : Type} (xs : list (list A)) : list (list A) :=
  match xs with
  | [] => [[]]
  | x :: rest => flat_map (fun a => map (cons a) (cartesian rest)) x
  end.

(** The multi-index of the k-th entry of a C-ordered array of the given
    shape ([np.unravel_index]): the last index runs fastest. *)
Fixpoint unravel_index (shape : list nat) (k : nat) : list nat :=
  match shape with
  | [] => []
  | _ :: rest => (k / Np.nat_prod rest)%nat :: unravel_index rest (k mod Np.nat_prod rest)
  end.

Section Grid.

Context {A : Type}.

Lemma zipWith_app {B C : Type} (f : A -> B -> C) u1 u2 v1 v2 :
  length u1 = length v1 ->
  Np.zipWith f (u1 ++ u2) (v1 ++ v2) = Np.zipWith f u1 v1 ++ Np.zipWith f u2 v2.
Proof.
  revert v1. induction u1 as [|a u1 IH]; intros [|b v1] H; try discriminate.
  - reflexivity.
  - simpl. f_equal. apply IH. simpl in H. lia.
Qed.

Lemma zipWith_length {B C : Type} (f : A -> B -> C) u v :
  length u = length v -> length (Np.zipWith f u v) = length u.
Proof.
  revert v. induction u as [|a u IH]; intros [|b v] H; try discriminate.
  - reflexivity.
  - simpl. f_equal. apply IH. simpl in H. lia.
Qed.

Lemma zipWith_repeat_cons (a : A) (rows : list (list A)) :
  Np.zipWith cons (repeat a (length rows)) rows = map (cons a) rows.
Proof. induction rows as [|r rows IH]; simpl; [reflexivity|f_equal; exact IH]. Qed.

Lemma repeat_each_length m (x : list A) :
  length (Np.repeat_each m x) = (length x * m)%nat.
Proof.
  unfold Np.repeat_each. induction x as [|a x IH]; simpl; [reflexivity|].
  rewrite length_app, repeat_length, IH. reflexivity.
Qed.

Lemma tile_length n (l : list A) : length (Np.tile n l) = (n * length l)%nat.
Proof.
  unfold Np.tile. induction n as [|n IH]; simpl; [reflexivity|].
  rewrite length_app, IH. reflexivity.
Qed.

Lemma cartesian_length (xs : list (list A)) :
  length (cartesian xs) = Np.nat_prod (map (@length A) xs).
Proof.
  induction xs as [|x rest IH]; simpl; [reflexivity|].
  rewrite <- IH. generalize (cartesian rest) as C. intros C.
  induction x as [|a x IHx]; simpl; [reflexivity|].
  rewrite length_app, length_map, IHx. reflexivity.
Qed.

Lemma meshgrid_columns (xs : list (list A)) :
  Forall (fun c => length c = Np.nat_prod (map (@length A) xs)) (Np.meshgrid_ij_ravel xs).
Proof.
  induction xs as [|x rest IH]; simpl; constructor.
  - apply repeat_each_length.
  - rewrite Forall_map. eapply Forall_impl; [|exact IH].
    intros c Hc. simpl. rewrite tile_length, Hc. reflexivity.
Qed.

Lemma transpose_length (cols : list (list A)) n :
  cols <> [] -> Forall (fun c => length c = n) cols -> length (Np.transpose cols) = n.
Proof.
  induction cols as [|c cs IH]; intros Hne Hall; [congruence|].
  inversion Hall as [|? ? Hc Hcs]; subst.
  destruct cs as [|c' cs'].
  - simpl. apply length_map.
  - change (Np.transpose (c :: c' :: cs'))
      with (Np.zipWith cons c (Np.transpose (c' :: cs'))).
    rewrite zipWith_length; [reflexivity|].
    rewrite IH; [reflexivity|discriminate|assumption].
Qed.

Lemma zipWith_tile {B C : Type} (f : A -> B -> C) n u v :
  length u = length v ->
  Np.zipWith f (Np.tile n u) (Np.tile n v) = Np.tile n (Np.zipWith f u v).
Proof.
  intros Hlen. unfold Np.tile. induction n as [|n IHn]; simpl; [reflexivity|].
  rewrite zipWith_app by exact Hlen. f_equal. exact IHn.
Qed.

Lemma transpose_tile n (cols : list (list A)) m :
  cols <> [] -> Forall (fun c => length c = m) cols ->
  Np.transpose (map (Np.tile n) cols) = Np.tile n (Np.transpose cols).
Proof.
  induction cols as [|c cs IH]; intros Hne Hall; [congruence|].
  inversion Hall as [|? ? Hc Hcs]; subst.
  destruct cs as [|c' cs'].
  - simpl. unfold Np.tile. rewrite concat_map, map_repeat. reflexivity.
  - change (Np.transpose (map (Np.tile n) (c :: c' :: cs')))
      with (Np.zipWith cons (Np.tile n c)
              (Np.transpose (map (Np.tile n) (c' :: cs')))).
    rewrite IH; [|discriminate|assumption].
    change (Np.transpose (c :: c' :: cs'))
      with (Np.zipWith cons c (Np.transpose (c' :: cs'))).
    apply zipWith_tile.
    symmetry. apply transpose_length; [discriminate|assumption].
Qed.

Lemma zipWith_repeat_each_tile (x : list A) (rows : list (list A)) :
  Np.zipWith cons (Np.repeat_each (length rows) x) (Np.tile (length x) rows)
  = flat_map (fun a => map (cons a) rows) x.
Proof.
  unfold Np.repeat_each, Np.tile. induction x as [|a x IH]; simpl; [reflexivity|].
  rewrite zipWith_app by apply repeat_length.
  rewrite zipWith_repeat_cons. f_equal. exact IH.
Qed.

(** The raveled ij mesh, transposed, is the Cartesian product in
    lexicographic order. *)
Lemma transpose_meshgrid (xs : list (list A)) :
  xs <> [] -> Np.transpose (Np.meshgrid_ij_ravel xs) = cartesian xs.
Proof.
  induction xs as [|x rest IH]; intros Hne; [congruence|].
  destruct rest as [|y rest'].
  - simpl. unfold Np.repeat_each.
    clear. induction x as [|a x IHx]; simpl; [reflexivity|f_equal; exact IHx].
  - assert (Hrest : y :: rest' <> []) by discriminate.
    specialize (IH Hrest).
    change (Np.meshgrid_ij_ravel (x :: y :: rest'))
      with (Np.repeat_each (Np.nat_prod (map (@length A) (y :: rest'))) x
              :: map (Np.tile (length x)) (Np.meshgrid_ij_ravel (y :: rest'))).
    assert (Hcols := meshgrid_columns (y :: rest')).
    assert (Hmesh : Np.meshgrid_ij_ravel (y :: rest') <> []) by (simpl; discriminate).
    remember (Np.meshgrid_ij_ravel (y :: rest')) as cols eqn:Hcolsdef.
    destruct cols as [|c0 cols']; [congruence|].
    change (Np.transpose (?c :: map ?f (c0 :: cols')))
      with (Np.zipWith cons c (Np.transpose (map f (c0 :: cols')))).
    rewrite (transpose_tile _ _ _ Hmesh Hcols), IH.
    rewrite <- cartesian_length.
    change (cartesian (x :: y :: rest'))
      with (flat_map (fun a => map (cons a) (cartesian (y :: rest'))) x).
    apply zipWith_repeat_each_tile.
Qed.

End Grid.

Section GridIndex.

Context {A : Type}.

Lemma nth_flat_map_cons (dflt : A) (C : list (list A)) (x : list A) k :
  (k < length x * length C)%nat ->
  nth k (flat_map (fun a => map (cons a) C) x) []
  = nth (k / length C) x dflt :: nth (k mod length C) C [].
Proof.
  revert k. induction x as [|a x IH]; intros k Hk; [simpl in Hk; lia|].
  assert (HM : length C <> 0%nat) by (intros H0; rewrite H0 in Hk; lia).
  cbn [flat_map]. destruct (Nat.lt_ge_cases k (length C)) as [Hlt|Hge].
  - rewrite app_nth1 by (rewrite length_map; exact Hlt).
    rewrite (nth_indep _ [] (a :: []))  by (rewrite length_map; exact Hlt).
    rewrite (map_nth (cons a)).
    rewrite Nat.div_small, Nat.mod_small by exact Hlt. reflexivity.
  - rewrite app_nth2 by (rewrite length_map; exact Hge).
    rewrite length_map.
    rewrite IH by (simpl in Hk; lia).
    replace k with ((k - length C) + 1 * length C)%nat at 3 4 by lia.
    rewrite Nat.div_add by exact HM.
    rewrite Nat.Div0.mod_add.
    replace ((k - length C) / length C + 1)%nat
      with (S ((k - length C) / length C)) by lia.
    reflexivity.
Qed.

(** The k-th point of the product is read off the axes at the multi-index
    of [k]. *)
Lemma cartesian_nth (dflt : A) (xs : list (list A)) k :
  (k < length (cartesian xs))%nat ->
  nth k (cartesian xs) []
  = Np.zipWith (fun i x => nth i x dflt) (unravel_index (map (@length A) xs) k) xs.
Proof.
  revert k. induction xs as [|x rest IH]; intros k Hk.
  - simpl in *. destruct k; [reflexivity|lia].
  - cbn [cartesian map unravel_index Np.zipWith].
    rewrite <- cartesian_length.
    assert (Hk' : (k < length x * length (cartesian rest))%nat).
    { rewrite cartesian_length in Hk. simpl in Hk. rewrite cartesian_length. exact Hk. }
    rewrite (nth_flat_map_cons dflt) by exact Hk'.
    f_equal. apply IH.
    apply Nat.mod_upper_bound. intros H0. rewrite H0 in Hk'. lia.
Qed.

End GridIndex.

Section Linspace.

Lemma linspace_length start stop num : length (Np.linspace start stop num) = num.
Proof.
  destruct num as [|[|n]]; [reflexivity|reflexivity|].
  unfold Np.linspace. rewrite length_app, length_map, length_seq. simpl. lia.
Qed.

(** Between finite bounds the values are evenly spaced, from [lo] to [up]. *)
Lemma linspace_nth lo up num i :
  (2 <= num)%nat -> (i < num)%nat ->
  nth i (Np.linspace (Fin lo) (Fin up) num) NaN
  = Fin (lo + INR i * ((up - lo) / (INR num - 1))).
Proof.
  intros Hnum Hi. destruct num as [|[|n]]; [lia|lia|].
  unfold Np.linspace.
  assert (Hn : INR (S n) <> 0) by (apply not_0_INR; lia).
  assert (Hn' : INR (S (S n)) - 1 = INR (S n)) by (rewrite (S_INR (S n)); lra).
  rewrite Hn'.
  destruct (Nat.eq_dec i (S n)) as [->|Hne].
  - rewrite app_nth2 by (rewrite length_map, length_seq; lia).
    rewrite length_map, length_seq, Nat.sub_diag. simpl nth.
    f_equal. field. exact Hn.
  - rewrite app_nth1 by (rewrite length_map, length_seq; lia).
    rewrite (nth_indep _ NaN
               ((fun i => npadd (npmul (of_nat i)
                                   (npdiv (npsub (Fin up) (Fin lo)) (of_nat (S n))))
                                (Fin lo)) 0%nat))
      by (rewrite length_map, length_seq; lia).
    rewrite (map_nth (fun i => npadd (npmul (of_nat i)
                                   (npdiv (npsub (Fin up) (Fin lo)) (of_nat (S n))))
                                (Fin lo))).
    rewrite seq_nth by lia. cbn [Nat.add].
    unfold of_nat. cbn [npsub npopp npadd].
    rewrite npdiv_fin by exact Hn. cbn [npmul npadd].
    f_equal. unfold Rminus. lra.
Qed.

Lemma linspace_single start stop : Np.linspace start stop 1 = [start].
Proof. reflexivity. Qed.

End Linspace.

Section GridOfFit.

Context `{SB : StudyBase}.

(** The axes of a raster: one [np.linspace] per entry. *)
Definition axes (raster_arg : list RasterSpec) : list (list npfloat) :=
  map (fun r => Np.linspace (lower r) (upper r) (steps r)) raster_arg.

Lemma axes_lengths raster_arg :
  map (@length npfloat) (axes raster_arg) = map steps raster_arg.
Proof.
  unfold axes. rewrite map_map. apply map_ext. intros r. apply linspace_length.
Qed.

(** C6.  For a regular raster, [fit] builds the grid of all combinations
    of the evenly spaced values of its entries: the number of points is the
    product of the step counts, the points are in ij order (the first
    entry varies slowest, the last fastest), and the d-th coordinate of a
    point is taken from [np.linspace] between the bounds of entry d. *)
Theorem fit_builds_regular_grid :
  forall raster_arg prior forwardOnly evidenceOnly silent nJobs pathosAvailable self,
    raster_arg <> [] ->
    let self' :=
      snd (fit raster_arg prior forwardOnly evidenceOnly false silent nJobs
             pathosAvailable self) in
    rasterValues self' = cartesian (axes raster_arg)
    /\ length (rasterValues self') = Np.nat_prod (map steps raster_arg)
    /\ (forall k, (k < Np.nat_prod (map steps raster_arg))%nat ->
          nth k (rasterValues self') []
          = Np.zipWith (fun i x => nth i x NaN)
              (unravel_index (map steps raster_arg) k) (axes raster_arg))
    /\ (forall r lo up i, In r raster_arg -> lower r = Fin lo -> upper r = Fin up ->
          (2 <= steps r)%nat -> (i < steps r)%nat ->
          nth i (Np.linspace (lower r) (upper r) (steps r)) NaN
          = Fin (lo + INR i * ((up - lo) / (INR (steps r) - 1)))).
Proof.
  intros ra prior fo eo silent nJobs pathos self Hne self'.
  assert (Hprep : exists s1,
             prepareRaster ra fo eo false silent self = inr s1
             /\ rasterValues s1 = Np.transpose (Np.meshgrid_ij_ravel (axes ra))).
  { unfold prepareRaster. simpl. destruct ra as [|r0 ra]; [congruence|].
    eexists; split; reflexivity. }
  destruct Hprep as (s1 & Hprep & Hv).
  destruct (fit_keeps_grid ra prior fo eo false silent nJobs pathos self s1 Hprep)
    as (_ & Hk & _).
  assert (Haxes : axes ra <> []).
  { unfold axes. destruct ra; [congruence|discriminate]. }
  assert (Hgrid : rasterValues self' = cartesian (axes ra)).
  { subst self'. rewrite Hk, Hv. apply transpose_meshgrid. exact Haxes. }
  assert (Hlen : length (rasterValues self') = Np.nat_prod (map steps ra)).
  { rewrite Hgrid, cartesian_length, axes_lengths. reflexivity. }
  split; [exact Hgrid|split; [exact Hlen|split]].
  - intros k Hk'. rewrite Hgrid. rewrite <- axes_lengths.
    apply cartesian_nth. rewrite <- Hgrid, Hlen. exact Hk'.
  - intros r lo up i _ Hlo Hup Hs Hi. rewrite Hlo, Hup.
    apply linspace_nth; assumption.
Qed.

End GridOfFit.

(** ** The hyper-parameter prior (C7) *)

(** The product of the density values at one raster point, as the
    specification words it: the density of prior [i] evaluated at
    coordinate [i] of the point, multiplied up over the priors. *)
Definition pointDensityFrom (i : nat) (prior : list RandomVariable) (row : list npfloat)
  (start : npfloat) : npfloat :=
  fold_left (fun acc irv => npmul acc (pdf (snd irv) (nth (fst irv) row NaN)))
            (combine (seq i (length prior)) prior) start.

Definition pointDensity (prior : list RandomVariable) (row : list npfloat) : npfloat :=
  pointDensityFrom 0 prior row (Fin 1).

Section Prior.

Context `{SB : StudyBase}.

Lemma zipWith_map_r {A B C D : Type} (f : A -> C -> D) (g : B -> C) u v :
  Np.zipWith f u (map g v) = Np.zipWith (fun a b => f a (g b)) u v.
Proof.
  revert v. induction u as [|a u IH]; intros [|b v]; simpl; try reflexivity.
  f_equal. apply IH.
Qed.

Lemma zipWith_zipWith_l {A B : Type} (f g : A -> B -> A) (h : A -> B -> A) u (v : list B) :
  (forall a b, g (f a b) b = h a b) ->
  Np.zipWith g (Np.zipWith f u v) v = Np.zipWith h u v.
Proof.
  intros H. revert v. induction u as [|a u IH]; intros [|b v]; simpl; try reflexivity.
  rewrite H. f_equal. apply IH.
Qed.

Lemma zipWith_repeat_l {A B C : Type} (f : A -> B -> C) a (v : list B) :
  Np.zipWith f (repeat a (length v)) v = map (f a) v.
Proof. induction v as [|b v IH]; simpl; [reflexivity|f_equal; exact IH]. Qed.

(** The loop over the priors multiplies up, at every raster point, the
    densities of the point's coordinates. *)
Lemma zipWith_fst_id {A B : Type} (u : list A) (v : list B) :
  length u = length v -> Np.zipWith (fun a _ => a) u v = u.
Proof.
  revert v. induction u as [|a u IH]; intros [|b v] H; try discriminate.
  - reflexivity.
  - simpl. f_equal. apply IH. simpl in H. lia.
Qed.

Lemma priorLoop_pointwise prior :
  Forall (fun rv => free_symbols rv = []) prior ->
  forall i values acc,
    length acc = length values ->
    priorLoop i prior values acc
    = inr (Np.zipWith (fun a row => pointDensityFrom i prior row a) acc values).
Proof.
  induction 1 as [|rv prior Hrv _ IH]; intros i values acc Hlen.
  - simpl. f_equal. unfold pointDensityFrom. simpl.
    symmetry. apply zipWith_fst_id. exact Hlen.
  - simpl. rewrite Hrv. rewrite IH.
    + f_equal. rewrite map_map, zipWith_map_r.
      apply zipWith_zipWith_l. intros a row. reflexivity.
    + rewrite zipWith_length; [exact Hlen|].
      rewrite !length_map. exact Hlen.
Qed.

Lemma uniform_prior_values n :
  n <> 0%nat ->
  Np.divide (Np.ones n) (of_nat n) = map Fin (repeat (1 / INR n) n).
Proof.
  intros Hn. unfold Np.divide, Np.ones, of_nat. rewrite !map_repeat.
  rewrite npdiv_fin by (apply not_0_INR; exact Hn). reflexivity.
Qed.

Lemma uniform_prior_sums_to_one n : n <> 0%nat -> Rsum (repeat (1 / INR n) n) = 1.
Proof.
  intros Hn. rewrite Rsum_repeat. field. apply not_0_INR; exact Hn.
Qed.

Lemma Rsum_nonneg l : Forall (fun y => 0 <= y) l -> 0 <= Rsum l.
Proof. induction 1 as [|y l Hy _ IH]; simpl; lra. Qed.

Lemma normalized_sums_to_one ys :
  Rsum ys <> 0 -> Rsum (map (fun y => y / Rsum ys) ys) = 1.
Proof.
  intros H. unfold Rdiv. rewrite Rsum_scale. field. exact H.
Qed.

Lemma normalized_nonneg ys :
  Forall (fun y => 0 <= y) ys -> 0 < Rsum ys ->
  Forall (fun y => 0 <= y) (map (fun y => y / Rsum ys) ys).
Proof.
  intros Hall Hpos. rewrite Forall_map. eapply Forall_impl; [|exact Hall].
  intros y Hy. simpl. apply Rmult_le_pos; [exact Hy|].
  apply Rlt_le, Rinv_0_lt_compat, Hpos.
Qed.

(** C7, as amended.  With no densities supplied the prior [fit] computes
    holds [1/N] for each of the [N >= 1] raster points and sums to 1.
    With one parameter-free density per raster dimension, each entry is
    the product of the density values at the point divided by the total
    over the points; the vector is non-negative and sums to 1 provided the
    products are finite and non-negative and their total is positive. *)
Theorem determinePrior_normalized :
  forall self,
    rasterValues self <> [] ->
    (determinePrior [] self
     = inr (with_hyperParameterPrior
              (Some (map Fin (repeat (1 / INR (length (rasterValues self)))
                                (length (rasterValues self))))) self)
     /\ 0 <= 1 / INR (length (rasterValues self))
     /\ Rsum (repeat (1 / INR (length (rasterValues self))) (length (rasterValues self)))
        = 1)
    /\ (forall prior ys,
          prior <> [] ->
          length prior = length (hd [] (rasterValues self)) ->
          Forall (fun rv => free_symbols rv = []) prior ->
          map (pointDensity prior) (rasterValues self) = map Fin ys ->
          Forall (fun y => 0 <= y) ys ->
          0 < Rsum ys ->
          determinePrior prior self
          = inr (with_hyperParameterPrior
                   (Some (map Fin (map (fun y => y / Rsum ys) ys))) self)
          /\ Forall (fun p => 0 <= p) (map (fun y => y / Rsum ys) ys)
          /\ Rsum (map (fun y => y / Rsum ys) ys) = 1).
Proof.
  intros self Hne.
  assert (Hn : length (rasterValues self) <> 0%nat).
  { destruct (rasterValues self); [congruence|discriminate]. }
  split.
  - split; [|split].
    + unfold determinePrior. rewrite uniform_prior_values by exact Hn. reflexivity.
    + apply Rlt_le. apply Rdiv_lt_0_compat; [lra|].
      apply lt_0_INR. lia.
    + apply uniform_prior_sums_to_one. exact Hn.
  - intros prior ys Hp Hlen Hfree Hdens Hnonneg Hpos.
    split; [|split].
    + unfold determinePrior. destruct prior as [|rv prior]; [congruence|].
      destruct (rasterValues self) as [|row0 rows] eqn:Hv; [congruence|].
      simpl hd in Hlen. rewrite Hlen, Nat.eqb_refl. cbn [negb].
      cbv zeta. cbn [rasterValues hyperParameterPrior with_hyperParameterPrior arrayOf].
      rewrite Hv.
      rewrite (priorLoop_pointwise (rv :: prior) Hfree)
        by (unfold Np.ones; apply repeat_length).
      unfold Np.ones. rewrite zipWith_repeat_l.
      change (map (fun row => pointDensityFrom 0 (rv :: prior) row (Fin 1)) (row0 :: rows))
        with (map (pointDensity (rv :: prior)) (row0 :: rows)).
      rewrite Hdens, sum_fin, divide_fin by lra.
      reflexivity.
    + apply normalized_nonneg; assumption.
    + apply normalized_sums_to_one. lra.
Qed.

End Prior.

(** The state a phase of [fit] hands on, whether it returned or not. *)
Definition stateOf (r : (Outcome * RasterStudy) + RasterStudy) : RasterStudy :=
  match r with
  | inl (_, s) => s
  | inr s => s
  end.

Lemma cons_eq {A : Type} (a b : A) u v : a = b -> u = v -> a :: u = b :: v.
Proof. intros -> ->; reflexivity. Qed.

Lemma Fin_eq x y : x = y -> Fin x = Fin y.
Proof. intros ->; reflexivity. Qed.

(** Equality of concrete arrays, entry by entry. *)
Ltac np_list :=
  repeat match goal with
         | |- @eq (list _) (_ :: _) (_ :: _) => apply cons_eq
         | |- @eq (list _) [] [] => reflexivity
         | |- Fin _ = Fin _ => apply Fin_eq; first [lra | field | simpl; field]
         end.

Module PriorExample.
Import Example.

(** The study after the raster [[["sigma", 0, 1, 3]]] has been built. *)
Definition prepared3 : RasterStudy :=
  stateOf (prepareRaster [sigma 0 1 3] false false false false study0).

(** The density [2 x] of a Beta(2, 1) variable, and the density of a
    variable uniform on [[2, 3]]. *)
Definition beta21 : RandomVariable :=
  {| free_symbols := []; pdf := fun x => npmul (Fin 2) x |}.

Definition uniform23 : RandomVariable :=
  {| free_symbols := [];
     pdf := fun x =>
              match x with
              | Fin v => if Rle_dec 2 v then if Rle_dec v 3 then Fin 1 else Fin 0
                         else Fin 0
              | PInf | NInf => Fin 0
              | NaN => NaN
              end |}.

Lemma prepared3_values : rasterValues prepared3 = [[Fin 0]; [Fin (1 / 2)]; [Fin 1]].
Proof.
  unfold prepared3, prepareRaster. cbn -[Np.linspace].
  unfold Np.linspace. cbn [seq map app of_nat npsub npadd npopp].
  unfold of_nat. rewrite npdiv_fin by (simpl; lra).
  cbn [flat_map map app npmul npadd INR].
  np_list.
Qed.

Lemma prepared3_constant : rasterConstant prepared3 = [Fin (1 / 2)].
Proof.
  unfold prepared3, prepareRaster. cbn -[npdiv INR Rabs].
  rewrite npdiv_fin by (simpl; lra).
  apply cons_eq; [|reflexivity]. apply Fin_eq.
  rewrite Rabs_right by lra. simpl. field.
Qed.

End PriorExample.

(** The scenario of C7: for the raster [[["sigma", 0, 1, 3]]] the uniform
    prior is [[1/3, 1/3, 1/3]] (and the spacing constant is [1/2]); with
    the density [2 x] the prior is [[0, 1/3, 2/3]]. *)
Lemma determinePrior_normalized_witness :
  hyperParameterPrior (stateOf (determinePrior [] PriorExample.prepared3))
  = Some [Fin (1 / 3); Fin (1 / 3); Fin (1 / 3)]
  /\ hyperParameterPrior (stateOf (determinePrior [PriorExample.beta21]
                                     PriorExample.prepared3))
     = Some [Fin 0; Fin (1 / 3); Fin (2 / 3)].
Proof.
  assert (Hne : rasterValues PriorExample.prepared3 <> []).
  { rewrite PriorExample.prepared3_values. discriminate. }
  destruct (determinePrior_normalized PriorExample.prepared3 Hne)
    as ((Hu & _ & _) & Hd).
  split.
  - rewrite Hu. cbn [stateOf hyperParameterPrior with_hyperParameterPrior].
    rewrite PriorExample.prepared3_values. cbn [length repeat map INR].
    f_equal; np_list.
  - destruct (Hd [PriorExample.beta21] [0; 1; 2]) as (Hp & _ & _).
    + discriminate.
    + rewrite PriorExample.prepared3_values. reflexivity.
    + repeat constructor.
    + rewrite PriorExample.prepared3_values.
      unfold pointDensity, pointDensityFrom. cbn. np_list.
    + repeat constructor; lra.
    + simpl. lra.
    + rewrite Hp. cbn [stateOf hyperParameterPrior with_hyperParameterPrior].
      f_equal. cbn [map Rsum fold_right]. np_list.
Defined.

(** C7 as stated fails: for the raster [[["sigma", 0, 1, 3]]] and a prior
    uniform on [[2, 3]] every density value on the grid is 0, the
    renormalisation divides 0 by 0, and the prior [fit] computes is
    [[nan, nan, nan]], whose sum is [nan] and not 1. *)
Lemma determinePrior_zero_mass_counterexample :
  hyperParameterPrior (stateOf (determinePrior [PriorExample.uniform23]
                                  PriorExample.prepared3))
  = Some [NaN; NaN; NaN]
  /\ Np.sum [NaN; NaN; NaN] = NaN
  /\ is_finite (Np.sum [NaN; NaN; NaN]) = false.
Proof.
  split; [|split; reflexivity].
  unfold determinePrior.
  rewrite PriorExample.prepared3_values.
  cbn [length Nat.eqb negb].
  cbv zeta.
  cbn [rasterValues with_hyperParameterPrior hyperParameterPrior arrayOf].
  rewrite PriorExample.prepared3_values.
  cbn [length Np.ones repeat priorLoop PriorExample.uniform23 free_symbols pdf map nth
       Np.zipWith].
  destruct (Rle_dec 2 0) as [H|_]; [exfalso; lra|].
  destruct (Rle_dec 2 (1 / 2)) as [H|_]; [exfalso; lra|].
  destruct (Rle_dec 2 1) as [H|_]; [exfalso; lra|].
  cbn [npmul Np.sum fold_right npadd].
  replace (1 * 0 + (1 * 0 + (1 * 0 + 0))) with 0 by lra.
  replace (1 * 0) with 0 by lra.
  unfold Np.divide. cbn [map]. rewrite npdiv_fin_zero, signed_inf_zero.
  reflexivity.
Qed.

(** The instance of C6 for the raster
    [[["sigma", 0, 1, 2], ["log10pMin", -10, -5, 3]]]: six points, the
    fourth of which (index 3) is [(1, -10)]. *)
Lemma fit_builds_regular_grid_witness :
  let self' :=
    snd (fit (SB := Example.base0)
           [Example.sigma 0 1 2; Example.log10pMin (-10) (-5) 3] [] false false false
           false 1%Z false Example.study0) in
  length (rasterValues self') = 6%nat
  /\ nth 3 (rasterValues self') [] = [Fin 1; Fin (-10)].
Proof.
  assert (Hne : [Example.sigma 0 1 2; Example.log10pMin (-10) (-5) 3] <> [])
    by discriminate.
  destruct (fit_builds_regular_grid (SB := Example.base0)
              [Example.sigma 0 1 2; Example.log10pMin (-10) (-5) 3] [] false false false
              1%Z false Example.study0 Hne) as (_ & Hlen & Hnth & _).
  split; [exact Hlen|].
  rewrite Hnth by (simpl; lia).
  cbn [map Example.sigma Example.log10pMin steps lower upper axes unravel_index
       Np.nat_prod fold_right Nat.mul Nat.div Nat.modulo Nat.divmod fst snd Nat.sub
       Np.zipWith Nat.add].
  unfold Np.linspace. cbn [seq map app nth of_nat npsub npopp npadd].
  unfold of_nat. rewrite npdiv_fin by (simpl; lra).
  cbn [npmul npadd INR]. np_list.
Defined.

(** ** The sweep over the raster points *)

(** The contribution of one raster point to the averaged posterior, as the
    specification words it: [posterior_i * exp(logEvidence_i - anchor) *
    prior_i]. *)
Definition weightedPosterior (anchor : npfloat) (r : FitResult) (p : npfloat)
  : list (list npfloat) :=
  map (fun posterior =>
         Np.scale p (Np.scale (npexp (npsub (res_logEvidence r) anchor)) posterior))
      (res_posteriorSequence r).

(** The accumulator after the results [rs], weighted with the prior
    entries [ps], have been added one after the other. *)
Definition accumulate (anchor : npfloat) (rs : list FitResult) (ps : list npfloat)
  (acc : list (list npfloat)) : list (list npfloat) :=
  fold_left (fun acc rp => Np.add2 acc (weightedPosterior anchor (fst rp) (snd rp)))
            (combine rs ps) acc.

Section Sweep.

Context `{SB : StudyBase}.

(** The result of the filtering routine at one raster point. *)
Definition pointResult (forwardOnly evidenceOnly : bool) (b : Study) (row : list npfloat)
  : FitResult :=
  filtering (formattedData b) (selectedHyperParameters b) row forwardOnly evidenceOnly.

Definition pointResults (forwardOnly evidenceOnly : bool) (b : Study)
  (rows : list (list npfloat)) : list FitResult :=
  map (pointResult forwardOnly evidenceOnly b) rows.

Lemma nth_0_app_cons {A : Type} (l m : list A) a d :
  nth 0 (l ++ [a]) d = nth 0 (l ++ a :: m) d.
Proof. destruct l; reflexivity. Qed.

Lemma sweepStep_spec fo eo self i row :
  let r := pointResult fo eo (base self) row in
  let self' := sweepStep fo eo self (i, row) in
  formattedData (base self') = formattedData (base self)
  /\ selectedHyperParameters (base self') = selectedHyperParameters (base self)
  /\ logEvidenceList self' = logEvidenceList self ++ [res_logEvidence r]
  /\ localEvidenceList self' = localEvidenceList self ++ [res_localEvidence r]
  /\ averagePosteriorSequence self'
     = (if eo then averagePosteriorSequence self
        else Some (Np.add2 (arrayOf (averagePosteriorSequence self))
                     (weightedPosterior
                        (nth 0 (logEvidenceList self ++ [res_logEvidence r]) NaN) r
                        (nth i (arrayOf (hyperParameterPrior self)) NaN))))
  /\ fitCalls (base self')
     = fitCalls (base self)
       ++ [{| call_hyperParameterValues := row; call_forwardOnly := fo;
              call_evidenceOnly := eo; call_silent := true |}].
Proof.
  unfold sweepStep, pointResult, Study_fit, setSelectedHyperParameters, weightedPosterior.
  destruct eo; cbn; auto 10.
Qed.

(** The loop, started in any state on the rows [rows] numbered from [i]. *)
Lemma sweep_fold fo eo rows :
  forall i self,
    let rs := pointResults fo eo (base self) rows in
    let self' := fold_left (sweepStep fo eo) (combine (seq i (length rows)) rows) self in
    formattedData (base self') = formattedData (base self)
    /\ selectedHyperParameters (base self') = selectedHyperParameters (base self)
    /\ logEvidenceList self' = logEvidenceList self ++ map res_logEvidence rs
    /\ localEvidenceList self' = localEvidenceList self ++ map res_localEvidence rs
    /\ averagePosteriorSequence self'
       = (if eo then averagePosteriorSequence self
          else match rows with
               | [] => averagePosteriorSequence self
               | _ :: _ =>
                   Some (accumulate
                           (nth 0 (logEvidenceList self ++ map res_logEvidence rs) NaN)
                           rs
                           (map (fun j => nth j (arrayOf (hyperParameterPrior self)) NaN)
                                (seq i (length rows)))
                           (arrayOf (averagePosteriorSequence self)))
               end).
Proof.
  induction rows as [|row rows IH]; intros i self.
  - cbn. rewrite !app_nil_r. destruct eo; auto.
  - cbn [length seq combine fold_left].
    pose proof (sweepStep_spec fo eo self i row) as Hstep. cbv zeta in Hstep.
    destruct Hstep as (Hd & Hn & Hl & Hloc & Ha & _).
    pose proof (sweepStep_grid fo eo self (i, row)) as (_ & _ & _ & Hp & _).
    specialize (IH (S i) (sweepStep fo eo self (i, row))). cbv zeta in IH.
    destruct IH as (Id & In_ & Il & Iloc & Ia).
    assert (Hrs : pointResults fo eo (base (sweepStep fo eo self (i, row))) rows
                  = pointResults fo eo (base self) rows).
    { unfold pointResults, pointResult. rewrite Hd, Hn. reflexivity. }
    rewrite Hrs in *.
    cbv zeta. cbn [pointResults map].
    fold (pointResults fo eo (base self) rows).
    split; [rewrite Id; exact Hd|].
    split; [rewrite In_; exact Hn|].
    split; [rewrite Il, Hl, <- app_assoc; reflexivity|].
    split; [rewrite Iloc, Hloc, <- app_assoc; reflexivity|].
    rewrite Ia. destruct eo; [exact Ha|].
    rewrite Hl, Hp, Ha, <- app_assoc. cbn [app arrayOf].
    rewrite (nth_0_app_cons (logEvidenceList self)
               (map res_logEvidence (pointResults fo false (base self) rows))).
    destruct rows as [|row' rows'].
    + cbn. reflexivity.
    + unfold accumulate. cbn [pointResults map combine fold_left fst snd length seq].
      reflexivity.
Qed.

End Sweep.

(** ** Splitting the raster among workers *)

Section ArraySplit.

Context {A : Type}.

Lemma slices_concat (sizes : list nat) (l : list A) :
  concat (Np.slices sizes l) = firstn (fold_right Nat.add 0%nat sizes) l.
Proof.
  revert l. induction sizes as [|m sizes IH]; intros l; simpl.
  - reflexivity.
  - rewrite IH. rewrite <- (firstn_skipn m l) at 3.
    rewrite firstn_app. rewrite firstn_firstn.
    replace (Nat.min (m + fold_right Nat.add 0%nat sizes) m) with m by lia.
    f_equal.
    destruct (Nat.le_gt_cases m (length l)) as [Hle|Hgt].
    + rewrite length_firstn. replace (Nat.min m (length l)) with m by lia.
      f_equal. lia.
    + rewrite skipn_all2 by lia. rewrite !firstn_nil. reflexivity.
Qed.

Lemma slices_length (sizes : list nat) (l : list A) :
  length (Np.slices sizes l) = length sizes.
Proof. revert l. induction sizes; intros l; simpl; [reflexivity|f_equal; auto]. Qed.

Lemma sum_repeat m n : fold_right Nat.add 0%nat (repeat m n) = (n * m)%nat.
Proof. induction n as [|n IH]; simpl; [reflexivity|rewrite IH; reflexivity]. Qed.

Lemma sum_app_nat u v :
  fold_right Nat.add 0%nat (u ++ v)
  = (fold_right Nat.add 0%nat u + fold_right Nat.add 0%nat v)%nat.
Proof. induction u as [|a u IH]; simpl; [reflexivity|rewrite IH; lia]. Qed.

Lemma array_split_length (l : list A) n :
  n <> 0%nat -> length (Np.array_split l n) = n.
Proof.
  intros Hn. unfold Np.array_split. rewrite slices_length, length_app, !repeat_length.
  pose proof (Nat.mod_upper_bound (length l) n Hn). lia.
Qed.

(** The sections of [np.array_split], one after the other, give the array
    back. *)
Lemma array_split_concat (l : list A) n :
  n <> 0%nat -> concat (Np.array_split l n) = l.
Proof.
  intros Hn. unfold Np.array_split. rewrite slices_concat.
  rewrite sum_app_nat, !sum_repeat.
  pose proof (Nat.div_mod_eq (length l) n) as Hdm.
  pose proof (Nat.mod_upper_bound (length l) n Hn) as Hlt.
  apply firstn_all2. nia.
Qed.

Lemma nth_all (d : A) (l : list A) :
  map (fun i => nth i l d) (seq 0 (length l)) = l.
Proof.
  induction l as [|a l IH]; [reflexivity|].
  cbn [length seq map nth]. f_equal.
  rewrite <- seq_shift, map_map. exact IH.
Qed.

End ArraySplit.

Section Parallel.

Context `{SB : StudyBase}.

Lemma sweep_lists fo eo self :
  formattedData (base (sweep fo eo self)) = formattedData (base self)
  /\ selectedHyperParameters (base (sweep fo eo self)) = selectedHyperParameters (base self)
  /\ logEvidenceList (sweep fo eo self)
     = logEvidenceList self
       ++ map res_logEvidence (pointResults fo eo (base self) (rasterValues self))
  /\ localEvidenceList (sweep fo eo self)
     = localEvidenceList self
       ++ map res_localEvidence (pointResults fo eo (base self) (rasterValues self)).
Proof.
  unfold sweep, enumerate.
  pose proof (sweep_fold fo eo (rasterValues self) 0 self) as H. cbv zeta in H.
  tauto.
Qed.

Lemma sweep_prior fo eo self :
  hyperParameterPrior (sweep fo eo self) = hyperParameterPrior self.
Proof.
  unfold sweep. apply (fold_left_keeps hyperParameterPrior). intros; apply sweepStep_grid.
Qed.

(** The section of the raster a worker analyses. *)
Definition shard {A : Type} (idx nJobs : nat) (l : list A) : list A :=
  nth idx (Np.array_split l nJobs) [].

Lemma parallelFit_lists idx nJobs fo eo silent self :
  logEvidenceList (parallelFit idx nJobs fo eo silent self)
  = logEvidenceList self
    ++ map res_logEvidence
         (pointResults fo eo (base self) (shard idx nJobs (rasterValues self)))
  /\ localEvidenceList (parallelFit idx nJobs fo eo silent self)
     = localEvidenceList self
       ++ map res_localEvidence
            (pointResults fo eo (base self) (shard idx nJobs (rasterValues self))).
Proof.
  unfold parallelFit. cbv zeta.
  destruct (sweep_lists fo eo
              (with_hyperParameterPrior
                 (Some (nth idx (Np.array_split (arrayOf (hyperParameterPrior
                    (with_rasterValues
                       (nth idx (Np.array_split (rasterValues self) nJobs) []) self)))
                    nJobs) []))
                 (with_rasterValues
                    (nth idx (Np.array_split (rasterValues self) nJobs) []) self)))
    as (_ & _ & Sl & Sloc).
  rewrite Sl, Sloc. split; reflexivity.
Qed.

Lemma merge_lists eo subStudies :
  forall self,
    logEvidenceList (fold_left (mergeStudy eo) subStudies self)
    = logEvidenceList self ++ concat (map logEvidenceList subStudies)
    /\ localEvidenceList (fold_left (mergeStudy eo) subStudies self)
       = localEvidenceList self ++ concat (map localEvidenceList subStudies)
    /\ hyperParameterPrior (fold_left (mergeStudy eo) subStudies self)
       = hyperParameterPrior self.
Proof.
  induction subStudies as [|S subStudies IH]; intros self.
  - simpl. rewrite !app_nil_r. auto.
  - cbn [fold_left map concat]. destruct (IH (mergeStudy eo self S)) as (Hl & Hloc & Hp).
    rewrite Hl, Hloc, Hp.
    unfold mergeStudy. destruct eo; cbn; rewrite <- !app_assoc; auto.
Qed.

Lemma shards_concat {A : Type} (l : list A) n :
  n <> 0%nat -> concat (map (fun idx => shard idx n l) (seq 0 n)) = l.
Proof.
  intros Hn. unfold shard.
  replace (seq 0 n) with (seq 0 (length (Np.array_split l n)))
    by (rewrite array_split_length by exact Hn; reflexivity).
  rewrite nth_all. apply array_split_concat. exact Hn.
Qed.

Lemma shards_concat_map {A B : Type} (f : A -> B) (l : list A) n :
  n <> 0%nat -> concat (map (fun idx => map f (shard idx n l)) (seq 0 n)) = map f l.
Proof.
  intros Hn.
  rewrite <- (map_map (fun idx => shard idx n l) (map f)), <- concat_map.
  rewrite shards_concat by exact Hn. reflexivity.
Qed.

(** The evidence lists after the sweep hold the results of the raster
    points in raster order, whether one process or several did the work. *)
Lemma runSweep_lists fo eo silent nJobs pathos self :
  logEvidenceList self = [] ->
  localEvidenceList self = [] ->
  let swept := runSweep fo eo silent nJobs pathos self in
  logEvidenceList swept
  = map res_logEvidence (pointResults fo eo (base self) (rasterValues self))
  /\ localEvidenceList swept
     = map res_localEvidence (pointResults fo eo (base self) (rasterValues self))
  /\ hyperParameterPrior swept = hyperParameterPrior self.
Proof.
  intros Hl Hloc. unfold runSweep. cbv zeta.
  set (n := if (1 <? nJobs)%Z && negb pathos then 1%Z else nJobs).
  destruct (1 <? n)%Z eqn:Hn.
  - apply Z.ltb_lt in Hn.
    assert (Hn0 : Z.to_nat n <> 0%nat) by lia.
    destruct (merge_lists eo
                (map (fun idx => parallelFit idx (Z.to_nat n) fo eo silent self)
                     (seq 0 (Z.to_nat n))) self) as (Ml & Mloc & Mp).
    rewrite Ml, Mloc, Mp, Hl, Hloc. cbn [app].
    rewrite !map_map.
    split; [|split; [|reflexivity]].
    + rewrite (map_ext _ (fun idx =>
                 map (fun row => res_logEvidence (pointResult fo eo (base self) row))
                     (shard idx (Z.to_nat n) (rasterValues self)))).
      2:{ intros idx. destruct (parallelFit_lists idx (Z.to_nat n) fo eo silent self) as (P & _).
          rewrite P, Hl. unfold pointResults. rewrite map_map. reflexivity. }
      rewrite shards_concat_map by exact Hn0.
      unfold pointResults. rewrite map_map. reflexivity.
    + rewrite (map_ext _ (fun idx =>
                 map (fun row => res_localEvidence (pointResult fo eo (base self) row))
                     (shard idx (Z.to_nat n) (rasterValues self)))).
      2:{ intros idx. destruct (parallelFit_lists idx (Z.to_nat n) fo eo silent self) as (_ & P).
          rewrite P, Hloc. unfold pointResults. rewrite map_map. reflexivity. }
      rewrite shards_concat_map by exact Hn0.
      unfold pointResults. rewrite map_map. reflexivity.
  - destruct (sweep_lists fo eo self) as (_ & _ & Sl & Sloc).
    rewrite Sl, Sloc, Hl, Hloc, sweep_prior. auto.
Qed.

End Parallel.

(** ** A completed fit *)

Section Completed.

Context `{SB : StudyBase}.

(** The instance at the start of the sweep: the raster prepared, the
    observations formatted, the prior determined, the accumulator reset
    (lines 74-141). *)
Definition validated (raster_arg : list RasterSpec) (prior : list RandomVariable)
  (forwardOnly evidenceOnly customRaster silent : bool) (self : RasterStudy) : RasterStudy :=
  initSweep evidenceOnly
    (stateOf (determinePrior prior
       (upd_base (fun b => with_formattedData (movingWindow (rawData b) (segmentLength b)) b)
          (stateOf (prepareRaster raster_arg forwardOnly evidenceOnly customRaster silent
                      self))))).

(** The log-evidences of the raster points, in raster order. *)
Definition pointLogEvidences (forwardOnly evidenceOnly : bool) (v : RasterStudy)
  : list npfloat :=
  map res_logEvidence (pointResults forwardOnly evidenceOnly (base v) (rasterValues v)).

Lemma priorLoop_length prior :
  forall i values acc p,
    length acc = length values ->
    priorLoop i prior values acc = inr p -> length p = length values.
Proof.
  induction prior as [|rv prior IH]; intros i values acc p Hlen; simpl.
  - intros H; inversion H; subst; exact Hlen.
  - destruct (free_symbols rv); [|discriminate].
    apply IH. rewrite zipWith_length; [exact Hlen|].
    rewrite !length_map. exact Hlen.
Qed.

Lemma determinePrior_length prior self s1 :
  determinePrior prior self = inr s1 ->
  length (arrayOf (hyperParameterPrior s1)) = length (rasterValues self).
Proof.
  unfold determinePrior. destruct prior as [|rv prior].
  - intros H; inversion H; subst; cbn.
    unfold Np.divide, Np.ones. rewrite length_map, repeat_length. reflexivity.
  - destruct (rasterValues self) as [|row0 rows] eqn:Hv; [discriminate|].
    destruct (negb _); [discriminate|].
    destruct (priorLoop _ _ _ _) as [|p] eqn:Hloop; [discriminate|].
    intros H; inversion H; subst; cbn.
    unfold Np.divide. rewrite length_map.
    apply priorLoop_length in Hloop.
    + cbn [rasterValues with_hyperParameterPrior] in Hloop. rewrite Hv in Hloop.
      exact Hloop.
    + cbn. unfold Np.ones. rewrite repeat_length. rewrite Hv. reflexivity.
Qed.

Lemma aggregate_spec eo self :
  let prior := arrayOf (hyperParameterPrior self) in
  match Np.logsumexp (Np.add (logEvidenceList self) (map nplog prior)) with
  | None => fst (aggregate eo self) = Raised ValueError
  | Some total =>
      fst (aggregate eo self) = Finished
      /\ logEvidence (base (snd (aggregate eo self))) = total
      /\ hyperParameterDistribution (snd (aggregate eo self))
         = Some (computeHyperParameterDistribution (logEvidenceList self) prior
                   (rasterConstant self))
      /\ averagePosteriorSequence (snd (aggregate eo self))
         = (if eo then averagePosteriorSequence self
            else Some (normalizeSequence (arrayOf (averagePosteriorSequence self))))
  end.
Proof.
  unfold aggregate. cbv zeta.
  destruct eo; cbn;
    destruct (Np.logsumexp _); cbn; auto.
Qed.

Lemma initSweep_lists eo self :
  logEvidenceList (initSweep eo self) = []
  /\ localEvidenceList (initSweep eo self) = []
  /\ hyperParameterPrior (initSweep eo self) = hyperParameterPrior self
  /\ averagePosteriorSequence (initSweep eo self)
     = (if eo then averagePosteriorSequence self
        else Some (Np.zeros2 (length (formattedData (base self)))
                             (Np.nat_prod (gridSize (base self))))).
Proof. unfold initSweep. destruct eo; cbn; auto. Qed.

Lemma logsumexp_nil_iff a : Np.logsumexp a = None <-> a = [].
Proof.
  unfold Np.logsumexp, Np.max. destruct a; split; intros H; try reflexivity;
    discriminate.
Qed.

(** A fit that finishes went through the sweep and the aggregation, on a
    raster with at least one point and a prior with one entry per point. *)
Lemma fit_finished raster_arg prior fo eo custom silent nJobs pathos self :
  fst (fit raster_arg prior fo eo custom silent nJobs pathos self) = Finished ->
  let v := validated raster_arg prior fo eo custom silent self in
  fit raster_arg prior fo eo custom silent nJobs pathos self
  = aggregate eo (runSweep fo eo silent nJobs pathos v)
  /\ rasterValues v <> []
  /\ length (arrayOf (hyperParameterPrior v)) = length (rasterValues v)
  /\ logEvidenceList (runSweep fo eo silent nJobs pathos v) = pointLogEvidences fo eo v
  /\ hyperParameterPrior (runSweep fo eo silent nJobs pathos v) = hyperParameterPrior v
  /\ rasterConstant (runSweep fo eo silent nJobs pathos v) = rasterConstant v.
Proof.
  unfold fit, validated.
  destruct (prepareRaster _ _ _ _ _ _) as [[o s1]|s1] eqn:Hprep.
  { apply prepareRaster_returns in Hprep.
    destruct Hprep as [(Ho & _)|(e' & Ho & _)]; simpl; intros He; rewrite Ho in He;
      discriminate. }
  destruct (determinePrior _ _) as [[o s2]|s2] eqn:Hprior.
  { unfold determinePrior in Hprior. destruct prior as [|rv prior]; [discriminate|].
    destruct (rasterValues _) as [|row0 rows]; [inversion Hprior; subst; discriminate|].
    destruct (negb _); [inversion Hprior; subst; discriminate|].
    destruct (priorLoop _ _ _ _); inversion Hprior; subst; discriminate. }
  cbv zeta. cbn [stateOf].
  destruct (negb (checkConsistency _)); [discriminate|].
  intros Hfin.
  pose proof (determinePrior_length _ _ _ Hprior) as Hlen.
  apply determinePrior_continues in Hprior.
  destruct Hprior as (_ & _ & _ & Hv & _).
  destruct (initSweep_lists eo s2) as (Il & Iloc & Ip & _).
  destruct (initSweep_grid eo s2) as (_ & Iv & _).
  destruct (runSweep_lists fo eo silent nJobs pathos (initSweep eo s2) Il Iloc)
    as (Rl & _ & Rp).
  destruct (runSweep_grid fo eo silent nJobs pathos (initSweep eo s2)) as (_ & _ & Rc).
  split; [reflexivity|].
  split; [|split; [|split; [|split]]].
  - intros Hempty.
    pose proof (aggregate_spec eo (runSweep fo eo silent nJobs pathos (initSweep eo s2)))
      as Hagg. cbv zeta in Hagg.
    rewrite Rl in Hagg. unfold pointResults in Hagg. rewrite Hempty in Hagg.
    cbn in Hagg. rewrite Hagg in Hfin. discriminate.
  - rewrite Ip, Iv, Hlen, Hv. reflexivity.
  - exact Rl.
  - exact Rp.
  - exact Rc.
Qed.

End Completed.

(** ** The hyper-parameter distribution (C2) *)

(** The hyper-parameter posterior as the specification derives it:
    (1) [logEvidence_i + log(prior_i)] per point, (2) the mean of that
    vector subtracted, (3) exponentiated, (4) normalized to sum to 1,
    (5) divided by the product of the spacing constants. *)
Definition posteriorDensity_spec (logEvidences prior constants : list npfloat)
  : list npfloat :=
  let v := Np.zipWith (fun logEvidence_i prior_i => npadd logEvidence_i (nplog prior_i))
             logEvidences prior in
  let centred := map (fun x => npsub x (Np.mean v)) v in
  let exponentiated := map npexp centred in
  let mass := map (fun x => npdiv x (Np.sum exponentiated)) exponentiated in
  map (fun x => npdiv x (Np.prod constants)) mass.

(** The vector of step (2) for finite log-evidences and positive prior
    entries: [logEvidence_i + log(prior_i)] less the mean of these values. *)
Definition centredLogWeights (ls ps : list R) : list R :=
  let v := Np.zipWith (fun L p => L + ln p) ls ps in
  map (fun x => x - Rsum v / INR (length v)) v.

Section Posterior.

Context `{SB : StudyBase}.

Lemma computeHyperParameterDistribution_refines logEvidences prior constants :
  computeHyperParameterDistribution logEvidences prior constants
  = posteriorDensity_spec logEvidences prior constants.
Proof.
  unfold computeHyperParameterDistribution, posteriorDensity_spec, Np.add, Np.divide.
  cbv zeta. rewrite zipWith_map_r. reflexivity.
Qed.

Lemma zipWith_fin {C : Type} (f : npfloat -> npfloat -> C) u v :
  Np.zipWith f (map Fin u) (map Fin v) = Np.zipWith (fun x y => f (Fin x) (Fin y)) u v.
Proof.
  revert v. induction u as [|a u IH]; intros [|b v]; simpl; try reflexivity.
  f_equal. apply IH.
Qed.

Lemma zipWith_ext_Forall {A B C : Type} (P : B -> Prop) (f g : A -> B -> C) u v :
  Forall P v -> (forall a b, P b -> f a b = g a b) ->
  Np.zipWith f u v = Np.zipWith g u v.
Proof.
  intros Hall Hfg. revert u. induction Hall as [|b v Hb _ IH]; intros [|a u]; simpl;
    try reflexivity.
  rewrite Hfg by exact Hb. f_equal. apply IH.
Qed.

Lemma zipWith_as_map {A B C : Type} (f : A -> B -> C) u v :
  Np.zipWith f u v = map (fun ab => f (fst ab) (snd ab)) (combine u v).
Proof.
  revert v. induction u as [|a u IH]; intros [|b v]; simpl; try reflexivity.
  f_equal. apply IH.
Qed.

Lemma mean_fin l :
  l <> [] -> Np.mean (map Fin l) = Fin (Rsum l / INR (length l)).
Proof.
  intros Hne. unfold Np.mean, of_nat. rewrite sum_fin, length_map.
  apply npdiv_fin. apply not_0_INR. destruct l; [congruence|discriminate].
Qed.

Lemma Rsum_pos l : l <> [] -> Forall (fun x => 0 < x) l -> 0 < Rsum l.
Proof.
  intros Hne Hall. destruct Hall as [|x l Hx Hl]; [congruence|].
  simpl. assert (0 <= Rsum l); [|lra].
  apply Rsum_nonneg. eapply Forall_impl; [|exact Hl]. intros; simpl; lra.
Qed.

Lemma Rsum_between lo hi l :
  Forall (fun x => lo <= x <= hi) l ->
  INR (length l) * lo <= Rsum l <= INR (length l) * hi.
Proof.
  induction 1 as [|x l Hx _ IH]; [simpl; lra|].
  cbn [length Rsum fold_right]. rewrite S_INR. unfold Rsum in IH. lra.
Qed.

Lemma mean_between lo hi l :
  l <> [] -> Forall (fun x => lo <= x <= hi) l ->
  lo <= Rsum l / INR (length l) <= hi.
Proof.
  intros Hne Hall. pose proof (Rsum_between lo hi l Hall) as [H1 H2].
  assert (Hn : 0 < INR (length l)).
  { apply lt_0_INR. destruct l; [congruence|simpl; lia]. }
  split.
  - apply Rmult_le_reg_l with (INR (length l)); [exact Hn|].
    replace (INR (length l) * (Rsum l / INR (length l))) with (Rsum l) by (field; lra).
    exact H1.
  - apply Rmult_le_reg_l with (INR (length l)); [exact Hn|].
    replace (INR (length l) * (Rsum l / INR (length l))) with (Rsum l) by (field; lra).
    exact H2.
Qed.

(** A non-empty list has a largest entry. *)
Lemma list_has_max l :
  l <> [] -> exists x, In x l /\ Forall (fun y => y <= x) l.
Proof.
  induction l as [|a l IH]; [congruence|]. intros _.
  destruct l as [|b l].
  - exists a. split; [left; reflexivity|]. constructor; [lra|constructor].
  - destruct (IH ltac:(discriminate)) as (x & Hin & Hall).
    destruct (Rle_dec a x) as [Hax|Hax].
    + exists x. split; [right; exact Hin|]. constructor; assumption.
    + exists a. split; [left; reflexivity|]. constructor; [lra|].
      eapply Forall_impl; [|exact Hall]. intros y Hy. simpl in Hy. lra.
Qed.

Lemma list_has_min l :
  l <> [] -> exists x, In x l /\ Forall (fun y => x <= y) l.
Proof.
  induction l as [|a l IH]; [congruence|]. intros _.
  destruct l as [|b l].
  - exists a. split; [left; reflexivity|]. constructor; [lra|constructor].
  - destruct (IH ltac:(discriminate)) as (x & Hin & Hall).
    destruct (Rle_dec x a) as [Hax|Hax].
    + exists x. split; [right; exact Hin|]. constructor; assumption.
    + exists a. split; [left; reflexivity|]. constructor; [lra|].
      eapply Forall_impl; [|exact Hall]. intros y Hy. simpl in Hy. lra.
Qed.

(** Some entry is not below the mean. *)
Lemma centred_has_nonneg l :
  l <> [] ->
  exists x, In x (map (fun x => x - Rsum l / INR (length l)) l) /\ 0 <= x.
Proof.
  intros Hne. destruct (list_has_max l Hne) as (x & Hin & Hall).
  destruct (list_has_min l Hne) as (z & _ & Hmin).
  exists (x - Rsum l / INR (length l)). split.
  - apply in_map_iff. exists x. split; [reflexivity|exact Hin].
  - assert (Hb : Forall (fun y => z <= y <= x) l).
    { rewrite Forall_forall in *. intros y Hy. split; [apply Hmin|apply Hall]; exact Hy. }
    pose proof (mean_between z x l Hne Hb). lra.
Qed.

(** Entries within an interval are, less their mean, within its width. *)
Lemma centred_bounded lo hi l :
  l <> [] -> Forall (fun x => lo <= x <= hi) l ->
  Forall (fun x => lo - hi <= x <= hi - lo)
         (map (fun x => x - Rsum l / INR (length l)) l).
Proof.
  intros Hne Hall. pose proof (mean_between lo hi l Hne Hall) as Hm.
  rewrite Forall_map. eapply Forall_impl; [|exact Hall].
  intros x Hx. simpl in Hx. lra.
Qed.

Lemma Rsum_ge_member l x :
  Forall (fun y => 0 <= y) l -> In x l -> x <= Rsum l.
Proof.
  induction 1 as [|y l Hy Hl IH]; intros Hin; [contradiction|].
  pose proof (Rsum_nonneg l Hl) as Hs. simpl.
  destruct Hin as [->|Hin]; [lra|]. specialize (IH Hin). lra.
Qed.

Lemma centredLogWeights_length ls ps :
  length ls = length ps -> length (centredLogWeights ls ps) = length ls.
Proof.
  intros H. unfold centredLogWeights. cbv zeta.
  rewrite length_map, zipWith_length by exact H. reflexivity.
Qed.

(** Steps (1)-(3) for finite log-evidences and positive prior entries. *)
Lemma exponentiated_centred ls ps :
  ls <> [] -> length ls = length ps ->
  Forall (fun p => 0 < p) ps ->
  let v := Np.zipWith (fun logEvidence_i prior_i => npadd logEvidence_i (nplog prior_i))
             (map Fin ls) (map Fin ps) in
  map npexp (map (fun x => npsub x (Np.mean v)) v) = map exp64 (centredLogWeights ls ps).
Proof.
  intros Hne Hlen Hpos. cbv zeta.
  rewrite zipWith_fin.
  rewrite (zipWith_ext_Forall (fun p => 0 < p) _ (fun x y => Fin (x + ln y)) ls ps Hpos)
    by (intros a b Hb; rewrite nplog_pos by exact Hb; reflexivity).
  assert (Hv : Np.zipWith (fun x y => Fin (x + ln y)) ls ps
               = map Fin (Np.zipWith (fun L p => L + ln p) ls ps)).
  { rewrite !zipWith_as_map, map_map. reflexivity. }
  rewrite Hv. unfold centredLogWeights. cbv zeta.
  set (v := Np.zipWith (fun L p => L + ln p) ls ps).
  assert (Hvne : v <> []).
  { subst v. destruct ls as [|l0 ls]; [congruence|].
    destruct ps as [|p0 ps]; discriminate. }
  rewrite mean_fin by exact Hvne.
  rewrite !map_map. apply map_ext. intros x. reflexivity.
Qed.

(** The density of finitely many finite log-evidences and positive prior
    entries, over spacing constants with a finite non-zero product,
    integrates to 1 over the grid when no exponential of step (3)
    overflows. *)
Lemma posteriorDensity_normalized ls ps cs :
  ls <> [] -> length ls = length ps ->
  Forall (fun p => 0 < p) ps ->
  Rprod cs <> 0 ->
  Forall (fun x => exp x <= float64_max) (centredLogWeights ls ps) ->
  exists ds,
    posteriorDensity_spec (map Fin ls) (map Fin ps) (map Fin cs) = map Fin ds
    /\ length ds = length ls
    /\ Forall (fun d => 0 <= d * Rprod cs) ds
    /\ Rsum ds * Rprod cs = 1.
Proof.
  intros Hne Hlen Hpos Hc Hrange.
  unfold posteriorDensity_spec. cbv zeta.
  rewrite (exponentiated_centred ls ps Hne Hlen Hpos).
  rewrite (map_exp64_no_overflow _ Hrange).
  set (e := map exp_flush (centredLogWeights ls ps)).
  assert (He : Forall (fun x => 0 <= x) e).
  { subst e. rewrite Forall_map. apply Forall_forall. intros x _.
    apply exp_flush_bounds. }
  assert (HS : 0 < Rsum e).
  { assert (Hvne : Np.zipWith (fun L p => L + ln p) ls ps <> []).
    { destruct ls as [|l0 ls]; [congruence|]. destruct ps as [|p0 ps]; discriminate. }
    destruct (centred_has_nonneg _ Hvne) as (x & Hin & Hx).
    destruct (exp_flush_nonneg_arg x Hx) as (Hflush & Hone).
    assert (Hmem : In (exp_flush x) e).
    { subst e. apply in_map. exact Hin. }
    pose proof (Rsum_ge_member e _ He Hmem). lra. }
  rewrite sum_fin, prod_fin.
  exists (map (fun x => x / Rsum e / Rprod cs) e).
  split; [|split; [|split]].
  - rewrite !map_map. apply map_ext. intros x.
    rewrite npdiv_fin by lra. rewrite npdiv_fin by exact Hc. reflexivity.
  - subst e. rewrite !length_map. apply centredLogWeights_length. exact Hlen.
  - rewrite Forall_map. eapply Forall_impl; [|exact He].
    intros x Hx. simpl.
    replace (x / Rsum e / Rprod cs * Rprod cs) with (x / Rsum e) by (field; lra).
    apply Rmult_le_pos; [exact Hx|]. left. apply Rinv_0_lt_compat. exact HS.
  - replace (map (fun x => x / Rsum e / Rprod cs) e)
      with (map (fun x => x * (/ Rsum e * / Rprod cs)) e)
      by (apply map_ext; intros x; field; lra).
    rewrite Rsum_scale. field. lra.
Qed.

(** A sufficient condition on the inputs: the values
    [logEvidence_i + log(prior_i)] lie within an interval of width 500. *)
Lemma centredLogWeights_in_range lo hi ls ps :
  ls <> [] -> length ls = length ps ->
  hi - lo <= 500 ->
  Forall (fun x => lo <= x <= hi) (Np.zipWith (fun L p => L + ln p) ls ps) ->
  Forall exp_in_range (centredLogWeights ls ps).
Proof.
  intros Hne Hlen Hwidth Hall.
  assert (Hvne : Np.zipWith (fun L p => L + ln p) ls ps <> []).
  { destruct ls as [|l0 ls]; [congruence|]. destruct ps as [|p0 ps]; discriminate. }
  pose proof (centred_bounded lo hi _ Hvne Hall) as Hb.
  unfold centredLogWeights. cbv zeta.
  eapply Forall_impl; [|exact Hb].
  intros x Hx. simpl in Hx. apply exp_in_range_500. lra.
Qed.

Lemma centredLogWeights_sum_in_range lo hi ls ps :
  ls <> [] -> length ls = length ps ->
  hi - lo <= 500 -> (length ls <= 1000)%nat ->
  Forall (fun x => lo <= x <= hi) (Np.zipWith (fun L p => L + ln p) ls ps) ->
  Rsum (map exp (centredLogWeights ls ps)) <= float64_max.
Proof.
  intros Hne Hlen Hwidth Hn Hall.
  assert (Hvne : Np.zipWith (fun L p => L + ln p) ls ps <> []).
  { destruct ls as [|l0 ls]; [congruence|]. destruct ps as [|p0 ps]; discriminate. }
  pose proof (centred_bounded lo hi _ Hvne Hall) as Hb.
  apply sum_exp_in_range.
  - rewrite centredLogWeights_length by exact Hlen. exact Hn.
  - unfold centredLogWeights. cbv zeta. eapply Forall_impl; [|exact Hb].
    intros x Hx. simpl in Hx. lra.
Qed.

Lemma in_range_no_overflow l :
  Forall exp_in_range l -> Forall (fun x => exp x <= float64_max) l.
Proof. apply Forall_impl. intros x [_ H]. exact H. Qed.

(** The distribution of a completed fit, by steps (1)-(5), whether one
    process or several swept the raster. *)
Lemma fit_finished_distribution raster_arg prior fo eo custom silent nJobs pathos self :
  fst (fit raster_arg prior fo eo custom silent nJobs pathos self) = Finished ->
  let v := validated raster_arg prior fo eo custom silent self in
  let self' := snd (fit raster_arg prior fo eo custom silent nJobs pathos self) in
  hyperParameterDistribution self'
  = Some (posteriorDensity_spec (pointLogEvidences fo eo v)
            (arrayOf (hyperParameterPrior v)) (rasterConstant v))
  /\ rasterConstant self' = rasterConstant v.
Proof.
  intros Hfin v self'.
  destruct (fit_finished raster_arg prior fo eo custom silent nJobs pathos self Hfin)
    as (Hfit & Hne & Hlen & Hl & Hp & Hc).
  fold v in Hfit, Hne, Hlen, Hl, Hp, Hc.
  pose proof (aggregate_spec eo (runSweep fo eo silent nJobs pathos v)) as Hagg.
  cbv zeta in Hagg.
  assert (Hfin' : fst (aggregate eo (runSweep fo eo silent nJobs pathos v)) = Finished)
    by (rewrite <- Hfit; exact Hfin).
  destruct (Np.logsumexp _) as [total|]; [|rewrite Hagg in Hfin'; discriminate].
  destruct Hagg as (_ & _ & Hd & _).
  split.
  - subst self'. rewrite Hfit, Hd, Hl, Hp, Hc.
    rewrite computeHyperParameterDistribution_refines. reflexivity.
  - subst self'. rewrite Hfit.
    destruct (aggregate_grid eo (runSweep fo eo silent nJobs pathos v)) as (_ & _ & Ac).
    rewrite Ac. exact Hc.
Qed.

(** C2, as amended.  After a completed fit the hyper-parameter
    distribution is the one derived from the log-evidences of the raster
    points and the prior by steps (1)-(5); when the log-evidences are
    finite, every prior entry is positive, the product of the spacing
    constants is finite and not zero, and the exponentials of step (3)
    and their sum do not overflow, the density summed over the grid and
    multiplied by that product is 1. *)
Theorem fit_hyperParameterDistribution :
  forall raster_arg prior forwardOnly evidenceOnly customRaster silent nJobs
         pathosAvailable self,
    fst (fit raster_arg prior forwardOnly evidenceOnly customRaster silent nJobs
           pathosAvailable self) = Finished ->
    let v := validated raster_arg prior forwardOnly evidenceOnly customRaster silent self in
    let self' := snd (fit raster_arg prior forwardOnly evidenceOnly customRaster silent
                        nJobs pathosAvailable self) in
    hyperParameterDistribution self'
    = Some (posteriorDensity_spec (pointLogEvidences forwardOnly evidenceOnly v)
              (arrayOf (hyperParameterPrior v)) (rasterConstant v))
    /\ rasterConstant self' = rasterConstant v
    /\ (forall ls ps cs,
          pointLogEvidences forwardOnly evidenceOnly v = map Fin ls ->
          arrayOf (hyperParameterPrior v) = map Fin ps ->
          rasterConstant v = map Fin cs ->
          Forall (fun p => 0 < p) ps ->
          Rprod cs <> 0 ->
          Rsum (map exp (centredLogWeights ls ps)) <= float64_max ->
          exists ds,
            hyperParameterDistribution self' = Some (map Fin ds)
            /\ npmul (Np.sum (map Fin ds)) (Np.prod (rasterConstant self')) = Fin 1
            /\ Rsum ds * Rprod cs = 1).
Proof.
  intros ra prior fo eo custom silent nJobs pathos self Hfin v self'.
  destruct (fit_finished ra prior fo eo custom silent nJobs pathos self Hfin)
    as (_ & Hne & Hlen & _).
  fold v in Hne, Hlen.
  destruct (fit_finished_distribution ra prior fo eo custom silent nJobs pathos self Hfin)
    as (Hdist & Hconst).
  fold v in Hdist, Hconst. fold self' in Hdist, Hconst.
  split; [exact Hdist|split; [exact Hconst|]].
  intros ls ps cs Els Eps Ecs Hpos Hprod Hrange.
  assert (Hls : ls <> []).
  { intros ->. unfold pointLogEvidences, pointResults in Els.
    destruct (rasterValues v); [congruence|discriminate]. }
  assert (Hlens : length ls = length ps).
  { rewrite <- (length_map Fin ls), <- Els, <- (length_map Fin ps), <- Eps, Hlen.
    unfold pointLogEvidences, pointResults. rewrite !length_map. reflexivity. }
  destruct (posteriorDensity_normalized ls ps cs Hls Hlens Hpos Hprod
              (sum_no_overflow _ Hrange))
    as (ds & Hds & _ & _ & Hsum).
  exists ds. rewrite Hdist, Hconst, Els, Eps, Ecs, Hds.
  split; [reflexivity|split; [|exact Hsum]].
  rewrite sum_fin, prod_fin. cbn [npmul]. rewrite Hsum. reflexivity.
Qed.

End Posterior.

Module PosteriorExample.
Import Example.

(** The fit of the raster [[["sigma", 0, 1, 3]]] with a uniform prior, at
    the start of its sweep. *)
Definition v3 : RasterStudy := validated [sigma 0 1 3] [] false false false false study0.

Lemma v3_values : rasterValues v3 = [[Fin 0]; [Fin (1 / 2)]; [Fin 1]].
Proof.
  change (rasterValues v3) with (rasterValues PriorExample.prepared3).
  apply PriorExample.prepared3_values.
Qed.

Lemma v3_constant : rasterConstant v3 = [Fin (1 / 2)].
Proof.
  change (rasterConstant v3) with (rasterConstant PriorExample.prepared3).
  apply PriorExample.prepared3_constant.
Qed.

Lemma v3_prior : hyperParameterPrior v3 = Some [Fin (1 / 3); Fin (1 / 3); Fin (1 / 3)].
Proof.
  change (hyperParameterPrior v3)
    with (Some (Np.divide (Np.ones (length (rasterValues PriorExample.prepared3)))
                  (of_nat (length (rasterValues PriorExample.prepared3))))).
  rewrite PriorExample.prepared3_values. cbn [length].
  rewrite uniform_prior_values by discriminate.
  cbn [repeat map INR]. f_equal; np_list.
Qed.

Lemma v3_logEvidences : pointLogEvidences false false v3 = [Fin 0; Fin (1 / 2); Fin 1].
Proof.
  unfold pointLogEvidences, pointResults. rewrite v3_values. reflexivity.
Qed.

Lemma v3_in_range :
  Forall exp_in_range (centredLogWeights [0; 1 / 2; 1] [1 / 3; 1 / 3; 1 / 3]).
Proof.
  apply (centredLogWeights_in_range (ln (1 / 3)) (1 + ln (1 / 3))); try discriminate;
    try reflexivity; [lra|].
  do 3 (constructor; [simpl; lra|]). constructor.
Qed.

Lemma v3_sum_in_range :
  Rsum (map exp (centredLogWeights [0; 1 / 2; 1] [1 / 3; 1 / 3; 1 / 3])) <= float64_max.
Proof.
  apply (centredLogWeights_sum_in_range (ln (1 / 3)) (1 + ln (1 / 3))); try discriminate;
    try reflexivity; [lra|simpl; lia|].
  do 3 (constructor; [simpl; lra|]). constructor.
Qed.

End PosteriorExample.

(** The instance of C2 for the raster [[["sigma", 0, 1, 3]]] with a
    uniform prior. *)
Lemma fit_hyperParameterDistribution_witness :
  let self' :=
    snd (fit (SB := Example.base0) [Example.sigma 0 1 3] [] false false false false 1%Z
           false Example.study0) in
  exists ds,
    hyperParameterDistribution self' = Some (map Fin ds)
    /\ npmul (Np.sum (map Fin ds)) (Np.prod (rasterConstant self')) = Fin 1.
Proof.
  destruct (fit_hyperParameterDistribution (SB := Example.base0)
              [Example.sigma 0 1 3] [] false false false false 1%Z false Example.study0
              eq_refl) as (_ & _ & H).
  destruct (H [0; 1 / 2; 1] [1 / 3; 1 / 3; 1 / 3] [1 / 2]) as (ds & Hd & Hs & _).
  - apply PosteriorExample.v3_logEvidences.
  - fold PosteriorExample.v3. rewrite PosteriorExample.v3_prior. reflexivity.
  - apply PosteriorExample.v3_constant.
  - repeat constructor; lra.
  - simpl. lra.
  - apply PosteriorExample.v3_sum_in_range.
  - exists ds. split; [exact Hd|exact Hs].
Defined.

Module ZeroPriorExample.
Import Example.

(** The fit of the raster [[["sigma", 0, 1, 2]]] with the prior density
    [2 x], which is 0 at the first raster point. *)
Definition prepared2 : RasterStudy :=
  stateOf (prepareRaster [sigma 0 1 2] false false false false study0).

Definition v2 : RasterStudy :=
  validated [sigma 0 1 2] [PriorExample.beta21] false false false false study0.

Lemma prepared2_values : rasterValues prepared2 = [[Fin 0]; [Fin 1]].
Proof.
  unfold prepared2, prepareRaster. cbn -[Np.linspace].
  unfold Np.linspace. cbn [seq map app of_nat npsub npadd npopp].
  unfold of_nat. rewrite npdiv_fin by (simpl; lra).
  cbn [flat_map map app npmul npadd INR].
  np_list.
Qed.

Lemma prepared2_constant : rasterConstant prepared2 = [Fin 1].
Proof.
  unfold prepared2, prepareRaster. cbn -[npdiv INR Rabs].
  rewrite npdiv_fin by (simpl; lra).
  apply cons_eq; [|reflexivity]. apply Fin_eq.
  rewrite Rabs_right by lra. simpl. field.
Qed.

Lemma v2_values : rasterValues v2 = [[Fin 0]; [Fin 1]].
Proof.
  change (rasterValues v2) with (rasterValues prepared2). apply prepared2_values.
Qed.

Lemma v2_constant : rasterConstant v2 = [Fin 1].
Proof.
  change (rasterConstant v2) with (rasterConstant prepared2). apply prepared2_constant.
Qed.

Lemma v2_logEvidences : pointLogEvidences false false v2 = [Fin 0; Fin 1].
Proof.
  unfold pointLogEvidences, pointResults. rewrite v2_values. reflexivity.
Qed.

Lemma v2_prior : hyperParameterPrior v2 = Some [Fin 0; Fin 1].
Proof.
  change (hyperParameterPrior v2)
    with (hyperParameterPrior
            (stateOf (determinePrior [PriorExample.beta21]
               (upd_base (fun b => with_formattedData
                                     (movingWindow (rawData b) (segmentLength b)) b)
                         prepared2)))).
  unfold determinePrior.
  cbn [rasterValues upd_base]. rewrite prepared2_values.
  cbn [length Nat.eqb negb]. cbv zeta.
  cbn [rasterValues with_hyperParameterPrior hyperParameterPrior arrayOf upd_base].
  rewrite prepared2_values.
  cbn [length Np.ones repeat priorLoop PriorExample.beta21 free_symbols pdf map nth
       Np.zipWith npmul Np.sum fold_right npadd stateOf hyperParameterPrior
       with_hyperParameterPrior].
  unfold Np.divide. cbn [map]. rewrite !npdiv_fin by lra.
  f_equal; np_list.
Qed.

(** The density steps (1)-(5) give for these values: [log 0 = -inf], the
    mean is [-inf], and [-inf - (-inf)] is [nan]. *)
Lemma zero_prior_density :
  posteriorDensity_spec [Fin 0; Fin 1] [Fin 0; Fin 1] [Fin 1] = [NaN; NaN].
Proof.
  unfold posteriorDensity_spec. cbn [Np.zipWith].
  rewrite nplog_zero, (nplog_pos 1) by lra.
  cbn [npadd]. unfold Np.mean, of_nat. cbn [Np.sum fold_right npadd length].
  cbn [npdiv]. destruct (Rlt_dec (INR 2) 0) as [H|_]; [simpl in H; exfalso; lra|].
  reflexivity.
Qed.

(** The completed fit stores [[nan, nan]]. *)
Lemma fitted_distribution :
  let result :=
    fit [sigma 0 1 2] [PriorExample.beta21] false false false false 1%Z false study0 in
  hyperParameterDistribution (snd result) = Some [NaN; NaN]
  /\ rasterConstant (snd result) = [Fin 1].
Proof.
  cbv zeta.
  destruct (fit_finished_distribution (SB := base0)
              [sigma 0 1 2] [PriorExample.beta21] false false false false 1%Z false
              study0 eq_refl) as (Hd & Hc).
  cbv zeta in Hd, Hc. fold v2 in Hd, Hc.
  rewrite v2_logEvidences, v2_prior, v2_constant in Hd.
  cbn [arrayOf] in Hd. rewrite zero_prior_density in Hd.
  rewrite v2_constant in Hc. split; assumption.
Qed.

End ZeroPriorExample.

(** C2 as stated fails: for the raster [[["sigma", 0, 1, 2]]] and the
    prior density [2 x] the prior is [[0, 1]]; [log 0 = -inf] makes the
    mean of step (2) [-inf], the subtraction gives [nan] and [inf], and
    the completed fit stores the hyper-parameter distribution
    [[nan, nan]], whose sum times the spacing constant is [nan], not 1. *)
Lemma fit_zero_prior_counterexample :
  let result :=
    fit (SB := Example.base0) [Example.sigma 0 1 2] [PriorExample.beta21] false false false
      false 1%Z false Example.study0 in
  fst result = Finished
  /\ hyperParameterDistribution (snd result) = Some [NaN; NaN]
  /\ npmul (Np.sum [NaN; NaN]) (Np.prod (rasterConstant (snd result))) = NaN.
Proof.
  cbv zeta.
  destruct ZeroPriorExample.fitted_distribution as (Hd & Hc).
  split; [reflexivity|split; [exact Hd|]].
  rewrite Hc. reflexivity.
Qed.

(** ** The evidence of the averaged model (C5) *)

(** An entry of the vector [logEvidence_i + log(prior_i)]: a real number,
    or [-inf] ([None]) where the prior entry is 0. *)
Definition ext_of (o : option R) : npfloat :=
  match o with
  | Some x => Fin x
  | None => NInf
  end.

Definition logWeight (logEvidence_i prior_i : R) : option R :=
  if Rlt_dec 0 prior_i then Some (logEvidence_i + ln prior_i) else None.

Definition omaximum (a b : option R) : option R :=
  match a, b with
  | None, c | c, None => c
  | Some x, Some y => Some (Rmax x y)
  end.

Definition ole (a b : option R) : Prop :=
  match a, b with
  | None, _ => True
  | Some x, Some y => x <= y
  | Some _, None => False
  end.

(** [exp(x - m)] of an entry as [np.exp] returns it where it does not
    overflow, and the exact [exp x]; both 0 for [-inf]. *)
Definition shifted_exp (m : R) (o : option R) : R :=
  match o with
  | Some x => exp_flush (x - m)
  | None => 0
  end.

Definition plain_exp (o : option R) : R :=
  match o with
  | Some x => exp x
  | None => 0
  end.

(** No two of the values [logEvidence_i + log(prior_i)] with a positive
    prior entry lie so far apart that the exponential of their difference
    underflows. *)
Definition spread_in_range (ls ps : list R) : Prop :=
  forall x y,
    In (Some x) (Np.zipWith logWeight ls ps) ->
    In (Some y) (Np.zipWith logWeight ls ps) ->
    float64_tiny <= exp (x - y).

Section LogSumExp.

Lemma npmaximum_ext a b : npmaximum (ext_of a) (ext_of b) = ext_of (omaximum a b).
Proof. destruct a, b; reflexivity. Qed.

Lemma fold_maximum_ext os :
  forall acc,
    fold_left npmaximum (map ext_of os) (ext_of acc) = ext_of (fold_left omaximum os acc).
Proof.
  induction os as [|o os IH]; intros acc; simpl; [reflexivity|].
  rewrite npmaximum_ext. apply IH.
Qed.

Lemma ole_refl a : ole a a.
Proof. destruct a; simpl; [lra|exact I]. Qed.

Lemma ole_trans a b c : ole a b -> ole b c -> ole a c.
Proof. destruct a, b, c; simpl; try tauto; lra. Qed.

Lemma omaximum_l a b : ole a (omaximum a b).
Proof. destruct a, b; simpl; try exact I; try lra. apply Rmax_l. Qed.

Lemma omaximum_r a b : ole b (omaximum a b).
Proof. destruct a, b; simpl; try exact I; try lra. apply Rmax_r. Qed.

Lemma omaximum_choice a b : omaximum a b = a \/ omaximum a b = b.
Proof.
  destruct a as [x|], b as [y|]; simpl; auto.
  unfold Rmax. destruct (Rle_dec x y); auto.
Qed.

Lemma fold_omaximum_spec os :
  forall acc,
    let r := fold_left omaximum os acc in
    ole acc r /\ Forall (fun o => ole o r) os /\ (r = acc \/ In r os).
Proof.
  induction os as [|o os IH]; intros acc; simpl.
  - split; [apply ole_refl|]. split; [constructor|auto].
  - destruct (IH (omaximum acc o)) as (Hacc & Hall & Hin).
    split; [eapply ole_trans; [apply omaximum_l|exact Hacc]|].
    split.
    + constructor; [eapply ole_trans; [apply omaximum_r|exact Hacc]|exact Hall].
    + destruct Hin as [Hin|Hin]; [|right; right; exact Hin].
      destruct (omaximum_choice acc o) as [E|E].
      * left. rewrite Hin. exact E.
      * right; left. rewrite Hin. symmetry; exact E.
Qed.

Lemma Rsum_bound_above l :
  Forall (fun y => y <= 1) l -> Rsum l <= INR (length l).
Proof.
  induction 1 as [|y l Hy _ IH]; [simpl; lra|].
  cbn [length]. rewrite S_INR. simpl. lra.
Qed.

Lemma shifted_exp_plain m o :
  (forall x, o = Some x -> float64_tiny <= exp (x - m)) ->
  shifted_exp m o = plain_exp o * exp (- m).
Proof.
  destruct o as [x|]; simpl; intros H; [|lra].
  specialize (H x eq_refl). unfold exp_flush.
  destruct (Rlt_dec (exp (x - m)) float64_tiny) as [H'|_]; [exfalso; lra|].
  unfold Rminus. apply exp_plus.
Qed.

(** What flushing loses: less than [float64_tiny] per entry. *)
Lemma shifted_exp_bounds m o :
  shifted_exp m o <= plain_exp o * exp (- m) <= shifted_exp m o + float64_tiny.
Proof.
  pose proof float64_tiny_pos as Ht.
  destruct o as [x|]; simpl; [|lra].
  replace (exp x * exp (- m)) with (exp (x - m)) by (unfold Rminus; apply exp_plus).
  unfold exp_flush. pose proof (exp_pos (x - m)).
  destruct (Rlt_dec (exp (x - m)) float64_tiny); lra.
Qed.

Lemma shifted_sum_exact m os :
  (forall x, In (Some x) os -> float64_tiny <= exp (x - m)) ->
  Rsum (map (shifted_exp m) os) = Rsum (map plain_exp os) * exp (- m).
Proof.
  induction os as [|o os IH]; intros H; [simpl; lra|].
  cbn [map Rsum fold_right]. unfold Rsum in IH.
  rewrite IH by (intros x Hx; apply H; right; exact Hx).
  rewrite shifted_exp_plain by (intros x ->; apply H; left; reflexivity).
  lra.
Qed.

Lemma shifted_sum_bounds m os :
  Rsum (map (shifted_exp m) os) <= Rsum (map plain_exp os) * exp (- m)
  <= Rsum (map (shifted_exp m) os) + INR (length os) * float64_tiny.
Proof.
  induction os as [|o os IH]; [simpl; lra|].
  cbn [map Rsum fold_right length]. rewrite S_INR. unfold Rsum in IH.
  pose proof (shifted_exp_bounds m o). lra.
Qed.

(** The log-sum-exp of a vector of reals and [-inf] entries with at least
    one real entry: the maximum is finite and one of the entries, no
    exponent is positive, so that no exponential overflows, and the sum
    handed to [log] lies between 1 and the number of entries. *)
Lemma logsumexp_ext os :
  Exists (fun o => o <> None) os ->
  exists m,
    Np.max (map ext_of os) = Some (Fin m)
    /\ In (Some m) os
    /\ Forall (fun o => ole o (Some m)) os
    /\ map (fun x => npexp (npsub x (Fin m))) (map ext_of os)
       = map Fin (map (shifted_exp m) os)
    /\ Forall (fun t => 0 <= t <= 1) (map (shifted_exp m) os)
    /\ 1 <= Rsum (map (shifted_exp m) os) <= INR (length os)
    /\ Np.logsumexp (map ext_of os)
       = Some (Fin (ln (Rsum (map (shifted_exp m) os)) + m)).
Proof.
  intros Hex.
  destruct os as [|o os]; [inversion Hex|].
  pose proof (fold_omaximum_spec os o) as Hspec. cbv zeta in Hspec.
  destruct Hspec as (Hacc & Hall & Hin).
  assert (Hall' : Forall (fun o' => ole o' (fold_left omaximum os o)) (o :: os))
    by (constructor; assumption).
  assert (Hin' : In (fold_left omaximum os o) (o :: os))
    by (destruct Hin as [->|Hin]; [left; reflexivity|right; exact Hin]).
  destruct (fold_left omaximum os o) as [m|] eqn:Hfold.
  2:{ exfalso. apply Exists_exists in Hex. destruct Hex as (o' & Ho' & Hne).
      rewrite Forall_forall in Hall'. specialize (Hall' o' Ho').
      destruct o'; [exact Hall'|congruence]. }
  exists m.
  assert (Hmax : Np.max (map ext_of (o :: os)) = Some (Fin m)).
  { cbn [map Np.max]. rewrite fold_maximum_ext, Hfold. reflexivity. }
  assert (Hexp : map (fun x => npexp (npsub x (Fin m))) (map ext_of (o :: os))
                 = map Fin (map (shifted_exp m) (o :: os))).
  { rewrite !map_map. apply map_ext_in. intros [x|] Hx; [|reflexivity].
    rewrite Forall_forall in Hall'. specialize (Hall' _ Hx). simpl in Hall'.
    cbn [ext_of npsub npopp npadd npexp shifted_exp].
    apply (exp64_nonpos (x - m)). lra. }
  assert (Hterms : Forall (fun t => 0 <= t <= 1) (map (shifted_exp m) (o :: os))).
  { rewrite Forall_map. eapply Forall_impl; [|exact Hall'].
    intros [x|] Hx; simpl in *; [|lra].
    pose proof (exp_flush_bounds (x - m)).
    destruct (exp64_nonpos (x - m) ltac:(lra)) as (_ & Hle). lra. }
  assert (Hone : In 1 (map (shifted_exp m) (o :: os))).
  { apply in_map_iff. exists (Some m). split; [|exact Hin'].
    simpl. replace (m - m) with 0 by lra.
    destruct (exp_flush_nonneg_arg 0 ltac:(lra)) as (-> & _). apply exp_0. }
  assert (HS : 1 <= Rsum (map (shifted_exp m) (o :: os)) <= INR (length (o :: os))).
  { split.
    - apply Rsum_ge_member; [|exact Hone].
      eapply Forall_impl; [|exact Hterms]. intros t Ht; simpl; lra.
    - rewrite <- (length_map (shifted_exp m)). apply Rsum_bound_above.
      eapply Forall_impl; [|exact Hterms]. intros t Ht; simpl; lra. }
  split; [exact Hmax|]. split; [exact Hin'|]. split; [exact Hall'|]. split; [exact Hexp|].
  split; [exact Hterms|]. split; [exact HS|].
  unfold Np.logsumexp. rewrite Hmax, Hexp, sum_fin.
  rewrite nplog_pos by lra. reflexivity.
Qed.

(** The value [log(sum) + a_max] against the logarithm of the sum of the
    plain exponentials: equal when no exponential is flushed to 0, and in
    any case below it by a relative error of at most the number of
    entries times [float64_tiny]. *)
Lemma logsumexp_value m os :
  In (Some m) os ->
  1 <= Rsum (map (shifted_exp m) os) ->
  let total := ln (Rsum (map (shifted_exp m) os)) + m in
  let Z := Rsum (map plain_exp os) in
  0 < Z
  /\ exp total <= Z <= exp total * (1 + INR (length os) * float64_tiny)
  /\ ((forall x, In (Some x) os -> float64_tiny <= exp (x - m)) -> total = ln Z).
Proof.
  intros Hin HS total Z.
  set (S := Rsum (map (shifted_exp m) os)) in *.
  pose proof (shifted_sum_bounds m os) as Hb. fold S in Hb. fold Z in Hb.
  pose proof (exp_pos m) as Hm. pose proof (exp_pos (- m)) as Hm'.
  assert (Hmm : exp m * exp (- m) = 1) by (rewrite <- exp_plus, Rplus_opp_r; apply exp_0).
  assert (Htot : exp total = S * exp m).
  { subst total. rewrite exp_plus, exp_ln by lra. reflexivity. }
  assert (HZ : Z = Z * exp (- m) * exp m).
  { rewrite Rmult_assoc, (Rmult_comm (exp (- m))), Hmm. lra. }
  assert (HZpos : 0 < Z * exp (- m)) by lra.
  assert (Hn : 0 <= INR (length os) * float64_tiny).
  { apply Rmult_le_pos; [apply pos_INR|left; apply float64_tiny_pos]. }
  assert (HZ0 : 0 < Z) by (rewrite HZ; apply Rmult_lt_0_compat; lra).
  split; [exact HZ0|split].
  - rewrite Htot. split.
    + rewrite HZ. apply Rmult_le_compat_r; lra.
    + rewrite HZ at 1.
      replace (S * exp m * (1 + INR (length os) * float64_tiny))
        with (S * (1 + INR (length os) * float64_tiny) * exp m) by ring.
      apply Rmult_le_compat_r; [lra|]. nra.
  - intros Hrange. subst total.
    pose proof (shifted_sum_exact m os Hrange) as He. fold S in He. fold Z in He.
    rewrite He, ln_mult by lra. rewrite ln_exp. lra.
Qed.

Lemma Some_eq_inv {A : Type} (x y : A) : Some x = Some y -> x = y.
Proof. intros H. injection H as H. exact H. Qed.

Lemma logWeight_ext L p :
  0 <= p -> npadd (Fin L) (nplog (Fin p)) = ext_of (logWeight L p).
Proof.
  intros Hp. unfold logWeight. destruct (Rlt_dec 0 p) as [Hpos|Hnpos].
  - rewrite nplog_pos by exact Hpos. reflexivity.
  - replace p with 0 by lra. rewrite nplog_zero. reflexivity.
Qed.

Lemma logWeight_plain L p : 0 <= p -> plain_exp (logWeight L p) = exp L * p.
Proof.
  intros Hp. unfold logWeight. destruct (Rlt_dec 0 p) as [Hpos|Hnpos]; simpl.
  - rewrite exp_plus, exp_ln by exact Hpos. reflexivity.
  - replace p with 0 by lra. lra.
Qed.

End LogSumExp.

Section Evidence.

Context `{SB : StudyBase}.

Lemma map_zipWith {A B C D : Type} (g : C -> D) (f : A -> B -> C) u v :
  map g (Np.zipWith f u v) = Np.zipWith (fun a b => g (f a b)) u v.
Proof.
  revert v. induction u as [|a u IH]; intros [|b v]; simpl; try reflexivity.
  f_equal. apply IH.
Qed.

Lemma zipWith_length_min {A B C : Type} (f : A -> B -> C) u v :
  length (Np.zipWith f u v) = Nat.min (length u) (length v).
Proof.
  revert v. induction u as [|a u IH]; intros [|b v]; simpl; try reflexivity.
  f_equal. apply IH.
Qed.

Lemma logWeights_exist ls ps :
  length ls = length ps ->
  Forall (fun p => 0 <= p) ps -> 0 < Rsum ps ->
  Exists (fun o => o <> None) (Np.zipWith logWeight ls ps).
Proof.
  intros Hlen Hall. revert ls Hlen.
  induction Hall as [|p ps Hp Hps IH]; intros ls Hlen Hsum; [simpl in Hsum; lra|].
  destruct ls as [|l ls]; [discriminate|]. cbn [Np.zipWith].
  destruct (Rlt_dec 0 p) as [Hpos|Hnpos].
  - left. unfold logWeight. destruct (Rlt_dec 0 p); [discriminate|contradiction].
  - right. apply IH; [simpl in Hlen; lia|]. simpl in Hsum. lra.
Qed.

(** The total log-evidence of a completed fit is the log-sum-exp of the
    vector [logEvidence_i + log(prior_i)]. *)
Lemma fit_finished_logEvidence raster_arg prior fo eo custom silent nJobs pathos self :
  fst (fit raster_arg prior fo eo custom silent nJobs pathos self) = Finished ->
  let v := validated raster_arg prior fo eo custom silent self in
  let self' := snd (fit raster_arg prior fo eo custom silent nJobs pathos self) in
  Np.logsumexp
    (Np.zipWith (fun logEvidence_i prior_i => npadd logEvidence_i (nplog prior_i))
       (pointLogEvidences fo eo v) (arrayOf (hyperParameterPrior v)))
  = Some (logEvidence (base self')).
Proof.
  intros Hfin v self'.
  destruct (fit_finished raster_arg prior fo eo custom silent nJobs pathos self Hfin)
    as (Hfit & _ & _ & Hl & Hp & _).
  fold v in Hfit, Hl, Hp.
  pose proof (aggregate_spec eo (runSweep fo eo silent nJobs pathos v)) as Hagg.
  cbv zeta in Hagg.
  assert (Hfin' : fst (aggregate eo (runSweep fo eo silent nJobs pathos v)) = Finished)
    by (rewrite <- Hfit; exact Hfin).
  rewrite Hl, Hp in Hagg. unfold Np.add in Hagg. rewrite zipWith_map_r in Hagg.
  destruct (Np.logsumexp _) as [total|]; [|rewrite Hagg in Hfin'; discriminate].
  destruct Hagg as (_ & Htotal & _).
  subst self'. rewrite Hfit, Htotal. reflexivity.
Qed.


End Evidence.

(** A sufficient condition on the inputs: the values
    [logEvidence_i + log(prior_i)] lie within an interval of width 500. *)
Lemma spread_in_range_bounded lo hi ls ps :
  hi - lo <= 500 ->
  Forall (fun x => lo <= x <= hi) (Np.zipWith (fun L p => L + ln p) ls ps) ->
  spread_in_range ls ps.
Proof.
  intros Hwidth Hall.
  assert (Hin : forall x, In (Some x) (Np.zipWith logWeight ls ps) -> lo <= x <= hi).
  { clear Hwidth. revert ps Hall.
    induction ls as [|L ls IH]; intros [|p ps] Hall x Hx; try contradiction.
    cbn [Np.zipWith] in Hall, Hx. inversion Hall as [|? ? Hhead Htail]; subst.
    destruct Hx as [Hx|Hx]; [|exact (IH ps Htail x Hx)].
    unfold logWeight in Hx. destruct (Rlt_dec 0 p); [|discriminate].
    inversion Hx; subst. exact Hhead. }
  intros x y Hx Hy. pose proof (Hin x Hx). pose proof (Hin y Hy).
  apply exp_in_range_500. lra.
Qed.

Module WideExample.
Import Example.













End WideExample.



(** ** The averaged posterior sequence (C3) *)

Section Average.

Context `{SB : StudyBase}.

Lemma sweep_average fo self :
  arrayOf (averagePosteriorSequence (sweep fo false self))
  = accumulate
      (nth 0 (logEvidenceList self
              ++ map res_logEvidence (pointResults fo false (base self) (rasterValues self)))
           NaN)
      (pointResults fo false (base self) (rasterValues self))
      (map (fun j => nth j (arrayOf (hyperParameterPrior self)) NaN)
           (seq 0 (length (rasterValues self))))
      (arrayOf (averagePosteriorSequence self)).
Proof.
  unfold sweep, enumerate.
  pose proof (sweep_fold fo false (rasterValues self) 0 self) as H. cbv zeta in H.
  destruct H as (_ & _ & _ & _ & Ha). rewrite Ha.
  destruct (rasterValues self); reflexivity.
Qed.

Lemma sweep_average_some fo self a :
  averagePosteriorSequence self = Some a ->
  exists a', averagePosteriorSequence (sweep fo false self) = Some a'.
Proof.
  intros Ha. unfold sweep, enumerate.
  pose proof (sweep_fold fo false (rasterValues self) 0 self) as H. cbv zeta in H.
  destruct H as (_ & _ & _ & _ & Hs). rewrite Hs.
  destruct (rasterValues self); eauto.
Qed.

(** Whether [fit] sweeps the raster in its own process. *)
Definition singleProcess (nJobs : Z) (pathosAvailable : bool) : bool :=
  negb (1 <? (if (1 <? nJobs)%Z && negb pathosAvailable then 1%Z else nJobs))%Z.

Lemma singleProcess_iff nJobs pathos :
  singleProcess nJobs pathos = true <-> (nJobs <= 1)%Z \/ pathos = false.
Proof.
  unfold singleProcess.
  destruct (1 <? nJobs)%Z eqn:Hn; destruct pathos; simpl.
  - rewrite Hn. simpl. apply Z.ltb_lt in Hn. split; [discriminate|].
    intros [H|H]; [lia|discriminate].
  - split; auto.
  - rewrite Hn. simpl. apply Z.ltb_ge in Hn. split; auto.
  - rewrite Hn. simpl. split; auto.
Qed.

Lemma runSweep_single fo eo silent nJobs pathos self :
  singleProcess nJobs pathos = true ->
  runSweep fo eo silent nJobs pathos self = sweep fo eo self.
Proof.
  unfold singleProcess, runSweep. cbv zeta.
  destruct (1 <? _)%Z; [discriminate|reflexivity].
Qed.

(** The averaged posterior sequence of a completed single-process fit:
    the accumulator, seeded with zeros and anchored at the log-evidence of
    the first raster point, normalized at every time step. *)
Lemma fit_finished_average raster_arg prior fo silent nJobs pathos custom self :
  fst (fit raster_arg prior fo false custom silent nJobs pathos self) = Finished ->
  singleProcess nJobs pathos = true ->
  let v := validated raster_arg prior fo false custom silent self in
  let self' := snd (fit raster_arg prior fo false custom silent nJobs pathos self) in
  let rs := pointResults fo false (base v) (rasterValues v) in
  averagePosteriorSequence self'
  = Some (normalizeSequence
            (accumulate (nth 0 (map res_logEvidence rs) NaN) rs
               (arrayOf (hyperParameterPrior v))
               (Np.zeros2 (length (formattedData (base v))) (Np.nat_prod (gridSize (base v))))))
  /\ posteriorSequence (base self') = arrayOf (averagePosteriorSequence self').
Proof.
  intros Hfin Hsingle v self' rs.
  destruct (fit_finished raster_arg prior fo false custom silent nJobs pathos self Hfin)
    as (Hfit & _ & Hlen & _).
  fold v in Hfit, Hlen.
  rewrite (runSweep_single fo false silent nJobs pathos v Hsingle) in Hfit.
  pose proof (aggregate_spec false (sweep fo false v)) as Hagg. cbv zeta in Hagg.
  assert (Hfin' : fst (aggregate false (sweep fo false v)) = Finished)
    by (rewrite <- Hfit; exact Hfin).
  assert (Hpost : posteriorSequence (base (snd (aggregate false (sweep fo false v))))
                  = arrayOf (averagePosteriorSequence
                               (snd (aggregate false (sweep fo false v))))).
  { unfold aggregate. cbv zeta. destruct (Np.logsumexp _); reflexivity. }
  destruct (Np.logsumexp _) as [total|]; [|rewrite Hagg in Hfin'; discriminate].
  destruct Hagg as (_ & _ & _ & Ha).
  subst self'. rewrite Hfit. split; [|exact Hpost].
  rewrite Ha, sweep_average.
  assert (Hv : logEvidenceList v = []
               /\ averagePosteriorSequence v
                  = Some (Np.zeros2 (length (formattedData (base v)))
                            (Np.nat_prod (gridSize (base v))))).
  { unfold v, validated, initSweep. cbn. auto. }
  destruct Hv as (Hl & Hz). rewrite Hl, Hz. cbn [app arrayOf].
  rewrite <- Hlen, nth_all. reflexivity.
Qed.

End Average.




Section AverageNormalized.

Lemma add_fin u v : Np.add (map Fin u) (map Fin v) = map Fin (Np.zipWith Rplus u v).
Proof.
  unfold Np.add. revert v. induction u as [|a u IH]; intros [|b v]; simpl; try reflexivity.
  f_equal. apply IH.
Qed.


Lemma Rsum_zipWith_plus u v :
  length u = length v -> Rsum (Np.zipWith Rplus u v) = Rsum u + Rsum v.
Proof.
  revert v. induction u as [|a u IH]; intros [|b v] H; try discriminate.
  - simpl. lra.
  - simpl. rewrite IH by (simpl in H; lia). lra.
Qed.







End AverageNormalized.


(** ** Several worker processes (C1) *)

Section ParallelAverage.

Context `{SB : StudyBase}.

Lemma merge_average subStudies :
  forall self,
    arrayOf (averagePosteriorSequence (fold_left (mergeStudy false) subStudies self))
    = fold_left Np.add2 (map (fun S => arrayOf (averagePosteriorSequence S)) subStudies)
        (arrayOf (averagePosteriorSequence self)).
Proof.
  induction subStudies as [|S subStudies IH]; intros self; [reflexivity|].
  cbn [fold_left map]. rewrite IH. reflexivity.
Qed.

Lemma slices_map {A B : Type} (f : A -> B) sizes (l : list A) :
  Np.slices sizes (map f l) = map (map f) (Np.slices sizes l).
Proof.
  revert l. induction sizes as [|m sizes IH]; intros l; simpl; [reflexivity|].
  rewrite <- firstn_map, skipn_map, IH. reflexivity.
Qed.

Lemma shard_map {A B : Type} (f : A -> B) idx n (l : list A) :
  shard idx n (map f l) = map f (shard idx n l).
Proof.
  unfold shard, Np.array_split. rewrite length_map, slices_map.
  change (@nil B) with (map f (@nil A)). apply map_nth.
Qed.

Lemma shard_length {A B : Type} idx n (l1 : list A) (l2 : list B) :
  length l1 = length l2 -> length (shard idx n l1) = length (shard idx n l2).
Proof.
  intros Hlen.
  rewrite <- (length_map (fun _ => tt) (shard idx n l1)).
  rewrite <- (length_map (fun _ => tt) (shard idx n l2)).
  rewrite <- !shard_map. f_equal. f_equal.
  revert l2 Hlen. induction l1 as [|a l1 IH]; intros [|b l2] Hlen; try discriminate.
  - reflexivity.
  - simpl. f_equal. apply IH. simpl in Hlen. lia.
Qed.

(** The accumulator a worker returns for its section of the raster: it is
    anchored at the log-evidence of the first point of the section. *)
Definition shardAccumulator (forwardOnly : bool) (v : RasterStudy) (nJobs idx : nat)
  : list (list npfloat) :=
  let rs := pointResults forwardOnly false (base v) (shard idx nJobs (rasterValues v)) in
  accumulate (nth 0 (map res_logEvidence rs) NaN) rs
    (shard idx nJobs (arrayOf (hyperParameterPrior v)))
    (arrayOf (averagePosteriorSequence v)).

Lemma parallelFit_average idx n fo silent v :
  logEvidenceList v = [] ->
  length (arrayOf (hyperParameterPrior v)) = length (rasterValues v) ->
  arrayOf (averagePosteriorSequence (parallelFit idx n fo false silent v))
  = shardAccumulator fo v n idx.
Proof.
  intros Hl Hlen. unfold parallelFit. cbv zeta. rewrite sweep_average.
  cbn [logEvidenceList with_hyperParameterPrior with_rasterValues base rasterValues
       hyperParameterPrior arrayOf averagePosteriorSequence].
  rewrite Hl. cbn [app]. unfold shardAccumulator, shard. cbv zeta.
  f_equal.
  fold (shard idx n (rasterValues v)). fold (shard idx n (arrayOf (hyperParameterPrior v))).
  rewrite <- (shard_length idx n _ _ Hlen). apply nth_all.
Qed.

(** The averaged posterior sequence of a completed fit that used worker
    processes: the accumulators of the sections, added up and
    normalized. *)
Lemma fit_finished_average_parallel raster_arg prior fo silent nJobs pathos custom self :
  fst (fit raster_arg prior fo false custom silent nJobs pathos self) = Finished ->
  singleProcess nJobs pathos = false ->
  let v := validated raster_arg prior fo false custom silent self in
  let self' := snd (fit raster_arg prior fo false custom silent nJobs pathos self) in
  averagePosteriorSequence self'
  = Some (normalizeSequence
            (fold_left Np.add2
               (map (shardAccumulator fo v (Z.to_nat nJobs)) (seq 0 (Z.to_nat nJobs)))
               (arrayOf (averagePosteriorSequence v)))).
Proof.
  intros Hfin Hmulti v self'.
  destruct (fit_finished raster_arg prior fo false custom silent nJobs pathos self Hfin)
    as (Hfit & _ & Hlen & _).
  fold v in Hfit, Hlen.
  assert (Hl : logEvidenceList v = []) by (unfold v, validated, initSweep; reflexivity).
  unfold runSweep in Hfit. cbv zeta in Hfit.
  unfold singleProcess in Hmulti.
  set (n := if (1 <? nJobs)%Z && negb pathos then 1%Z else nJobs) in *.
  assert (Hn : (1 <? n)%Z = true) by (destruct (1 <? n)%Z; [reflexivity|discriminate]).
  assert (Hnn : n = nJobs).
  { subst n. destruct ((1 <? nJobs)%Z && negb pathos); [discriminate|reflexivity]. }
  rewrite Hn in Hfit. rewrite Hnn in Hfit.
  pose proof (aggregate_spec false
                (fold_left (mergeStudy false)
                   (map (fun idx => parallelFit idx (Z.to_nat nJobs) fo false silent v)
                        (seq 0 (Z.to_nat nJobs))) v)) as Hagg.
  cbv zeta in Hagg.
  assert (Hfin' : fst (aggregate false
                         (fold_left (mergeStudy false)
                            (map (fun idx => parallelFit idx (Z.to_nat nJobs) fo false silent v)
                                 (seq 0 (Z.to_nat nJobs))) v)) = Finished)
    by (rewrite <- Hfit; exact Hfin).
  destruct (Np.logsumexp _) as [total|]; [|rewrite Hagg in Hfin'; discriminate].
  destruct Hagg as (_ & _ & _ & Ha).
  subst self'. rewrite Hfit, Ha, merge_average, map_map.
  do 2 f_equal. f_equal.
  apply map_ext. intros idx. apply parallelFit_average; assumption.
Qed.

End ParallelAverage.

Section AverageOfFit.

Context `{SB : StudyBase}.

Lemma fit_posteriorSequence raster_arg prior fo custom silent nJobs pathos self :
  fst (fit raster_arg prior fo false custom silent nJobs pathos self) = Finished ->
  let self' := snd (fit raster_arg prior fo false custom silent nJobs pathos self) in
  posteriorSequence (base self') = arrayOf (averagePosteriorSequence self').
Proof.
  intros Hfin self'.
  destruct (fit_finished raster_arg prior fo false custom silent nJobs pathos self Hfin)
    as (Hfit & _).
  subst self'. rewrite Hfit. unfold aggregate. cbv zeta.
  destruct (Np.logsumexp _); reflexivity.
Qed.


End AverageOfFit.

Module ParallelExample.
Import Example.

(** The fit of the raster [[["sigma", 0, 1, 2]]] with a uniform prior: two
    raster points with the log-evidences 0 and 1 and the posteriors
    [[0, 1]] and [[1, 0]]. *)
Definition v : RasterStudy := validated [sigma 0 1 2] [] false false false false study0.

Lemma v_values : rasterValues v = [[Fin 0]; [Fin 1]].
Proof.
  change (rasterValues v) with (rasterValues ZeroPriorExample.prepared2).
  apply ZeroPriorExample.prepared2_values.
Qed.

Lemma v_prior : hyperParameterPrior v = Some [Fin (1 / 2); Fin (1 / 2)].
Proof.
  change (hyperParameterPrior v)
    with (Some (Np.divide (Np.ones (length (rasterValues ZeroPriorExample.prepared2)))
                  (of_nat (length (rasterValues ZeroPriorExample.prepared2))))).
  rewrite ZeroPriorExample.prepared2_values. cbn [length].
  rewrite uniform_prior_values by discriminate.
  cbn [repeat map INR]. f_equal; np_list.
Qed.

Lemma v_results :
  pointResults false false (base v) (rasterValues v)
  = [ {| res_logEvidence := Fin 0; res_localEvidence := [Fin 0];
         res_posteriorSequence := [[Fin 0; Fin 1]] |};
      {| res_logEvidence := Fin 1; res_localEvidence := [Fin 1];
         res_posteriorSequence := [[Fin 1; Fin 0]] |} ].
Proof.
  rewrite v_values. unfold pointResults, pointResult. cbn [map filtering base0].
  unfold filtering0. cbn [nth npsub npopp npadd].
  replace (1 + - 0) with 1 by lra. replace (1 + - (1)) with 0 by lra. reflexivity.
Qed.

Lemma v_zeros : averagePosteriorSequence v = Some [[Fin 0; Fin 0]].
Proof. reflexivity. Qed.

Lemma v_shape :
  Np.zeros2 (length (formattedData (base v))) (Np.nat_prod (gridSize (base v)))
  = [[Fin 0; Fin 0]].
Proof. reflexivity. Qed.

(** One process: both points are weighted relative to the first. *)
Lemma single_accumulator :
  accumulate (Fin 0)
    [ {| res_logEvidence := Fin 0; res_localEvidence := [Fin 0];
         res_posteriorSequence := [[Fin 0; Fin 1]] |};
      {| res_logEvidence := Fin 1; res_localEvidence := [Fin 1];
         res_posteriorSequence := [[Fin 1; Fin 0]] |} ]
    [Fin (1 / 2); Fin (1 / 2)] [[Fin 0; Fin 0]]
  = [[Fin (exp 1 / 2); Fin (1 / 2)]].
Proof.
  unfold accumulate, weightedPosterior.
  cbn [combine fold_left fst snd map res_logEvidence res_posteriorSequence].
  unfold npsub. cbn [npopp npadd npexp].
  rewrite !exp64_in_range by (apply exp_in_range_500; lra).
  cbn [Np.scale Np.add2 Np.add Np.zipWith npmul npadd map].
  replace (0 + - 0) with 0 by lra. replace (1 + - 0) with 1 by lra.
  rewrite exp_0. np_list.
Qed.

(** Two processes: each section is weighted relative to its own first
    point. *)
Lemma shard_accumulators :
  accumulate (Fin 0)
    [ {| res_logEvidence := Fin 0; res_localEvidence := [Fin 0];
         res_posteriorSequence := [[Fin 0; Fin 1]] |} ]
    [Fin (1 / 2)] [[Fin 0; Fin 0]]
  = [[Fin 0; Fin (1 / 2)]]
  /\ accumulate (Fin 1)
       [ {| res_logEvidence := Fin 1; res_localEvidence := [Fin 1];
            res_posteriorSequence := [[Fin 1; Fin 0]] |} ]
       [Fin (1 / 2)] [[Fin 0; Fin 0]]
     = [[Fin (1 / 2); Fin 0]].
Proof.
  unfold accumulate, weightedPosterior.
  cbn [combine fold_left fst snd map res_logEvidence res_posteriorSequence].
  unfold npsub. cbn [npopp npadd npexp].
  rewrite !exp64_in_range by (apply exp_in_range_500; lra).
  cbn [Np.scale Np.add2 Np.add Np.zipWith npmul npadd map].
  replace (0 + - 0) with 0 by lra. replace (1 + - (1)) with 0 by lra.
  rewrite exp_0. split; np_list.
Qed.

Lemma v_shards :
  shardAccumulator false v 2 0 = [[Fin 0; Fin (1 / 2)]]
  /\ shardAccumulator false v 2 1 = [[Fin (1 / 2); Fin 0]].
Proof.
  destruct shard_accumulators as (H0 & H1).
  unfold shardAccumulator. cbv zeta. rewrite v_values, v_prior, v_zeros.
  cbn [arrayOf].
  change (shard 0 2 [[Fin 0]; [Fin 1]]) with [[Fin 0]].
  change (shard 1 2 [[Fin 0]; [Fin 1]]) with [[Fin 1]].
  change (shard 0 2 [Fin (1 / 2); Fin (1 / 2)]) with [Fin (1 / 2)].
  change (shard 1 2 [Fin (1 / 2); Fin (1 / 2)]) with [Fin (1 / 2)].
  unfold pointResults, pointResult. cbn [map filtering base0].
  unfold filtering0. cbn [nth npsub npopp npadd res_logEvidence].
  replace (1 + - 0) with 1 by lra. replace (1 + - (1)) with 0 by lra.
  split; assumption.
Qed.

(** The sequence the accumulation anchored at the first raster point
    gives, normalized. *)
Lemma anchored_average :
  normalizeSequence
    (accumulate (nth 0 (map res_logEvidence
                          (pointResults false false (base v) (rasterValues v))) NaN)
       (pointResults false false (base v) (rasterValues v))
       (arrayOf (hyperParameterPrior v))
       (Np.zeros2 (length (formattedData (base v))) (Np.nat_prod (gridSize (base v)))))
  = [[Fin (exp 1 / (exp 1 + 1)); Fin (1 / (exp 1 + 1))]].
Proof.
  pose proof (exp_pos 1) as He.
  rewrite v_results, v_prior, v_shape.
  cbn [map res_logEvidence nth arrayOf].
  rewrite single_accumulator.
  unfold normalizeSequence, Np.divide.
  cbn [map Np.sum fold_right npadd]. rewrite !npdiv_fin by lra.
  np_list; lra.
Qed.

Lemma single_average :
  averagePosteriorSequence
    (snd (fit [sigma 0 1 2] [] false false false false 1%Z true study0))
  = Some [[Fin (exp 1 / (exp 1 + 1)); Fin (1 / (exp 1 + 1))]].
Proof.
  destruct (fit_finished_average (SB := base0) [sigma 0 1 2] [] false false 1%Z true false
              study0
              eq_refl eq_refl) as (H & _).
  cbv zeta in H. fold v in H. rewrite H, anchored_average. reflexivity.
Qed.

Lemma parallel_average :
  averagePosteriorSequence
    (snd (fit [sigma 0 1 2] [] false false false false 2%Z true study0))
  = Some [[Fin (1 / 2); Fin (1 / 2)]].
Proof.
  pose proof (fit_finished_average_parallel (SB := base0) [sigma 0 1 2] [] false false
                2%Z true false study0 eq_refl eq_refl) as H.
  cbv zeta in H. fold v in H.
  change (seq 0 (Z.to_nat 2)) with [0%nat; 1%nat] in H.
  change (Z.to_nat 2) with 2%nat in H.
  destruct v_shards as (H0 & H1).
  cbn [map] in H. rewrite H0, H1, v_zeros in H.
  rewrite H. f_equal. unfold normalizeSequence, Np.divide.
  cbn [arrayOf fold_left Np.add2 Np.add Np.zipWith npadd map Np.sum fold_right].
  rewrite !npdiv_fin by lra.
  np_list; lra.
Qed.


Lemma averages_differ : 1 / (exp 1 + 1) < 1 / 2.
Proof.
  pose proof (exp_ineq1 1 ltac:(lra)) as He.
  apply Rmult_lt_reg_r with (exp 1 + 1); [lra|].
  unfold Rdiv. rewrite Rmult_assoc, Rinv_l by lra. lra.
Qed.

End ParallelExample.


Module SteepExample.
Import Example.

(** A filtering routine whose log-evidence rises steeply with the first
    hyper-parameter value [v]: it is [2000 v]; the posterior of the single
    time step is [[v, 1 - v]]. *)
Definition filtering_steep (_ : list (list npfloat)) (_ : list string)
  (values : list npfloat) (_ _ : bool) : FitResult :=
  let v := nth 0 values (Fin 0) in
  {| res_logEvidence := npmul (Fin 2000) v;
     res_localEvidence := [v];
     res_posteriorSequence := [[v; npsub (Fin 1) v]] |}.

Definition base_steep : StudyBase :=
  {| movingWindow := fun data _ => map (fun x => [x]) data;
     checkConsistency := fun _ => true;
     filtering := filtering_steep |}.

(** The fit of the raster [[["sigma", 0, 1, 2]]] with a uniform prior: two
    raster points with the log-evidences 0 and 2000 and the posteriors
    [[0, 1]] and [[1, 0]]. *)
Definition v : RasterStudy :=
  validated (SB := base_steep) [sigma 0 1 2] [] false false false false study0.







End SteepExample.


(** C1 fails on the code.  For the raster [[["sigma", 0, 1, 2]]] with a
    uniform prior and a filtering routine whose log-evidences at the two
    points are 0 and 1 and whose posteriors are [[0, 1]] and [[1, 0]], the
    single-process fit averages to [[e/(e+1), 1/(e+1)]], the fit with two
    workers to [[1/2, 1/2]]: [parallelFit] weights the points of a section
    relative to the first point of that section, not relative to the first
    point of the raster. *)
Theorem parallel_fit_average_diverges :
  averagePosteriorSequence
    (snd (fit (SB := Example.base0) [Example.sigma 0 1 2] [] false false false false 1%Z
            true Example.study0))
  = Some [[Fin (exp 1 / (exp 1 + 1)); Fin (1 / (exp 1 + 1))]]
  /\ averagePosteriorSequence
       (snd (fit (SB := Example.base0) [Example.sigma 0 1 2] [] false false false false 2%Z
               true Example.study0))
     = Some [[Fin (1 / 2); Fin (1 / 2)]]
  /\ 1 / (exp 1 + 1) < 1 / 2.
Proof.
  split; [exact ParallelExample.single_average|].
  split; [exact ParallelExample.parallel_average|].
  exact ParallelExample.averages_differ.
Qed.

(** ** Marginal distributions (C8) *)

(** Elementwise sum of rows of real numbers. *)
Definition vsumR (m : nat) (rows : list (list R)) : list R :=
  fold_right (Np.zipWith Rplus) (repeat 0 m) rows.

(** The sum of the entries of a C-ordered array of the given shape whose
    index along [axis] is [j]: the sum over all other dimensions. *)
Fixpoint pickR (shape : list nat) (axis j : nat) (flat : list R) : R :=
  match shape with
  | [] => 0
  | n :: rest =>
      match axis with
      | O => Rsum (nth j (Np.chunks (Np.nat_prod rest) n flat) [])
      | S axis' =>
          Rsum (map (pickR rest axis' j) (Np.chunks (Np.nat_prod rest) n flat))
      end
  end.

(** The marginal as the specification words it: for every index along the
    kept axis, the density summed over all other dimensions. *)
Definition marginalSums (shape : list nat) (axis : nat) (flat : list R) : list R :=
  map (fun j => pickR shape axis j flat) (seq 0 (nth axis shape 0%nat)).

(** The marginal as [np.apply_over_axes] reaches it: the first axis is
    summed away unless it is the kept one. *)
Fixpoint marginalR (shape : list nat) (axis : nat) (flat : list R) : list R :=
  match shape with
  | [] => flat
  | n :: rest =>
      match axis with
      | O => map Rsum (Np.chunks (Np.nat_prod rest) n flat)
      | S axis' =>
          marginalR rest axis' (vsumR (Np.nat_prod rest) (Np.chunks (Np.nat_prod rest) n flat))
      end
  end.

(** The axes other than [p] among [D], in increasing order. *)
Definition otherAxes (p D : nat) : list nat := seq 0 p ++ seq (S p) (D - S p).

Section Chunks.

Context {A : Type}.

Lemma chunks_length m n (l : list A) : length (Np.chunks m n l) = n.
Proof. revert l. induction n as [|n IH]; intros l; simpl; [reflexivity|f_equal; apply IH]. Qed.

Lemma chunks_all m n (l : list A) :
  length l = (n * m)%nat -> Forall (fun c => length c = m) (Np.chunks m n l).
Proof.
  revert l. induction n as [|n IH]; intros l Hlen; simpl; constructor.
  - rewrite length_firstn. simpl in Hlen. lia.
  - apply IH. rewrite length_skipn. simpl in Hlen. lia.
Qed.

Lemma chunks_concat m n (l : list A) :
  length l = (n * m)%nat -> concat (Np.chunks m n l) = l.
Proof.
  revert l. induction n as [|n IH]; intros l Hlen; simpl.
  - simpl in Hlen. destruct l; [reflexivity|discriminate].
  - rewrite IH by (rewrite length_skipn; simpl in Hlen; lia).
    apply firstn_skipn.
Qed.

Lemma chunks_of_concat m (ls : list (list A)) :
  Forall (fun c => length c = m) ls -> Np.chunks m (length ls) (concat ls) = ls.
Proof.
  induction 1 as [|c ls Hc _ IH]; [reflexivity|].
  cbn [length concat Np.chunks].
  rewrite firstn_app, <- Hc, firstn_all, Nat.sub_diag, firstn_O, app_nil_r.
  f_equal. rewrite skipn_app, skipn_all, Nat.sub_diag. cbn [skipn app].
  rewrite Hc. exact IH.
Qed.

Lemma chunks_map {B : Type} (f : A -> B) m n (l : list A) :
  Np.chunks m n (map f l) = map (map f) (Np.chunks m n l).
Proof.
  revert l. induction n as [|n IH]; intros l; simpl; [reflexivity|].
  rewrite <- firstn_map, skipn_map, IH. reflexivity.
Qed.

Lemma chunks_one m (l : list A) : length l = m -> Np.chunks m 1 l = [l].
Proof. intros <-. simpl. rewrite firstn_all. reflexivity. Qed.

Lemma concat_length_all m (ls : list (list A)) :
  Forall (fun c => length c = m) ls -> length (concat ls) = (length ls * m)%nat.
Proof.
  induction 1 as [|c ls Hc _ IH]; [reflexivity|].
  cbn [concat length]. rewrite length_app, IH, Hc. reflexivity.
Qed.

End Chunks.

Section SumAxis.

Lemma add_length u v : length u = length v -> length (Np.add u v) = length u.
Proof. apply zipWith_length. Qed.

Lemma vsum_cons m c rows : Np.vsum m (c :: rows) = Np.add c (Np.vsum m rows).
Proof. reflexivity. Qed.

Lemma vsumR_cons m c rows : vsumR m (c :: rows) = Np.zipWith Rplus c (vsumR m rows).
Proof. reflexivity. Qed.

Lemma vsum_length m rows :
  Forall (fun c => length c = m) rows -> length (Np.vsum m rows) = m.
Proof.
  induction 1 as [|c rows Hc _ IH].
  - apply repeat_length.
  - rewrite vsum_cons, add_length; [exact Hc|]. rewrite IH. exact Hc.
Qed.

Lemma vsumR_length m rows :
  Forall (fun c => length c = m) rows -> length (vsumR m rows) = m.
Proof.
  induction 1 as [|c rows Hc _ IH].
  - apply repeat_length.
  - rewrite vsumR_cons, zipWith_length; [exact Hc|]. rewrite IH. exact Hc.
Qed.

Lemma vsum_fin m rows : Np.vsum m (map (map Fin) rows) = map Fin (vsumR m rows).
Proof.
  induction rows as [|c rows IH].
  - cbn. unfold Np.zeros. rewrite map_repeat. reflexivity.
  - cbn [map]. rewrite vsum_cons, vsumR_cons, IH. apply add_fin.
Qed.

Lemma Rsum_vsumR m rows :
  Forall (fun c => length c = m) rows -> Rsum (vsumR m rows) = Rsum (map Rsum rows).
Proof.
  induction 1 as [|c rows Hc Hall IH].
  - cbn. rewrite Rsum_repeat. lra.
  - cbn [map]. rewrite vsumR_cons, Rsum_zipWith_plus.
    + rewrite IH. reflexivity.
    + rewrite (vsumR_length m rows Hall). exact Hc.
Qed.

Lemma nat_prod_collapse_cons n rest a :
  Np.nat_prod (Np.collapse (n :: rest) (S a)) = (n * Np.nat_prod (Np.collapse rest a))%nat.
Proof. reflexivity. Qed.

Lemma sum_axis_length shape :
  forall axis flat,
    length flat = Np.nat_prod shape ->
    length (Np.sum_axis shape axis flat) = Np.nat_prod (Np.collapse shape axis).
Proof.
  induction shape as [|n rest IH]; intros axis flat Hlen.
  - destruct axis; exact Hlen.
  - change (Np.nat_prod (n :: rest)) with (n * Np.nat_prod rest)%nat in Hlen.
    destruct axis as [|axis]; cbn [Np.sum_axis Np.collapse].
    + rewrite vsum_length by (apply chunks_all; exact Hlen).
      change (Np.nat_prod (1%nat :: rest)) with (1 * Np.nat_prod rest)%nat. lia.
    + rewrite (concat_length_all (Np.nat_prod (Np.collapse rest axis))).
      * rewrite length_map, chunks_length.
        change (Np.nat_prod (n :: Np.collapse rest axis))
          with (n * Np.nat_prod (Np.collapse rest axis))%nat. reflexivity.
      * rewrite Forall_map. eapply Forall_impl; [|apply chunks_all; exact Hlen].
        intros c Hc. apply IH. exact Hc.
Qed.

(** Sums over axes behind the first act on every row of the first axis. *)
Lemma apply_over_later_axes axes :
  forall n rest flat,
    length flat = (n * Np.nat_prod rest)%nat ->
    Np.apply_over_axes_sum (n :: rest) (map S axes) flat
    = concat (map (Np.apply_over_axes_sum rest axes)
                  (Np.chunks (Np.nat_prod rest) n flat)).
Proof.
  induction axes as [|a axes IH]; intros n rest flat Hlen.
  - cbn [map Np.apply_over_axes_sum]. rewrite map_id.
    symmetry. apply chunks_concat. exact Hlen.
  - cbn [map Np.apply_over_axes_sum Np.sum_axis Np.collapse].
    assert (Hall : Forall (fun c => length c = Np.nat_prod (Np.collapse rest a))
                     (map (Np.sum_axis rest a) (Np.chunks (Np.nat_prod rest) n flat))).
    { rewrite Forall_map. eapply Forall_impl; [|apply chunks_all; exact Hlen].
      intros c Hc. apply sum_axis_length. exact Hc. }
    rewrite IH.
    + pose proof (chunks_of_concat _ _ Hall) as Hch.
      rewrite length_map, chunks_length in Hch. rewrite Hch, map_map. reflexivity.
    + rewrite (concat_length_all _ _ Hall), length_map, chunks_length. reflexivity.
Qed.

End SumAxis.

Section Marginal.

Lemma Rsum_chunks m n (c : list R) :
  length c = (n * m)%nat -> Rsum (map Rsum (Np.chunks m n c)) = Rsum c.
Proof.
  intros Hlen. rewrite <- Rsum_concat, chunks_concat by exact Hlen. reflexivity.
Qed.

(** Summing over every axis leaves the total. *)
Lemma apply_over_all_axes shape :
  forall c,
    length c = Np.nat_prod shape ->
    Np.apply_over_axes_sum shape (seq 0 (length shape)) (map Fin c) = [Fin (Rsum c)].
Proof.
  induction shape as [|n rest IH]; intros c Hlen.
  - cbn in *. destruct c as [|x [|y c]]; try discriminate.
    cbn. apply cons_eq; [apply Fin_eq; lra|reflexivity].
  - change (Np.nat_prod (n :: rest)) with (n * Np.nat_prod rest)%nat in Hlen.
    cbn [length seq Np.apply_over_axes_sum Np.sum_axis Np.collapse].
    rewrite <- seq_shift, chunks_map, vsum_fin.
    assert (Hall : Forall (fun r => length r = Np.nat_prod rest)
                     (Np.chunks (Np.nat_prod rest) n c))
      by (apply chunks_all; exact Hlen).
    pose proof (vsumR_length _ _ Hall) as Hv.
    rewrite apply_over_later_axes by (rewrite length_map, Hv; lia).
    rewrite chunks_one by (rewrite length_map; exact Hv).
    cbn [map concat]. rewrite app_nil_r, IH by exact Hv.
    rewrite Rsum_vsumR by exact Hall. rewrite Rsum_chunks by exact Hlen. reflexivity.
Qed.

Lemma otherAxes_zero D : otherAxes 0 (S D) = map S (seq 0 D).
Proof. unfold otherAxes. cbn. rewrite Nat.sub_0_r. symmetry. apply seq_shift. Qed.

Lemma otherAxes_succ p D : otherAxes (S p) (S D) = 0%nat :: map S (otherAxes p D).
Proof.
  unfold otherAxes. cbn [seq app Nat.sub]. rewrite map_app, !seq_shift. reflexivity.
Qed.

(** The sums [np.apply_over_axes] takes over the axes other than [p]. *)
Lemma apply_over_other_axes shape :
  forall p c,
    (p < length shape)%nat ->
    length c = Np.nat_prod shape ->
    Np.apply_over_axes_sum shape (otherAxes p (length shape)) (map Fin c)
    = map Fin (marginalR shape p c).
Proof.
  induction shape as [|n rest IH]; intros p c Hp Hlen; [simpl in Hp; lia|].
  change (Np.nat_prod (n :: rest)) with (n * Np.nat_prod rest)%nat in Hlen.
  assert (Hall : Forall (fun r => length r = Np.nat_prod rest)
                   (Np.chunks (Np.nat_prod rest) n c))
    by (apply chunks_all; exact Hlen).
  cbn [length]. destruct p as [|p].
  - rewrite otherAxes_zero.
    rewrite apply_over_later_axes by (rewrite length_map; exact Hlen).
    rewrite chunks_map, map_map. cbn [marginalR].
    rewrite (map_ext_in _ (fun r => [Fin (Rsum r)])).
    + clear. induction (Np.chunks (Np.nat_prod rest) n c) as [|r rows IHr];
        [reflexivity|]. cbn [map concat app]. f_equal. exact IHr.
    + intros r Hr. apply apply_over_all_axes.
      rewrite Forall_forall in Hall. apply Hall. exact Hr.
  - rewrite otherAxes_succ.
    cbn [Np.apply_over_axes_sum Np.sum_axis Np.collapse marginalR].
    rewrite chunks_map, vsum_fin.
    pose proof (vsumR_length _ _ Hall) as Hv.
    rewrite apply_over_later_axes by (rewrite length_map, Hv; lia).
    rewrite chunks_one by (rewrite length_map; exact Hv).
    cbn [map concat]. rewrite app_nil_r.
    apply IH; [simpl in Hp; lia|exact Hv].
Qed.

Lemma marginalR_total shape :
  forall p c,
    length c = Np.nat_prod shape -> Rsum (marginalR shape p c) = Rsum c.
Proof.
  induction shape as [|n rest IH]; intros p c Hlen; [reflexivity|].
  change (Np.nat_prod (n :: rest)) with (n * Np.nat_prod rest)%nat in Hlen.
  assert (Hall : Forall (fun r => length r = Np.nat_prod rest)
                   (Np.chunks (Np.nat_prod rest) n c))
    by (apply chunks_all; exact Hlen).
  destruct p as [|p]; cbn [marginalR].
  - apply Rsum_chunks. exact Hlen.
  - rewrite IH by (apply vsumR_length; exact Hall).
    rewrite Rsum_vsumR by exact Hall. apply Rsum_chunks. exact Hlen.
Qed.

Lemma list_remove_seq D :
  forall a p,
    (a <= p < a + D)%nat ->
    list_remove p (seq a D) = Some (seq a (p - a) ++ seq (S p) (a + D - S p)).
Proof.
  induction D as [|D IH]; intros a p Hp; [lia|].
  cbn [seq list_remove]. destruct (Nat.eqb_spec a p) as [->|Hne].
  - rewrite Nat.sub_diag. cbn [seq app].
    replace (p + S D - S p)%nat with D by lia. reflexivity.
  - rewrite IH by lia.
    replace (p - a)%nat with (S (p - S a)) by lia. cbn [seq app].
    replace (a + S D - S p)%nat with (S a + D - S p)%nat by lia. reflexivity.
Qed.

Lemma list_remove_otherAxes p D :
  (p < D)%nat -> list_remove p (seq 0 D) = Some (otherAxes p D).
Proof.
  intros Hp. rewrite list_remove_seq by lia. unfold otherAxes.
  rewrite Nat.sub_0_r. reflexivity.
Qed.

Lemma skipn_nth_error {A : Type} (l : list A) :
  forall a x, nth_error l a = Some x -> skipn a l = x :: skipn (S a) l.
Proof.
  induction l as [|y l IH]; intros [|a] x H; try discriminate.
  - inversion H; subst. reflexivity.
  - cbn [nth_error] in H. cbn [skipn]. apply IH in H. rewrite H. reflexivity.
Qed.

Lemma lookup_all_seq (l : list npfloat) :
  forall a k,
    (a + k <= length l)%nat -> lookup_all l (seq a k) = Some (firstn k (skipn a l)).
Proof.
  intros a k. revert a. induction k as [|k IH]; intros a Hlen; [reflexivity|].
  cbn [seq lookup_all]. rewrite IH by lia.
  destruct (nth_error l a) as [x|] eqn:Hx.
  - rewrite (skipn_nth_error l a x Hx). reflexivity.
  - apply nth_error_None in Hx. lia.
Qed.

Lemma lookup_all_app l u v :
  lookup_all l (u ++ v)
  = match lookup_all l u, lookup_all l v with
    | Some a, Some b => Some (a ++ b)
    | _, _ => None
    end.
Proof.
  induction u as [|x u IH]; cbn [app lookup_all].
  - destruct (lookup_all l v); reflexivity.
  - rewrite IH. destruct (nth_error l x), (lookup_all l u), (lookup_all l v); reflexivity.
Qed.

Lemma lookup_all_otherAxes (l : list npfloat) p :
  (p < length l)%nat ->
  lookup_all l (otherAxes p (length l)) = Some (firstn p l ++ skipn (S p) l).
Proof.
  intros Hp. unfold otherAxes. rewrite lookup_all_app.
  rewrite !lookup_all_seq by lia.
  change (skipn 0 l) with l.
  rewrite (firstn_all2 (n := length l - S p) (skipn (S p) l))
    by (rewrite length_skipn; lia).
  reflexivity.
Qed.

Lemma Rprod_app u v : Rprod (u ++ v) = Rprod u * Rprod v.
Proof. induction u as [|a u IH]; simpl; [lra|rewrite IH; lra]. Qed.

Lemma Rprod_split p cs :
  (p < length cs)%nat ->
  Rprod (firstn p cs ++ skipn (S p) cs) * nth p cs 0 = Rprod cs.
Proof.
  intros Hp.
  rewrite <- (firstn_skipn p cs) at 4.
  rewrite !Rprod_app.
  destruct (skipn p cs) as [|c tl] eqn:Hs.
  - exfalso. apply (f_equal (@length R)) in Hs. rewrite length_skipn in Hs.
    simpl in Hs. lia.
  - assert (Hnth : nth p cs 0 = c).
    { rewrite <- (firstn_skipn p cs), app_nth2, length_firstn, Hs
        by (rewrite length_firstn; lia).
      replace (p - Nat.min p (length cs))%nat with 0%nat by lia. reflexivity. }
    assert (Htl : skipn (S p) cs = tl).
    { replace (S p) with (1 + p)%nat by lia. rewrite <- skipn_skipn, Hs. reflexivity. }
    rewrite Hnth, Htl. simpl. lra.
Qed.

End Marginal.

Section MarginalSpec.

Lemma firstn_zipWith {A B C : Type} (f : A -> B -> C) k u v :
  firstn k (Np.zipWith f u v) = Np.zipWith f (firstn k u) (firstn k v).
Proof.
  revert u v. induction k as [|k IH]; intros [|a u] [|b v]; cbn; try reflexivity.
  f_equal. apply IH.
Qed.

Lemma skipn_zipWith {A B C : Type} (f : A -> B -> C) k u v :
  length u = length v ->
  skipn k (Np.zipWith f u v) = Np.zipWith f (skipn k u) (skipn k v).
Proof.
  revert u v. induction k as [|k IH]; intros [|a u] [|b v] Hlen; cbn; try reflexivity;
    try discriminate.
  apply IH. simpl in Hlen. lia.
Qed.

Lemma chunks_zipWith {A B C : Type} (f : A -> B -> C) m n :
  forall u v,
    length u = length v ->
    Np.chunks m n (Np.zipWith f u v)
    = Np.zipWith (Np.zipWith f) (Np.chunks m n u) (Np.chunks m n v).
Proof.
  induction n as [|n IH]; intros u v Hlen; [reflexivity|].
  cbn [Np.chunks Np.zipWith]. rewrite firstn_zipWith, skipn_zipWith by exact Hlen.
  f_equal. apply IH. rewrite !length_skipn. lia.
Qed.

Lemma pickR_add shape :
  forall axis j u v,
    length u = Np.nat_prod shape -> length v = Np.nat_prod shape ->
    pickR shape axis j (Np.zipWith Rplus u v)
    = pickR shape axis j u + pickR shape axis j v.
Proof.
  induction shape as [|n rest IH]; intros axis j u v Hu Hv; [simpl; lra|].
  change (Np.nat_prod (n :: rest)) with (n * Np.nat_prod rest)%nat in Hu, Hv.
  pose proof (chunks_all (Np.nat_prod rest) n u Hu) as Hcu.
  pose proof (chunks_all (Np.nat_prod rest) n v Hv) as Hcv.
  pose proof (chunks_length (Np.nat_prod rest) n u) as Hlu.
  pose proof (chunks_length (Np.nat_prod rest) n v) as Hlv.
  destruct axis as [|axis]; cbn [pickR]; rewrite chunks_zipWith by lia.
  - revert Hcu Hcv Hlu Hlv.
    generalize (Np.chunks (Np.nat_prod rest) n u) as cu.
    generalize (Np.chunks (Np.nat_prod rest) n v) as cv.
    clear. intros cv cu Hcu. revert cv j n.
    induction Hcu as [|r cu Hr _ IHc]; intros cv j n Hcv Hlu Hlv.
    + destruct cv; [|simpl in *; lia]. destruct j; simpl; lra.
    + destruct cv as [|r' cv]; [simpl in *; lia|].
      inversion Hcv as [|? ? Hr' Hcv']; subst.
      destruct j as [|j]; cbn [Np.zipWith nth].
      * apply Rsum_zipWith_plus. lia.
      * apply (IHc cv j (length cu)); [exact Hcv'|reflexivity|simpl in *; lia].
  - revert Hcu Hcv Hlu Hlv.
    generalize (Np.chunks (Np.nat_prod rest) n u) as cu.
    generalize (Np.chunks (Np.nat_prod rest) n v) as cv.
    intros cv cu Hcu. clear Hu Hv. revert cv n.
    induction Hcu as [|r cu Hr _ IHc]; intros cv n Hcv Hlu Hlv.
    + destruct cv; [|simpl in *; lia]. simpl; lra.
    + destruct cv as [|r' cv]; [simpl in *; lia|].
      inversion Hcv as [|? ? Hr' Hcv']; subst.
      cbn [Np.zipWith map Rsum fold_right].
      rewrite (IH axis j r r' Hr Hr').
      specialize (IHc cv (length cu) Hcv' eq_refl ltac:(simpl in *; lia)).
      unfold Rsum in IHc. rewrite IHc. lra.
Qed.

Lemma firstn_Forall {A : Type} (P : A -> Prop) k :
  forall l, Forall P l -> Forall P (firstn k l).
Proof.
  induction k as [|k IH]; intros l Hl; [constructor|].
  destruct Hl as [|x l Hx Hl]; cbn; constructor; [exact Hx|apply IH; exact Hl].
Qed.

Lemma skipn_Forall {A : Type} (P : A -> Prop) k :
  forall l, Forall P l -> Forall P (skipn k l).
Proof.
  induction k as [|k IH]; intros l Hl; [exact Hl|].
  destruct Hl as [|x l Hx Hl]; cbn; [constructor|apply IH; exact Hl].
Qed.

Lemma chunks_Forall {A : Type} (P : A -> Prop) m n :
  forall l, Forall P l -> Forall (Forall P) (Np.chunks m n l).
Proof.
  induction n as [|n IH]; intros l Hl; cbn [Np.chunks]; constructor.
  - apply firstn_Forall. exact Hl.
  - apply IH. apply skipn_Forall. exact Hl.
Qed.

Lemma Rsum_zeros l : Forall (fun x => x = 0) l -> Rsum l = 0.
Proof. induction 1 as [|x l Hx _ IH]; simpl; [reflexivity|rewrite Hx, IH; lra]. Qed.

Lemma pickR_zeros shape :
  forall axis j flat, Forall (fun x => x = 0) flat -> pickR shape axis j flat = 0.
Proof.
  induction shape as [|n rest IH]; intros axis j flat Hz; [reflexivity|].
  pose proof (chunks_Forall _ (Np.nat_prod rest) n flat Hz) as Hc.
  destruct axis as [|axis]; cbn [pickR].
  - apply Rsum_zeros.
    destruct (Nat.lt_ge_cases j (length (Np.chunks (Np.nat_prod rest) n flat))) as [Hlt|Hge].
    + rewrite Forall_forall in Hc. apply Hc. apply nth_In. exact Hlt.
    + rewrite nth_overflow by exact Hge. constructor.
  - apply Rsum_zeros. rewrite Forall_map. eapply Forall_impl; [|exact Hc].
    intros r Hr. apply IH. exact Hr.
Qed.

Lemma pickR_vsumR shape axis j rows :
  Forall (fun r => length r = Np.nat_prod shape) rows ->
  pickR shape axis j (vsumR (Np.nat_prod shape) rows)
  = Rsum (map (pickR shape axis j) rows).
Proof.
  induction 1 as [|r rows Hr Hall IH].
  - cbn. apply pickR_zeros. apply Forall_forall. intros x Hx.
    apply repeat_spec in Hx. exact Hx.
  - cbn [map]. rewrite vsumR_cons, pickR_add.
    + rewrite IH. reflexivity.
    + exact Hr.
    + apply vsumR_length. exact Hall.
Qed.

(** The sums taken axis by axis are the sums over all other dimensions. *)
Lemma marginalR_spec shape :
  forall axis c,
    (axis < length shape)%nat ->
    length c = Np.nat_prod shape ->
    marginalR shape axis c = marginalSums shape axis c.
Proof.
  induction shape as [|n rest IH]; intros axis c Hp Hlen; [simpl in Hp; lia|].
  change (Np.nat_prod (n :: rest)) with (n * Np.nat_prod rest)%nat in Hlen.
  pose proof (chunks_all (Np.nat_prod rest) n c Hlen) as Hall.
  unfold marginalSums. destruct axis as [|axis]; cbn [marginalR pickR nth].
  - rewrite <- (chunks_length (Np.nat_prod rest) n c) at 2.
    rewrite <- (map_map (fun j => nth j (Np.chunks (Np.nat_prod rest) n c) []) Rsum).
    rewrite nth_all. reflexivity.
  - rewrite IH by (try apply vsumR_length; try exact Hall; simpl in Hp; lia).
    unfold marginalSums. apply map_ext. intros j. apply pickR_vsumR. exact Hall.
Qed.

End MarginalSpec.

Section ParamByName.

Lemma findParamIndex_from (param : string) :
  forall names a acc,
    let found :=
      fold_left (fun paramIndex iname =>
                   if String.eqb (snd iname) param then Z.of_nat (fst iname)
                   else paramIndex)
                (combine (seq a (length names)) names) acc in
    (~ In param names /\ found = acc)
    \/ (exists q, nth_error names q = Some param /\ found = Z.of_nat (a + q)).
Proof.
  induction names as [|x names IH]; intros a acc; cbn [length seq combine fold_left].
  - left. split; [intros []|reflexivity].
  - cbn [fst snd].
    destruct (IH (S a) (if String.eqb x param then Z.of_nat a else acc))
      as [(Hnot & Hres)|(q & Hq & Hres)].
    + destruct (String.eqb x param) eqn:Hx.
      * right. exists 0%nat. apply String.eqb_eq in Hx. subst x.
        split; [reflexivity|]. rewrite Hres. f_equal. lia.
      * left. apply String.eqb_neq in Hx. split; [|exact Hres].
        intros [Heq|Hin]; [congruence|exact (Hnot Hin)].
    + right. exists (S q). split; [exact Hq|]. rewrite Hres. f_equal. lia.
Qed.

(** A name of the raster is resolved to the index of an entry of that
    name; any other name to [-1]. *)
Lemma findParamIndex_spec param names :
  (~ In param names /\ findParamIndex param names = (-1)%Z)
  \/ (exists q, nth_error names q = Some param
                /\ findParamIndex param names = Z.of_nat q).
Proof.
  unfold findParamIndex, enumerate. apply (findParamIndex_from param names 0).
Qed.

End ParamByName.

Section MarginalOfState.

(** The marginal of a finite density stored in C order, with finite
    spacing constants: what lines 341-353 compute. *)
Lemma marginalize_spec self ds cs p r :
  hyperParameterDistribution self = Some (map Fin ds) ->
  length ds = Np.nat_prod (map steps (raster self)) ->
  rasterConstant self = map Fin cs ->
  length cs = length (raster self) ->
  nth_error (raster self) p = Some r ->
  marginalize (Z.of_nat p) self
  = PlotReturned (Np.linspace (lower r) (upper r) (steps r))
      (map Fin (map (fun s => s * Rprod (firstn p cs ++ skipn (S p) cs))
                    (marginalSums (map steps (raster self)) p ds))).
Proof.
  intros Hd Hlen Hc Hclen Hr.
  assert (Hp : (p < length (raster self))%nat).
  { apply nth_error_Some. rewrite Hr. discriminate. }
  unfold marginalize. cbv zeta.
  destruct (Z.ltb_spec (Z.of_nat p) 0) as [Hneg|_]; [lia|].
  rewrite Nat2Z.id, length_map, (list_remove_otherAxes p _ Hp), Hd.
  rewrite length_map, Hlen, Nat.eqb_refl. cbn [negb].
  rewrite Hc.
  replace (length (raster self)) with (length (map Fin cs))
    by (rewrite length_map; exact Hclen).
  rewrite lookup_all_otherAxes by (rewrite length_map; lia).
  rewrite length_map, Hclen, Hr.
  rewrite <- (length_map steps (raster self)).
  rewrite apply_over_other_axes by (rewrite ?length_map; assumption).
  rewrite firstn_map, skipn_map, <- map_app, prod_fin, scale_fin.
  rewrite marginalR_spec by (rewrite ?length_map; assumption).
  reflexivity.
Qed.

(** Summing the marginal over its axis, times its spacing constant, is
    summing the joint density over the grid, times all spacing
    constants. *)
Lemma marginal_total shape ds cs p :
  (p < length shape)%nat -> length ds = Np.nat_prod shape ->
  length cs = length shape ->
  Rsum (map (fun s => s * Rprod (firstn p cs ++ skipn (S p) cs))
            (marginalSums shape p ds)) * nth p cs 0
  = Rsum ds * Rprod cs.
Proof.
  intros Hp Hlen Hclen.
  rewrite Rsum_scale, <- marginalR_spec, marginalR_total by assumption.
  rewrite Rmult_assoc, Rprod_split by lia. reflexivity.
Qed.

Lemma marginalSums_length shape p ds :
  length (marginalSums shape p ds) = nth p shape 0%nat.
Proof. unfold marginalSums. rewrite length_map, length_seq. reflexivity. Qed.

End MarginalOfState.

Section MarginalOfFit.

Context `{SB : StudyBase}.

Lemma posteriorDensity_length ls ps cs :
  length (posteriorDensity_spec ls ps cs) = Nat.min (length ls) (length ps).
Proof.
  unfold posteriorDensity_spec. cbv zeta. rewrite !length_map.
  apply zipWith_length_min.
Qed.

(** After a completed fit of a regular raster, the raster, its spacing
    constants and the distribution have matching shapes. *)
Lemma fit_finished_shape raster_arg prior fo eo silent nJobs pathos self :
  raster_arg <> [] ->
  fst (fit raster_arg prior fo eo false silent nJobs pathos self) = Finished ->
  let self' := snd (fit raster_arg prior fo eo false silent nJobs pathos self) in
  raster self' = raster_arg
  /\ length (rasterConstant self') = length raster_arg
  /\ (forall d, hyperParameterDistribution self' = Some d ->
                length d = Np.nat_prod (map steps raster_arg)).
Proof.
  intros Hne Hfin self'.
  assert (Hprep : exists s1,
             prepareRaster raster_arg fo eo false silent self = inr s1
             /\ raster s1 = raster_arg
             /\ rasterValues s1 = Np.transpose (Np.meshgrid_ij_ravel (axes raster_arg))
             /\ length (rasterConstant s1) = length raster_arg).
  { unfold prepareRaster. simpl. destruct raster_arg as [|r0 ra]; [congruence|].
    eexists; split; [reflexivity|]. cbn. rewrite length_map. auto. }
  destruct Hprep as (s1 & Hprep & Hr & Hv & Hc).
  destruct (fit_keeps_grid raster_arg prior fo eo false silent nJobs pathos self s1 Hprep)
    as (Kr & Kv & Kc).
  fold self' in Kr, Kv, Kc.
  split; [rewrite Kr; exact Hr|split; [rewrite Kc; exact Hc|]].
  intros d Hd.
  destruct (fit_finished raster_arg prior fo eo false silent nJobs pathos self Hfin)
    as (Hfit & _ & Hlen & _).
  destruct (fit_finished_distribution raster_arg prior fo eo false silent nJobs pathos self
              Hfin) as (Hdist & _).
  fold self' in Hdist.
  set (v := validated raster_arg prior fo eo false silent self) in *.
  assert (Hd' : d = posteriorDensity_spec (pointLogEvidences fo eo v)
                      (arrayOf (hyperParameterPrior v)) (rasterConstant v))
    by congruence.
  subst d. clear Hd.
  assert (Hvv : rasterValues self' = rasterValues v).
  { subst self'. rewrite Hfit.
    destruct (aggregate_grid eo (runSweep fo eo silent nJobs pathos v)) as (_ & Av & _).
    destruct (runSweep_grid fo eo silent nJobs pathos v) as (_ & Rv & _).
    rewrite Av, Rv. reflexivity. }
  rewrite posteriorDensity_length, Hlen.
  unfold pointLogEvidences, pointResults. rewrite !length_map, Nat.min_id.
  rewrite <- Hvv, Kv, Hv, transpose_meshgrid.
  - rewrite cartesian_length, axes_lengths. reflexivity.
  - unfold axes. destruct raster_arg; [congruence|discriminate].
Qed.

(** C8, as amended.  After a completed fit of a regular raster with
    finite log-evidences, positive prior entries, spacing constants with
    a finite non-zero product and no overflow in the exponentials of the
    hyper-parameter distribution or in their sum, the distribution is
    finite and
    [plotHyperParameterDistribution] called with the index [p] of a raster
    entry returns the values of that entry and, for each of them, the
    density summed over all other dimensions and multiplied by the product
    of the spacing constants of those other dimensions; the returned
    marginal summed over its axis and multiplied by its own spacing
    constant is 1.  Called with the name of an entry it returns what it
    returns for the index of an entry of that name. *)
Theorem plotHyperParameterDistribution_marginal :
  forall raster_arg prior forwardOnly evidenceOnly silent nJobs pathosAvailable self
         ls ps cs,
    raster_arg <> [] ->
    fst (fit raster_arg prior forwardOnly evidenceOnly false silent nJobs
           pathosAvailable self) = Finished ->
    let v := validated raster_arg prior forwardOnly evidenceOnly false silent self in
    let self' :=
      snd (fit raster_arg prior forwardOnly evidenceOnly false silent nJobs
             pathosAvailable self) in
    pointLogEvidences forwardOnly evidenceOnly v = map Fin ls ->
    arrayOf (hyperParameterPrior v) = map Fin ps ->
    rasterConstant v = map Fin cs ->
    Forall (fun p => 0 < p) ps ->
    Rprod cs <> 0 ->
    Rsum (map exp (centredLogWeights ls ps)) <= float64_max ->
    exists ds,
      hyperParameterDistribution self' = Some (map Fin ds)
      /\ rasterConstant self' = map Fin cs
      /\ (forall p r,
            nth_error raster_arg p = Some r ->
            let others := firstn p cs ++ skipn (S p) cs in
            let marginal :=
              map (fun s => s * Rprod others) (marginalSums (map steps raster_arg) p ds) in
            plotHyperParameterDistribution (ParamIndex (Z.of_nat p)) self'
            = PlotReturned (Np.linspace (lower r) (upper r) (steps r)) (map Fin marginal)
            /\ length marginal = steps r
            /\ Rsum marginal * nth p cs 0 = 1)
      /\ (forall r, In r raster_arg ->
            exists q r',
              nth_error raster_arg q = Some r' /\ name r' = name r
              /\ plotHyperParameterDistribution (ParamName (name r)) self'
                 = plotHyperParameterDistribution (ParamIndex (Z.of_nat q)) self').
Proof.
  intros ra prior fo eo silent nJobs pathos self ls ps cs Hne Hfin v self'
         Els Eps Ecs Hpos Hprod Hrange.
  destruct (fit_finished ra prior fo eo false silent nJobs pathos self Hfin)
    as (_ & Hvne & Hplen & _).
  fold v in Hvne, Hplen.
  destruct (fit_finished_distribution ra prior fo eo false silent nJobs pathos self Hfin)
    as (Hdist & Hconst).
  fold v in Hdist, Hconst. fold self' in Hdist, Hconst.
  assert (Hls : ls <> []).
  { intros ->. unfold pointLogEvidences, pointResults in Els.
    destruct (rasterValues v); [congruence|discriminate]. }
  assert (Hlens : length ls = length ps).
  { rewrite <- (length_map Fin ls), <- Els, <- (length_map Fin ps), <- Eps, Hplen.
    unfold pointLogEvidences, pointResults. rewrite !length_map. reflexivity. }
  destruct (posteriorDensity_normalized ls ps cs Hls Hlens Hpos Hprod
              (sum_no_overflow _ Hrange))
    as (ds & Hds & _ & _ & Hsum).
  assert (Hd : hyperParameterDistribution self' = Some (map Fin ds)).
  { rewrite Hdist, Els, Eps, Ecs, Hds. reflexivity. }
  assert (Hc : rasterConstant self' = map Fin cs) by (rewrite Hconst; exact Ecs).
  destruct (fit_finished_shape ra prior fo eo silent nJobs pathos self Hne Hfin)
    as (Hr & Hclen & Hdlen).
  fold self' in Hr, Hclen, Hdlen.
  specialize (Hdlen _ Hd). rewrite length_map in Hdlen.
  rewrite Hc, length_map in Hclen.
  exists ds. split; [exact Hd|split; [exact Hc|split]].
  - intros p r Hp others marginal.
    assert (Hlt : (p < length ra)%nat).
    { apply nth_error_Some. rewrite Hp. discriminate. }
    split; [|split].
    + cbn [plotHyperParameterDistribution].
      rewrite (marginalize_spec self' ds cs p r); rewrite ?Hr; auto.
    + subst marginal. rewrite length_map, marginalSums_length.
      rewrite (nth_indep _ 0%nat (steps r)) by (rewrite length_map; exact Hlt).
      rewrite map_nth. f_equal. apply nth_error_nth. exact Hp.
    + subst marginal others.
      rewrite marginal_total; rewrite ?length_map; auto.
  - intros r Hin.
    cbn [plotHyperParameterDistribution]. rewrite Hr.
    destruct (findParamIndex_spec (name r) (map name ra)) as [(Hnot & _)|(q & Hq & Hres)].
    + exfalso. apply Hnot. apply in_map. exact Hin.
    + rewrite Hres.
      destruct (Z.eqb_spec (Z.of_nat q) (-1)) as [Hneg|_]; [lia|].
      rewrite nth_error_map in Hq.
      destruct (nth_error ra q) as [r'|] eqn:Hq'; [|discriminate].
      exists q, r'. inversion Hq. auto.
Qed.

End MarginalOfFit.

Module MarginalExample.
Import Example.

(** A raster of two hyper-parameters with two values each. *)
Definition raster22 : list RasterSpec := [sigma 0 1 2; log10pMin 0 1 2].

Definition prepared22 : RasterStudy :=
  stateOf (prepareRaster raster22 false false false false study0).

Definition v22 : RasterStudy := validated raster22 [] false false false false study0.

Lemma linspace_0_1_2 : Np.linspace (Fin 0) (Fin 1) 2 = [Fin 0; Fin 1].
Proof.
  unfold Np.linspace. cbn [seq map app of_nat npsub npadd npopp].
  unfold of_nat. rewrite npdiv_fin by (simpl; lra).
  cbn [map app npmul npadd INR]. np_list.
Qed.

Lemma prepared22_values :
  rasterValues prepared22
  = [[Fin 0; Fin 0]; [Fin 0; Fin 1]; [Fin 1; Fin 0]; [Fin 1; Fin 1]].
Proof.
  unfold prepared22, prepareRaster, raster22. cbn -[Np.linspace Np.transpose Np.meshgrid_ij_ravel].
  rewrite linspace_0_1_2. reflexivity.
Qed.

Lemma prepared22_constant : rasterConstant prepared22 = [Fin 1; Fin 1].
Proof.
  unfold prepared22, prepareRaster. cbn -[npdiv INR Rabs].
  rewrite !npdiv_fin by (simpl; lra).
  repeat (apply cons_eq; [apply Fin_eq; rewrite Rabs_right by lra; simpl; field|]).
  reflexivity.
Qed.

Lemma v22_values :
  rasterValues v22 = [[Fin 0; Fin 0]; [Fin 0; Fin 1]; [Fin 1; Fin 0]; [Fin 1; Fin 1]].
Proof.
  change (rasterValues v22) with (rasterValues prepared22). apply prepared22_values.
Qed.

Lemma v22_constant : rasterConstant v22 = [Fin 1; Fin 1].
Proof.
  change (rasterConstant v22) with (rasterConstant prepared22). apply prepared22_constant.
Qed.

Lemma v22_prior :
  hyperParameterPrior v22 = Some [Fin (1 / 4); Fin (1 / 4); Fin (1 / 4); Fin (1 / 4)].
Proof.
  change (hyperParameterPrior v22)
    with (Some (Np.divide (Np.ones (length (rasterValues prepared22)))
                  (of_nat (length (rasterValues prepared22))))).
  rewrite prepared22_values. cbn [length].
  rewrite uniform_prior_values by discriminate.
  cbn [repeat map INR]. f_equal; np_list.
Qed.

Lemma v22_logEvidences :
  pointLogEvidences false false v22 = [Fin 0; Fin 0; Fin 1; Fin 1].
Proof.
  unfold pointLogEvidences, pointResults. rewrite v22_values. reflexivity.
Qed.

Lemma v22_in_range :
  Forall exp_in_range (centredLogWeights [0; 0; 1; 1] [1 / 4; 1 / 4; 1 / 4; 1 / 4]).
Proof.
  apply (centredLogWeights_in_range (ln (1 / 4)) (1 + ln (1 / 4))); try discriminate;
    try reflexivity; [lra|].
  do 4 (constructor; [simpl; lra|]). constructor.
Qed.

End MarginalExample.

(** The instance of C8 for the raster
    [[["sigma", 0, 1, 2], ["log10pMin", 0, 1, 2]]] with a uniform prior,
    marginalized to its second entry. *)
Lemma plotHyperParameterDistribution_marginal_witness :
  let self' :=
    snd (fit (SB := Example.base0) MarginalExample.raster22 [] false false false false 1%Z
           false Example.study0) in
  exists marginal,
    plotHyperParameterDistribution (ParamIndex 1) self'
    = PlotReturned (Np.linspace (Fin 0) (Fin 1) 2) (map Fin marginal)
    /\ length marginal = 2%nat
    /\ Rsum marginal * 1 = 1.
Proof.
  intros self'.
  destruct (plotHyperParameterDistribution_marginal (SB := Example.base0)
              MarginalExample.raster22 [] false false false 1%Z false Example.study0
              [0; 0; 1; 1] [1 / 4; 1 / 4; 1 / 4; 1 / 4] [1; 1]
              ltac:(discriminate) eq_refl) as (ds & _ & _ & H & _).
  - apply MarginalExample.v22_logEvidences.
  - fold MarginalExample.v22. rewrite MarginalExample.v22_prior. reflexivity.
  - apply MarginalExample.v22_constant.
  - do 4 (constructor; [lra|]). constructor.
  - simpl. lra.
  - apply (centredLogWeights_sum_in_range (ln (1 / 4)) (1 + ln (1 / 4)));
      try discriminate; try reflexivity; [lra|simpl; lia|].
    do 4 (constructor; [simpl; lra|]). constructor.
  - destruct (H 1%nat (Example.log10pMin 0 1 2) eq_refl) as (Hplot & Hlen & Hone).
    eexists. split; [exact Hplot|split; [exact Hlen|exact Hone]].
Defined.

(** C8 as stated fails: after the completed fit of the raster
    [[["sigma", 0, 1, 2]]] with the prior density [2 x], which is 0 at the
    first raster point, the hyper-parameter distribution is [[nan, nan]],
    and the marginal returned for the parameter is [[nan, nan]]: summed
    and multiplied by the spacing constant 1 it is [nan], not 1. *)
Lemma plot_zero_prior_counterexample :
  let result :=
    fit (SB := Example.base0) [Example.sigma 0 1 2] [PriorExample.beta21] false false false
      false 1%Z false Example.study0 in
  fst result = Finished
  /\ plotHyperParameterDistribution (ParamIndex 0) (snd result)
     = PlotReturned [Fin 0; Fin 1] [NaN; NaN]
  /\ rasterConstant (snd result) = [Fin 1]
  /\ npmul (Np.sum [NaN; NaN]) (Fin 1) = NaN.
Proof.
  cbv zeta.
  destruct ZeroPriorExample.fitted_distribution as (Hd & Hc).
  destruct (fit_finished_shape (SB := Example.base0) [Example.sigma 0 1 2]
              [PriorExample.beta21] false false false 1%Z false Example.study0
              ltac:(discriminate) eq_refl) as (Hr & _).
  cbv zeta in Hr.
  split; [reflexivity|split; [|split; [exact Hc|reflexivity]]].
  cbn [plotHyperParameterDistribution]. unfold marginalize. cbv zeta.
  rewrite Hr, Hd, Hc.
  cbn [Z.ltb Z.compare Z.to_nat map length seq list_remove Nat.eqb Np.nat_prod fold_right
       Example.sigma steps lower upper Nat.mul negb Np.apply_over_axes_sum lookup_all
       Np.prod Np.scale npmul nth_error].
  rewrite MarginalExample.linspace_0_1_2. reflexivity.
Qed.

(** ** What does not depend on the number of worker processes *)

Section WorkerIndependence.

Context `{SB : StudyBase}.

Lemma aggregate_finished_iff eo self :
  fst (aggregate eo self) = Finished
  <-> Np.logsumexp (Np.add (logEvidenceList self)
                           (map nplog (arrayOf (hyperParameterPrior self)))) <> None.
Proof.
  pose proof (aggregate_spec eo self) as H. cbv zeta in H.
  destruct (Np.logsumexp _) as [total|].
  - destruct H as (H & _). split; [discriminate|intros _; exact H].
  - rewrite H. split; [discriminate|congruence].
Qed.

(** Whether [fit] completes does not depend on the number of workers. *)
Lemma fit_finished_any_workers raster_arg prior fo eo custom silent nJobs pathos
      nJobs' pathos' self :
  fst (fit raster_arg prior fo eo custom silent nJobs pathos self) = Finished ->
  fst (fit raster_arg prior fo eo custom silent nJobs' pathos' self) = Finished.
Proof.
  unfold fit.
  destruct (prepareRaster _ _ _ _ _ _) as [[o s1]|s1]; [exact (fun H => H)|].
  destruct (determinePrior _ _) as [[o s2]|s2]; [exact (fun H => H)|].
  cbv zeta. destruct (negb (checkConsistency _)); [exact (fun H => H)|].
  destruct (initSweep_lists eo s2) as (Il & Iloc & _).
  rewrite !aggregate_finished_iff.
  destruct (runSweep_lists fo eo silent nJobs pathos (initSweep eo s2) Il Iloc)
    as (Rl & _ & Rp).
  destruct (runSweep_lists fo eo silent nJobs' pathos' (initSweep eo s2) Il Iloc)
    as (Rl' & _ & Rp').
  rewrite Rl, Rp, Rl', Rp'. exact (fun H => H).
Qed.

(** The total log-evidence and the hyper-parameter distribution of a fit
    with worker processes are those of the fit in a single process. *)
Theorem fit_evidence_independent_of_workers :
  forall raster_arg prior forwardOnly evidenceOnly customRaster silent nJobs
         pathosAvailable self,
    fst (fit raster_arg prior forwardOnly evidenceOnly customRaster silent nJobs
           pathosAvailable self) = Finished ->
    let parallel := fit raster_arg prior forwardOnly evidenceOnly customRaster silent nJobs
                      pathosAvailable self in
    let single := fit raster_arg prior forwardOnly evidenceOnly customRaster silent 1%Z
                    pathosAvailable self in
    fst single = Finished
    /\ logEvidence (base (snd parallel)) = logEvidence (base (snd single))
    /\ hyperParameterDistribution (snd parallel) = hyperParameterDistribution (snd single)
    /\ rasterValues (snd parallel) = rasterValues (snd single).
Proof.
  intros ra prior fo eo custom silent nJobs pathos self Hfin parallel single.
  assert (Hfin1 : fst single = Finished)
    by (apply (fit_finished_any_workers _ _ _ _ _ _ nJobs pathos); exact Hfin).
  split; [exact Hfin1|].
  pose proof (fit_finished_logEvidence _ _ _ _ _ _ _ _ _ Hfin) as HL.
  pose proof (fit_finished_logEvidence _ _ _ _ _ _ _ _ _ Hfin1) as HL1.
  destruct (fit_finished_distribution _ _ _ _ _ _ _ _ _ Hfin) as (HD & _).
  destruct (fit_finished_distribution _ _ _ _ _ _ _ _ _ Hfin1) as (HD1 & _).
  cbv zeta in HL, HL1, HD, HD1.
  split; [|split].
  - subst parallel single. congruence.
  - subst parallel single. rewrite HD, HD1. reflexivity.
  - destruct (fit_finished _ _ _ _ _ _ _ _ _ Hfin) as (Hfit & _).
    destruct (fit_finished _ _ _ _ _ _ _ _ _ Hfin1) as (Hfit1 & _).
    subst parallel single. rewrite Hfit, Hfit1.
    repeat match goal with
           | |- context [rasterValues (snd (aggregate ?eo ?s))] =>
               let H := fresh in
               destruct (aggregate_grid eo s) as (_ & H & _); rewrite H; clear H
           | |- context [rasterValues (runSweep ?a ?b ?c ?d ?e ?s)] =>
               let H := fresh in
               destruct (runSweep_grid a b c d e s) as (_ & H & _); rewrite H; clear H
           end.
    reflexivity.
Qed.

End WorkerIndependence.

(** The instance for the raster [[["sigma", 0, 1, 2]]] and two workers. *)
Lemma fit_evidence_independent_of_workers_witness :
  let parallel := fit (SB := Example.base0) [Example.sigma 0 1 2] [] false false false
                    false 2%Z true Example.study0 in
  let single := fit (SB := Example.base0) [Example.sigma 0 1 2] [] false false false
                  false 1%Z true Example.study0 in
  fst single = Finished
  /\ logEvidence (base (snd parallel)) = logEvidence (base (snd single))
  /\ hyperParameterDistribution (snd parallel) = hyperParameterDistribution (snd single).
Proof.
  destruct (fit_evidence_independent_of_workers (SB := Example.base0)
              [Example.sigma 0 1 2] [] false false false false 2%Z true Example.study0
              eq_refl) as (H1 & H2 & H3 & _).
  split; [exact H1|split; [exact H2|exact H3]].
Defined.

(** ** Parameters that cannot be resolved *)

Section UnknownParameter.

Lemma list_remove_absent x l : ~ In x l -> list_remove x l = None.
Proof.
  induction l as [|y l IH]; intros Hnot; [reflexivity|].
  cbn [list_remove].
  destruct (Nat.eqb_spec y x) as [->|_]; [exfalso; apply Hnot; left; reflexivity|].
  rewrite IH; [reflexivity|]. intros Hin. apply Hnot. right. exact Hin.
Qed.

(** A name that is not in the raster ends the call after a message; an
    index outside the raster ends it with the exception of
    [list.remove]. *)
Theorem plotHyperParameterDistribution_unresolved :
  forall self,
    (forall param, ~ In param (map name (raster self)) ->
       plotHyperParameterDistribution (ParamName param) self = PlotNone)
    /\ (forall i, (i < 0 \/ Z.of_nat (length (raster self)) <= i)%Z ->
          plotHyperParameterDistribution (ParamIndex i) self = PlotRaised).
Proof.
  intros self. split.
  - intros param Hnot. cbn [plotHyperParameterDistribution].
    destruct (findParamIndex_spec param (map name (raster self)))
      as [(_ & Hres)|(q & Hq & _)].
    + rewrite Hres. reflexivity.
    + exfalso. apply Hnot. eapply nth_error_In. exact Hq.
  - intros i Hi. cbn [plotHyperParameterDistribution]. unfold marginalize. cbv zeta.
    destruct (Z.ltb_spec i 0) as [_|Hpos]; [reflexivity|].
    rewrite list_remove_absent; [reflexivity|].
    rewrite in_seq, length_map. lia.
Qed.

End UnknownParameter.

(** * Further properties of [fit] *)

(** ** The raster attributes of a regular raster *)

Section RegularRaster.

Context `{SB : StudyBase}.

(** Lines 84-87 on a non-empty raster argument. *)
Lemma fit_regular_raster raster_arg prior fo eo silent nJobs pathos self :
  raster_arg <> [] ->
  let self' := snd (fit raster_arg prior fo eo false silent nJobs pathos self) in
  raster self' = raster_arg
  /\ rasterValues self' = cartesian (axes raster_arg)
  /\ rasterConstant self'
     = map (fun r => npdiv (npabs (npsub (upper r) (lower r)))
                           (npsub (of_nat (steps r)) (Fin 1))) raster_arg.
Proof.
  intros Hne self'.
  assert (Hprep : exists s1,
             prepareRaster raster_arg fo eo false silent self = inr s1
             /\ raster s1 = raster_arg
             /\ rasterValues s1 = Np.transpose (Np.meshgrid_ij_ravel (axes raster_arg))
             /\ rasterConstant s1
                = map (fun r => npdiv (npabs (npsub (upper r) (lower r)))
                                      (npsub (of_nat (steps r)) (Fin 1))) raster_arg).
  { unfold prepareRaster. simpl. destruct raster_arg as [|r0 ra]; [congruence|].
    eexists; repeat split; reflexivity. }
  destruct Hprep as (s1 & Hprep & Hr & Hv & Hc).
  destruct (fit_keeps_grid raster_arg prior fo eo false silent nJobs pathos self s1 Hprep)
    as (Kr & Kv & Kc).
  fold self' in Kr, Kv, Kc.
  rewrite Kr, Kv, Kc, Hr, Hv, Hc. repeat split.
  apply transpose_meshgrid. unfold axes. destruct raster_arg; [congruence|discriminate].
Qed.

(** For a raster entry with finite bounds and at least two steps, the
    spacing constant [fit] stores is the distance between neighbouring
    values of that entry: finite, not negative, and the same between any
    two consecutive values. *)
Theorem fit_spacing_is_raster_step :
  forall raster_arg prior forwardOnly evidenceOnly silent nJobs pathosAvailable self
         d r lo up,
    nth_error raster_arg d = Some r ->
    lower r = Fin lo -> upper r = Fin up -> (2 <= steps r)%nat ->
    let self' :=
      snd (fit raster_arg prior forwardOnly evidenceOnly false silent nJobs
             pathosAvailable self) in
    let values := Np.linspace (lower r) (upper r) (steps r) in
    exists c,
      nth_error (rasterConstant self') d = Some (Fin c)
      /\ c = Rabs (up - lo) / (INR (steps r) - 1)
      /\ 0 <= c
      /\ (forall i, (S i < steps r)%nat ->
            exists x x',
              nth i values NaN = Fin x /\ nth (S i) values NaN = Fin x'
              /\ Rabs (x' - x) = c).
Proof.
  intros ra prior fo eo silent nJobs pathos self d r lo up Hd Hlo Hup Hsteps self' values.
  assert (Hne : ra <> []) by (intros ->; destruct d; discriminate).
  destruct (fit_regular_raster ra prior fo eo silent nJobs pathos self Hne)
    as (_ & _ & Hc).
  fold self' in Hc.
  assert (Hn : 0 < INR (steps r) - 1).
  { apply le_INR in Hsteps. simpl in Hsteps. lra. }
  exists (Rabs (up - lo) / (INR (steps r) - 1)).
  split; [|split; [reflexivity|split]].
  - rewrite Hc, nth_error_map, Hd. cbn [option_map]. rewrite Hlo, Hup.
    unfold of_nat. cbn [npsub npopp npadd npabs].
    rewrite npdiv_fin by lra. reflexivity.
  - apply Rmult_le_pos; [apply Rabs_pos|left; apply Rinv_0_lt_compat; exact Hn].
  - intros i Hi. subst values. rewrite Hlo, Hup.
    rewrite !linspace_nth by lia.
    eexists; eexists. split; [reflexivity|split; [reflexivity|]].
    rewrite S_INR.
    replace (lo + (INR i + 1) * ((up - lo) / (INR (steps r) - 1))
             - (lo + INR i * ((up - lo) / (INR (steps r) - 1))))
      with ((up - lo) / (INR (steps r) - 1)) by (field; lra).
    unfold Rdiv. rewrite Rabs_mult. f_equal.
    apply Rabs_right. left. apply Rinv_0_lt_compat. exact Hn.
Qed.

End RegularRaster.

(** The instance for the raster [[["sigma", 0, 1, 3]]]: the constant is
    1/2. *)
Lemma fit_spacing_is_raster_step_witness :
  exists c,
    nth_error (rasterConstant
                 (snd (fit (SB := Example.base0) [Example.sigma 0 1 3] [] false false false
                         false 1%Z false Example.study0))) 0 = Some (Fin c)
    /\ c = Rabs (1 - 0) / (INR 3 - 1).
Proof.
  destruct (fit_spacing_is_raster_step (SB := Example.base0)
              [Example.sigma 0 1 3] [] false false false 1%Z false Example.study0
              0%nat (Example.sigma 0 1 3) 0 1 eq_refl eq_refl eq_refl ltac:(simpl; lia))
    as (c & Hc & Hval & _).
  exists c. split; [exact Hc|exact Hval].
Defined.

(** ** A raster without points *)

Section EmptyGrid.

Context `{SB : StudyBase}.

Lemma nat_prod_zero l : In 0%nat l -> Np.nat_prod l = 0%nat.
Proof.
  induction l as [|n l IH]; intros Hin; [contradiction|].
  change (Np.nat_prod (n :: l)) with (n * Np.nat_prod l)%nat.
  destruct Hin as [->|Hin]; [reflexivity|]. rewrite IH by exact Hin. lia.
Qed.

(** A raster entry with 0 steps leaves no raster point, and [fit] cannot
    complete: with priors given it raises the [IndexError] of
    [self.rasterValues[0]]; without, it stops at the consistency check or
    raises the [ValueError] of [logsumexp] on an empty array.  The
    hyper-parameter distribution of the instance stays as it was. *)
Theorem fit_zero_steps_never_completes :
  forall raster_arg prior forwardOnly evidenceOnly silent nJobs pathosAvailable self r,
    In r raster_arg -> steps r = 0%nat ->
    let result := fit raster_arg prior forwardOnly evidenceOnly false silent nJobs
                    pathosAvailable self in
    rasterValues (snd result) = []
    /\ (prior <> [] -> fst result = Raised IndexError)
    /\ (prior = [] ->
        fst result = Aborted Inconsistent \/ fst result = Raised ValueError)
    /\ hyperParameterDistribution (snd result) = hyperParameterDistribution self.
Proof.
  intros ra prior fo eo silent nJobs pathos self r Hin Hsteps result.
  assert (Hne : ra <> []) by (intros ->; contradiction).
  destruct (fit_regular_raster ra prior fo eo silent nJobs pathos self Hne)
    as (_ & Hv & _).
  assert (Hempty : cartesian (axes ra) = []).
  { apply length_zero_iff_nil. rewrite cartesian_length, axes_lengths.
    apply nat_prod_zero. rewrite <- Hsteps. apply in_map. exact Hin. }
  fold result in Hv. rewrite Hempty in Hv.
  split; [exact Hv|].
  assert (Hprep : exists s1,
             prepareRaster ra fo eo false silent self = inr s1
             /\ rasterValues s1 = []
             /\ hyperParameterDistribution s1 = hyperParameterDistribution self).
  { unfold prepareRaster. simpl. destruct ra as [|r0 ra']; [congruence|].
    eexists; split; [reflexivity|]. split; [|reflexivity].
    cbn [rasterValues with_rasterConstant with_rasterValues].
    rewrite <- Hempty. apply transpose_meshgrid. discriminate. }
  destruct Hprep as (s1 & Hprep & Hs1 & Hd1).
  subst result. unfold fit. rewrite Hprep.
  destruct prior as [|rv prior].
  - split; [congruence|]. cbn [determinePrior]. cbv zeta.
    match goal with
    | |- context [initSweep eo ?s] => set (s2 := s)
    end.
    assert (Hv2 : rasterValues (initSweep eo s2) = []).
    { destruct (initSweep_grid eo s2) as (_ & Iv & _). rewrite Iv. exact Hs1. }
    assert (Hd2 : hyperParameterDistribution (initSweep eo s2)
                  = hyperParameterDistribution self).
    { rewrite <- Hd1. unfold initSweep. destruct eo; reflexivity. }
    destruct (negb (checkConsistency _)).
    + split; [intros _; left; reflexivity|exact Hd2].
    + destruct (initSweep_lists eo s2) as (Il & Iloc & _).
      destruct (runSweep_lists fo eo silent nJobs pathos (initSweep eo s2) Il Iloc)
        as (Rl & _ & _).
      rewrite Hv2 in Rl. cbn in Rl.
      set (swept := runSweep fo eo silent nJobs pathos (initSweep eo s2)) in *.
      assert (Hagg : aggregate eo swept
                     = (Raised ValueError,
                        snd (aggregate eo swept))
                       /\ hyperParameterDistribution (snd (aggregate eo swept))
                          = hyperParameterDistribution swept).
      { unfold aggregate. cbv zeta.
        destruct eo; cbn; rewrite Rl; cbn; split; reflexivity. }
      destruct Hagg as (Hagg & Hdist).
      split; [intros _; right; rewrite Hagg; reflexivity|].
      rewrite Hdist. subst swept.
      rewrite <- Hd2. clear.
      unfold runSweep. cbv zeta. destruct (1 <? _)%Z.
      * generalize (map (fun idx => parallelFit idx
                           (Z.to_nat (if (1 <? nJobs)%Z && negb pathos then 1%Z else nJobs))
                           fo eo silent (initSweep eo s2))
                        (seq 0 (Z.to_nat (if (1 <? nJobs)%Z && negb pathos
                                          then 1%Z else nJobs)))).
        intros subs. generalize (initSweep eo s2). induction subs as [|S subs IH];
          intros s; [reflexivity|].
        cbn [fold_left]. rewrite IH. unfold mergeStudy. destruct eo; reflexivity.
      * unfold sweep.
        generalize (enumerate (rasterValues (initSweep eo s2))).
        intros l. generalize (initSweep eo s2). induction l as [|ih l IH];
          intros s; [reflexivity|].
        cbn [fold_left]. rewrite IH. unfold sweepStep. destruct eo; reflexivity.
  - split; [|split; [discriminate|]].
    + intros _. unfold determinePrior. cbn [rasterValues upd_base]. rewrite Hs1.
      reflexivity.
    + unfold determinePrior. cbn [rasterValues upd_base]. rewrite Hs1.
      cbn. exact Hd1.
Qed.

End EmptyGrid.

(** The instance for the raster [[["sigma", 0, 1, 0]]] without priors. *)
Lemma fit_zero_steps_never_completes_witness :
  fst (fit (SB := Example.base0) [Example.sigma 0 1 0] [] false false false false 1%Z
         false Example.study0) = Raised ValueError
  /\ rasterValues (snd (fit (SB := Example.base0) [Example.sigma 0 1 0] [] false false
                           false false 1%Z false Example.study0)) = [].
Proof.
  destruct (fit_zero_steps_never_completes (SB := Example.base0)
              [Example.sigma 0 1 0] [] false false false 1%Z false Example.study0
              (Example.sigma 0 1 0) (or_introl eq_refl) eq_refl) as (Hv & _ & _ & _).
  split; [reflexivity|exact Hv].
Defined.

(** ** The distribution over a raster with a single-value entry *)

Section SingleValueEntry.

Context `{SB : StudyBase}.

Lemma npmul_not_finite_l a b : is_finite a = false -> is_finite (npmul a b) = false.
Proof.
  destruct a, b; simpl; intros H; try reflexivity; try discriminate;
    apply signed_inf_not_finite.
Qed.

Lemma npmul_not_finite_r a b : is_finite b = false -> is_finite (npmul a b) = false.
Proof.
  destruct a, b; simpl; intros H; try reflexivity; try discriminate;
    apply signed_inf_not_finite.
Qed.

Lemma prod_not_finite c l :
  In c l -> is_finite c = false -> is_finite (Np.prod l) = false.
Proof.
  induction l as [|a l IH]; intros Hin Hc; [contradiction|].
  rewrite prod_cons. destruct Hin as [->|Hin].
  - apply npmul_not_finite_l. exact Hc.
  - apply npmul_not_finite_r. apply IH; assumption.
Qed.

Lemma npdiv_not_finite x P :
  is_finite P = false -> npdiv x P = Fin 0 \/ npdiv x P = NaN.
Proof. destruct x, P; simpl; intros H; try discriminate; auto. Qed.

Lemma sum_zero_or_nan l :
  Forall (fun x => x = Fin 0 \/ x = NaN) l -> Np.sum l = Fin 0 \/ Np.sum l = NaN.
Proof.
  induction 1 as [|x l Hx _ IH]; [left; reflexivity|].
  rewrite sum_cons.
  destruct Hx as [->| ->]; destruct IH as [-> | ->]; cbn [npadd]; auto.
  left. f_equal. lra.
Qed.

Lemma npmul_zero_not_finite z P :
  z = Fin 0 \/ z = NaN -> is_finite P = false -> npmul z P = NaN.
Proof.
  intros [-> | ->] HP; destruct P; simpl in *; try discriminate; try reflexivity.
  - apply signed_inf_zero.
  - replace (- 0) with 0 by lra. apply signed_inf_zero.
Qed.

(** When a regular raster has an entry with a single step, the
    distribution of a completed fit is no density: the product of the
    spacing constants is not finite, every entry of the distribution is 0
    or [nan], and the sum over the grid times the product of the spacing
    constants is [nan]. *)
Theorem fit_single_step_distribution_degenerate :
  forall raster_arg prior forwardOnly evidenceOnly silent nJobs pathosAvailable self r,
    In r raster_arg -> steps r = 1%nat ->
    fst (fit raster_arg prior forwardOnly evidenceOnly false silent nJobs
           pathosAvailable self) = Finished ->
    let self' :=
      snd (fit raster_arg prior forwardOnly evidenceOnly false silent nJobs
             pathosAvailable self) in
    exists distribution,
      hyperParameterDistribution self' = Some distribution
      /\ is_finite (Np.prod (rasterConstant self')) = false
      /\ Forall (fun x => x = Fin 0 \/ x = NaN) distribution
      /\ npmul (Np.sum distribution) (Np.prod (rasterConstant self')) = NaN.
Proof.
  intros ra prior fo eo silent nJobs pathos self r Hin Hsteps Hfin self'.
  assert (Hne : ra <> []) by (intros ->; contradiction).
  destruct (fit_regular_raster ra prior fo eo silent nJobs pathos self Hne)
    as (_ & _ & Hc).
  fold self' in Hc.
  destruct (fit_finished_distribution ra prior fo eo false silent nJobs pathos self Hfin)
    as (Hdist & Hconst).
  fold self' in Hdist, Hconst.
  assert (HP : is_finite (Np.prod (rasterConstant self')) = false).
  { apply (prod_not_finite
             (npdiv (npabs (npsub (upper r) (lower r)))
                    (npsub (of_nat (steps r)) (Fin 1)))).
    - rewrite Hc. apply (in_map (fun r => npdiv (npabs (npsub (upper r) (lower r)))
                                             (npsub (of_nat (steps r)) (Fin 1)))).
      exact Hin.
    - apply spacing_single_step. exact Hsteps. }
  eexists. split; [exact Hdist|]. split; [exact HP|].
  rewrite <- Hconst.
  assert (Hall : Forall (fun x => x = Fin 0 \/ x = NaN)
                   (posteriorDensity_spec
                      (pointLogEvidences fo eo (validated ra prior fo eo false silent self))
                      (arrayOf (hyperParameterPrior
                                  (validated ra prior fo eo false silent self)))
                      (rasterConstant self'))).
  { unfold posteriorDensity_spec. cbv zeta. rewrite Forall_map.
    apply Forall_forall. intros x _. apply npdiv_not_finite. exact HP. }
  split; [exact Hall|].
  apply npmul_zero_not_finite; [apply sum_zero_or_nan; exact Hall|exact HP].
Qed.

End SingleValueEntry.

(** The instance for the raster [[["sigma", 0, 1, 1]]]. *)
Lemma fit_single_step_distribution_degenerate_witness :
  let self' :=
    snd (fit (SB := Example.base0) [Example.sigma 0 1 1] [] false false false false 1%Z
           false Example.study0) in
  exists distribution,
    hyperParameterDistribution self' = Some distribution
    /\ npmul (Np.sum distribution) (Np.prod (rasterConstant self')) = NaN.
Proof.
  destruct (fit_single_step_distribution_degenerate (SB := Example.base0)
              [Example.sigma 0 1 1] [] false false false 1%Z false Example.study0
              (Example.sigma 0 1 1) (or_introl eq_refl) eq_refl eq_refl)
    as (distribution & Hd & _ & _ & Hnan).
  exists distribution. split; [exact Hd|exact Hnan].
Defined.

(** ** The distribution as evidence times prior *)

Section Bayes.

Context `{SB : StudyBase}.

(** Steps (1)-(5) on finite log-evidences and positive prior entries,
    where no exponential of step (3) leaves the range: the entry of a
    raster point is [exp(logEvidence_i) * prior_i], divided by the sum of
    these terms over the raster and by the product of the spacing
    constants. *)
Lemma posteriorDensity_bayes ls ps cs :
  ls <> [] -> length ls = length ps ->
  Forall (fun p => 0 < p) ps ->
  Rprod cs <> 0 ->
  Forall exp_in_range (centredLogWeights ls ps) ->
  let w := Np.zipWith (fun L p => exp L * p) ls ps in
  0 < Rsum w
  /\ posteriorDensity_spec (map Fin ls) (map Fin ps) (map Fin cs)
     = map Fin (map (fun t => t / Rsum w / Rprod cs) w).
Proof.
  intros Hne Hlen Hpos Hc Hrange w.
  assert (Hw : w = map (fun ab => exp (fst ab) * snd ab) (combine ls ps))
    by (subst w; apply (zipWith_as_map (fun L p => exp L * p))).
  assert (Hwpos : Forall (fun t => 0 < t) w).
  { rewrite Hw, Forall_map. apply Forall_forall. intros [L p] Hin. cbn [fst snd].
    apply Rmult_lt_0_compat; [apply exp_pos|].
    rewrite Forall_forall in Hpos. apply Hpos. eapply in_combine_r. exact Hin. }
  assert (Hwne : w <> []).
  { rewrite Hw. destruct ls as [|l0 ls]; [congruence|].
    destruct ps as [|p0 ps]; discriminate. }
  pose proof (Rsum_pos w Hwne Hwpos) as HZ.
  split; [exact HZ|].
  unfold posteriorDensity_spec. cbv zeta.
  rewrite (exponentiated_centred ls ps Hne Hlen Hpos).
  rewrite (map_exp64_in_range _ Hrange).
  unfold centredLogWeights. cbv zeta.
  set (m := Rsum (Np.zipWith (fun L p => L + ln p) ls ps)
            / INR (length (Np.zipWith (fun L p => L + ln p) ls ps))).
  assert (He : map exp (map (fun x => x - m) (Np.zipWith (fun L p => L + ln p) ls ps))
               = map (fun t => t * exp (- m)) w).
  { rewrite (zipWith_as_map (fun L p => L + ln p)), Hw, !map_map.
    apply map_ext_in. intros [L p] Hin. cbn [fst snd].
    assert (Hp : 0 < p).
    { rewrite Forall_forall in Hpos. apply Hpos. eapply in_combine_r. exact Hin. }
    unfold Rminus. rewrite !exp_plus, exp_ln by exact Hp. reflexivity. }
  rewrite He, sum_fin, prod_fin, Rsum_scale.
  pose proof (exp_pos (- m)) as Hm.
  rewrite !map_map. apply map_ext. intros t.
  rewrite npdiv_fin by (apply Rgt_not_eq; apply Rmult_lt_0_compat; lra).
  rewrite npdiv_fin by exact Hc.
  f_equal. field. repeat split; lra.
Qed.

(** The total log-evidence over finite log-evidences and a non-negative
    prior with a positive entry, where no exponential of the log-sum-exp
    underflows. *)
Lemma fit_finished_logEvidence_value raster_arg prior fo eo custom silent nJobs pathos
      self ls ps :
  fst (fit raster_arg prior fo eo custom silent nJobs pathos self) = Finished ->
  let v := validated raster_arg prior fo eo custom silent self in
  pointLogEvidences fo eo v = map Fin ls ->
  arrayOf (hyperParameterPrior v) = map Fin ps ->
  Forall (fun p => 0 <= p) ps ->
  0 < Rsum ps ->
  spread_in_range ls ps ->
  length ls = length ps
  /\ logEvidence (base (snd (fit raster_arg prior fo eo custom silent nJobs pathos self)))
     = Fin (ln (Rsum (Np.zipWith (fun L p => exp L * p) ls ps))).
Proof.
  intros Hfin v Els Eps Hnonneg Hsum Hspread.
  pose proof (fit_finished_logEvidence raster_arg prior fo eo custom silent nJobs pathos
                self Hfin) as Hlse.
  cbv zeta in Hlse. fold v in Hlse.
  destruct (fit_finished raster_arg prior fo eo custom silent nJobs pathos self Hfin)
    as (_ & _ & Hlen & _).
  fold v in Hlen.
  assert (Hlens : length ls = length ps).
  { rewrite <- (length_map Fin ls), <- Els, <- (length_map Fin ps), <- Eps, Hlen.
    unfold pointLogEvidences, pointResults. rewrite !length_map. reflexivity. }
  split; [exact Hlens|].
  assert (Ha : Np.zipWith (fun L p => npadd L (nplog p))
                 (pointLogEvidences fo eo v) (arrayOf (hyperParameterPrior v))
               = map ext_of (Np.zipWith logWeight ls ps)).
  { rewrite Els, Eps, zipWith_fin, map_zipWith.
    apply (zipWith_ext_Forall (fun p => 0 <= p)); [exact Hnonneg|].
    intros L p Hp. apply logWeight_ext. exact Hp. }
  destruct (logsumexp_ext (Np.zipWith logWeight ls ps)
              (logWeights_exist ls ps Hlens Hnonneg Hsum))
    as (m & _ & Hin & _ & _ & _ & HS & Hresult).
  destruct (logsumexp_value m _ Hin (proj1 HS)) as (_ & _ & Hexact).
  rewrite Ha, Hresult in Hlse. apply Some_eq_inv in Hlse. rewrite <- Hlse.
  rewrite Hexact by (intros x Hx; apply Hspread; assumption).
  do 3 f_equal. rewrite map_zipWith.
  apply (zipWith_ext_Forall (fun p => 0 <= p)); [exact Hnonneg|].
  intros L p Hp. apply logWeight_plain. exact Hp.
Qed.

(** After a completed fit with finite log-evidences, positive prior
    entries and spacing constants with a finite non-zero product, where
    no exponential taken leaves the range of [float64] (those of the
    distribution, [exp(a_i - mean)], neither overflow nor underflow, nor
    does their sum overflow, and those of the log-sum-exp do not
    underflow): the total evidence
    [Z = exp(logEvidence)] is the sum over the raster of
    [exp(logEvidence_i) * prior_i], and the entry of the distribution at
    raster point [i] is [exp(logEvidence_i) * prior_i / Z] divided by the
    product of the spacing constants. *)
Theorem fit_distribution_is_evidence_times_prior :
  forall raster_arg prior forwardOnly evidenceOnly customRaster silent nJobs
         pathosAvailable self ls ps cs,
    fst (fit raster_arg prior forwardOnly evidenceOnly customRaster silent nJobs
           pathosAvailable self) = Finished ->
    let v := validated raster_arg prior forwardOnly evidenceOnly customRaster silent self in
    let self' := snd (fit raster_arg prior forwardOnly evidenceOnly customRaster silent
                        nJobs pathosAvailable self) in
    pointLogEvidences forwardOnly evidenceOnly v = map Fin ls ->
    arrayOf (hyperParameterPrior v) = map Fin ps ->
    rasterConstant v = map Fin cs ->
    Forall (fun p => 0 < p) ps ->
    Rprod cs <> 0 ->
    Forall exp_in_range (centredLogWeights ls ps) ->
    Rsum (map exp (centredLogWeights ls ps)) <= float64_max ->
    spread_in_range ls ps ->
    let Z := Rsum (Np.zipWith (fun L p => exp L * p) ls ps) in
    0 < Z
    /\ logEvidence (base self') = Fin (ln Z)
    /\ hyperParameterDistribution self'
       = Some (map Fin (Np.zipWith (fun L p => exp L * p / Z / Rprod cs) ls ps)).
Proof.
  intros ra prior fo eo custom silent nJobs pathos self ls ps cs Hfin v self'
         Els Eps Ecs Hpos Hprod Hrange _ Hspread Z.
  destruct (fit_finished ra prior fo eo custom silent nJobs pathos self Hfin)
    as (_ & Hne & _).
  fold v in Hne.
  assert (Hls : ls <> []).
  { intros ->. unfold pointLogEvidences, pointResults in Els.
    destruct (rasterValues v); [congruence|discriminate]. }
  assert (Hnonneg : Forall (fun p => 0 <= p) ps).
  { eapply Forall_impl; [|exact Hpos]. intros p Hp. simpl. lra. }
  assert (Hps : ps <> []).
  { intros ->.
    destruct (fit_finished ra prior fo eo custom silent nJobs pathos self Hfin)
      as (_ & _ & Hlen & _).
    fold v in Hlen. rewrite Eps in Hlen. cbn in Hlen.
    apply Hne. apply length_zero_iff_nil. symmetry. exact Hlen. }
  assert (Hsum : 0 < Rsum ps) by (apply Rsum_pos; assumption).
  destruct (fit_finished_logEvidence_value ra prior fo eo custom silent nJobs pathos self
              ls ps Hfin Els Eps Hnonneg Hsum Hspread) as (Hlens & Hlog).
  destruct (posteriorDensity_bayes ls ps cs Hls Hlens Hpos Hprod Hrange) as (HZ & Hdens).
  split; [exact HZ|]. split; [exact Hlog|].
  destruct (fit_finished_distribution ra prior fo eo custom silent nJobs pathos self Hfin)
    as (Hdist & _).
  fold v in Hdist. fold self' in Hdist.
  rewrite Hdist, Els, Eps, Ecs, Hdens. do 2 f_equal.
  rewrite map_zipWith. reflexivity.
Qed.

End Bayes.

(** The instance for the raster [[["sigma", 0, 1, 3]]] with a uniform
    prior. *)
Lemma fit_distribution_is_evidence_times_prior_witness :
  let self' :=
    snd (fit (SB := Example.base0) [Example.sigma 0 1 3] [] false false false false 1%Z
           false Example.study0) in
  let Z := exp 0 * (1 / 3) + (exp (1 / 2) * (1 / 3) + (exp 1 * (1 / 3) + 0)) in
  logEvidence (base self') = Fin (ln Z)
  /\ hyperParameterDistribution self'
     = Some [Fin (exp 0 * (1 / 3) / Z / (1 / 2 * 1));
             Fin (exp (1 / 2) * (1 / 3) / Z / (1 / 2 * 1));
             Fin (exp 1 * (1 / 3) / Z / (1 / 2 * 1))].
Proof.
  destruct (fit_distribution_is_evidence_times_prior (SB := Example.base0)
              [Example.sigma 0 1 3] [] false false false false 1%Z false Example.study0
              [0; 1 / 2; 1] [1 / 3; 1 / 3; 1 / 3] [1 / 2] eq_refl)
    as (_ & Hlog & Hdist).
  - apply PosteriorExample.v3_logEvidences.
  - fold PosteriorExample.v3. rewrite PosteriorExample.v3_prior. reflexivity.
  - apply PosteriorExample.v3_constant.
  - do 3 (constructor; [lra|]). constructor.
  - simpl. lra.
  - apply PosteriorExample.v3_in_range.
  - apply PosteriorExample.v3_sum_in_range.
  - apply (spread_in_range_bounded (ln (1 / 3)) (1 + ln (1 / 3))); [lra|].
    do 3 (constructor; [simpl; lra|]). constructor.
  - split; [exact Hlog|exact Hdist].
Defined.

(** ** The averaged posterior as a mixture *)


Section Mixture.

Context `{SB : StudyBase}.

Lemma nth_zipWith_lt {A B C : Type} (f : A -> B -> C) u v i da db dc :
  (i < length u)%nat -> (i < length v)%nat ->
  nth i (Np.zipWith f u v) dc = f (nth i u da) (nth i v db).
Proof.
  revert v i. induction u as [|a u IH]; intros [|b v] i Hu Hv; simpl in *; try lia.
  destruct i as [|i]; [reflexivity|]. apply IH; lia.
Qed.











End Mixture.


(** ** The sections the workers analyse *)

Section Sections.

Context `{SB : StudyBase}.

Lemma slices_nth_length {A : Type} (sizes : list nat) :
  forall (l : list A) idx,
    (fold_right Nat.add 0 sizes <= length l)%nat ->
    length (nth idx (Np.slices sizes l) []) = nth idx sizes 0%nat.
Proof.
  induction sizes as [|m sizes IH]; intros l idx Hsum.
  - destruct idx; reflexivity.
  - cbn [Np.slices]. simpl in Hsum. destruct idx as [|idx]; cbn [nth].
    + rewrite length_firstn. lia.
    + apply IH. rewrite length_skipn. lia.
Qed.

(** [np.array_split]: the first [len % n] sections hold one entry more
    than the others. *)
Lemma shard_size {A : Type} idx n (l : list A) :
  (idx < n)%nat ->
  length (shard idx n l)
  = (length l / n + (if (idx <? length l mod n)%nat then 1 else 0))%nat.
Proof.
  intros Hidx. assert (Hn : n <> 0%nat) by lia.
  unfold shard, Np.array_split.
  pose proof (Nat.div_mod_eq (length l) n) as Hdm.
  pose proof (Nat.mod_upper_bound (length l) n Hn) as Hlt.
  rewrite slices_nth_length
    by (rewrite sum_app_nat, !sum_repeat; nia).
  destruct (Nat.ltb_spec idx (length l mod n)) as [Hlo|Hhi].
  - rewrite app_nth1 by (rewrite repeat_length; exact Hlo).
    rewrite (nth_indep _ 0%nat (S (length l / n)%nat)) by (rewrite repeat_length; exact Hlo).
    rewrite nth_repeat. lia.
  - rewrite app_nth2 by (rewrite repeat_length; exact Hhi).
    rewrite repeat_length.
    rewrite (nth_indep _ 0%nat (length l / n)%nat) by (rewrite repeat_length; lia).
    rewrite nth_repeat. lia.
Qed.

Lemma sweep_calls fo eo rows :
  forall i self,
    fitCalls (base (fold_left (sweepStep fo eo) (combine (seq i (length rows)) rows) self))
    = fitCalls (base self)
      ++ map (fun row => {| call_hyperParameterValues := row; call_forwardOnly := fo;
                            call_evidenceOnly := eo; call_silent := true |}) rows.
Proof.
  induction rows as [|row rows IH]; intros i self.
  - cbn. rewrite app_nil_r. reflexivity.
  - cbn [length seq combine fold_left map]. rewrite IH.
    pose proof (sweepStep_spec fo eo self i row) as Hstep. cbv zeta in Hstep.
    destruct Hstep as (_ & _ & _ & _ & _ & Hc).
    rewrite Hc, <- app_assoc. reflexivity.
Qed.

Lemma parallelFit_section idx nJobs fo eo silent self :
  rasterValues (parallelFit idx nJobs fo eo silent self)
  = shard idx nJobs (rasterValues self)
  /\ hyperParameterPrior (parallelFit idx nJobs fo eo silent self)
     = Some (shard idx nJobs (arrayOf (hyperParameterPrior self)))
  /\ fitCalls (base (parallelFit idx nJobs fo eo silent self))
     = fitCalls (base self)
       ++ map (fun row => {| call_hyperParameterValues := row; call_forwardOnly := fo;
                             call_evidenceOnly := eo; call_silent := true |})
              (shard idx nJobs (rasterValues self)).
Proof.
  unfold parallelFit. cbv zeta.
  match goal with
  | |- context [sweep fo eo ?s] => set (S0 := s)
  end.
  destruct (sweep_grid fo eo S0) as (_ & Hv & _).
  split; [rewrite Hv; reflexivity|].
  split; [rewrite sweep_prior; reflexivity|].
  unfold sweep, enumerate. rewrite sweep_calls. reflexivity.
Qed.

(** The workers' sections, for [nJobs] workers: one after the other they
    are the raster values, each raster point in exactly one section; the
    sizes of two sections differ by at most one entry, the larger
    sections first; a prior with one entry per raster point is cut at the
    same places; and worker [idx] calls [Study.fit] once for every point
    of its section, in order, always with [silent=True]. *)
Theorem parallelFit_sections :
  forall nJobs forwardOnly evidenceOnly silent self,
    nJobs <> 0%nat ->
    let worker idx := parallelFit idx nJobs forwardOnly evidenceOnly silent self in
    let n := length (rasterValues self) in
    concat (map (fun idx => rasterValues (worker idx)) (seq 0 nJobs)) = rasterValues self
    /\ concat (map (fun idx => arrayOf (hyperParameterPrior (worker idx))) (seq 0 nJobs))
       = arrayOf (hyperParameterPrior self)
    /\ forall idx, (idx < nJobs)%nat ->
         length (rasterValues (worker idx))
         = (n / nJobs + (if (idx <? n mod nJobs)%nat then 1 else 0))%nat
         /\ (length (arrayOf (hyperParameterPrior self)) = n ->
             length (arrayOf (hyperParameterPrior (worker idx)))
             = length (rasterValues (worker idx)))
         /\ fitCalls (base (worker idx))
            = fitCalls (base self)
              ++ map (fun row => {| call_hyperParameterValues := row;
                                    call_forwardOnly := forwardOnly;
                                    call_evidenceOnly := evidenceOnly;
                                    call_silent := true |})
                     (rasterValues (worker idx)).
Proof.
  intros nJobs fo eo silent self Hn worker n.
  split; [|split].
  - rewrite (map_ext _ (fun idx => shard idx nJobs (rasterValues self)))
      by (intros idx; apply parallelFit_section).
    apply shards_concat. exact Hn.
  - rewrite (map_ext _ (fun idx => shard idx nJobs (arrayOf (hyperParameterPrior self)))).
    + apply shards_concat. exact Hn.
    + intros idx. subst worker. cbv beta.
      destruct (parallelFit_section idx nJobs fo eo silent self) as (_ & Hp & _).
      rewrite Hp. reflexivity.
  - intros idx Hidx. subst worker. cbv beta.
    destruct (parallelFit_section idx nJobs fo eo silent self) as (Hv & Hp & Hc).
    rewrite Hv, Hp, Hc. cbn [arrayOf].
    split; [apply shard_size; exact Hidx|].
    split; [|reflexivity].
    intros Hlen. apply shard_length. exact Hlen.
Qed.

End Sections.

(** The instance for two workers on the study prepared for the raster
    [[["sigma", 0, 1, 3]]]: the sections hold two points and one point. *)
Lemma parallelFit_sections_witness :
  length (rasterValues (parallelFit (SB := Example.base0) 0 2 false false false
                          PosteriorExample.v3)) = 2%nat
  /\ length (rasterValues (parallelFit (SB := Example.base0) 1 2 false false false
                             PosteriorExample.v3)) = 1%nat.
Proof.
  destruct (parallelFit_sections (SB := Example.base0) 2 false false false
              PosteriorExample.v3 ltac:(discriminate)) as (_ & _ & H).
  destruct (H 0%nat ltac:(lia)) as (H0 & _).
  destruct (H 1%nat ltac:(lia)) as (H1 & _).
  rewrite PosteriorExample.v3_values in H0, H1.
  split; [exact H0|exact H1].
Defined.

(** ** What a fit starts from *)

(** The prior over the raster points [values] that lines 103-132 compute
    when they do not return early. *)
Definition priorValues (prior : list RandomVariable) (values : list (list npfloat))
  : list npfloat :=
  match prior with
  | [] => Np.divide (Np.ones (length values)) (of_nat (length values))
  | _ :: _ =>
      match priorLoop 0 prior values (Np.ones (length values)) with
      | inl partial => partial
      | inr p => Np.divide p (Np.sum p)
      end
  end.

Section Inputs.

Context `{SB : StudyBase}.

(** The instance at the start of the sweep of a completed fit of a regular
    raster is determined by the arguments of [fit], the observations and
    the parameter grid of the study. *)
Lemma fit_finished_validated raster_arg prior fo eo silent nJobs pathos self :
  fst (fit raster_arg prior fo eo false silent nJobs pathos self) = Finished ->
  let v := validated raster_arg prior fo eo false silent self in
  rasterValues v = cartesian (axes raster_arg)
  /\ rasterConstant v
     = map (fun r => npdiv (npabs (npsub (upper r) (lower r)))
                           (npsub (of_nat (steps r)) (Fin 1))) raster_arg
  /\ hyperParameterPrior v = Some (priorValues prior (cartesian (axes raster_arg)))
  /\ formattedData (base v)
     = movingWindow (rawData (base self)) (segmentLength (base self))
  /\ selectedHyperParameters (base v) = map name raster_arg
  /\ gridSize (base v) = gridSize (base self)
  /\ grid (base v) = grid (base self)
  /\ averagePosteriorSequence v
     = (if eo then averagePosteriorSequence self
        else Some (Np.zeros2
                     (length (movingWindow (rawData (base self)) (segmentLength (base self))))
                     (Np.nat_prod (gridSize (base self))))).
Proof.
  intros Hfin v. subst v. unfold validated. unfold fit in Hfin.
  destruct raster_arg as [|r0 ra].
  { unfold prepareRaster in Hfin. simpl in Hfin. discriminate. }
  assert (Hne : r0 :: ra <> []) by discriminate.
  assert (Hprep : exists s1,
             prepareRaster (r0 :: ra) fo eo false silent self = inr s1
             /\ base s1 = base self
             /\ averagePosteriorSequence s1 = averagePosteriorSequence self
             /\ raster s1 = r0 :: ra
             /\ rasterValues s1 = cartesian (axes (r0 :: ra))
             /\ rasterConstant s1
                = map (fun r => npdiv (npabs (npsub (upper r) (lower r)))
                                      (npsub (of_nat (steps r)) (Fin 1))) (r0 :: ra)).
  { unfold prepareRaster. cbn [negb raster with_raster].
    eexists. split; [reflexivity|].
    cbn [base averagePosteriorSequence raster rasterValues rasterConstant
         with_rasterConstant with_rasterValues with_raster].
    repeat split. apply (transpose_meshgrid (axes (r0 :: ra))). discriminate. }
  destruct Hprep as (s1 & Hprep & Hb1 & Ha1 & Hr1 & Hv1 & Hc1).
  rewrite Hprep in Hfin |- *. cbn [stateOf].
  set (s1' := upd_base (fun b => with_formattedData
                                   (movingWindow (rawData b) (segmentLength b)) b) s1)
    in *.
  assert (Hs1' : rasterValues s1' = cartesian (axes (r0 :: ra))
                 /\ rasterConstant s1' = rasterConstant s1
                 /\ raster s1' = r0 :: ra
                 /\ averagePosteriorSequence s1' = averagePosteriorSequence self
                 /\ formattedData (base s1')
                    = movingWindow (rawData (base self)) (segmentLength (base self))
                 /\ gridSize (base s1') = gridSize (base self)
                 /\ grid (base s1') = grid (base self)).
  { subst s1'. cbn. rewrite Hb1. auto 10. }
  destruct Hs1' as (Hv & Hc & Hr & Ha & Hf & Hg & Hgr).
  destruct (determinePrior prior s1') as [[o s2]|s2] eqn:Hprior.
  { exfalso. unfold determinePrior in Hprior. destruct prior as [|rv prior]; [discriminate|].
    destruct (rasterValues s1') as [|row0 rows]; [inversion Hprior; subst; discriminate|].
    destruct (negb _); [inversion Hprior; subst; discriminate|].
    destruct (priorLoop _ _ _ _); inversion Hprior; subst; discriminate. }
  cbn [stateOf].
  assert (Hp : hyperParameterPrior s2
               = Some (priorValues prior (cartesian (axes (r0 :: ra))))).
  { unfold determinePrior in Hprior. unfold priorValues. rewrite <- Hv.
    destruct prior as [|rv prior].
    - inversion Hprior; subst. reflexivity.
    - destruct (rasterValues s1') as [|row0 rows] eqn:Hrows; [discriminate|].
      destruct (negb _); [discriminate|].
      cbn [rasterValues with_hyperParameterPrior hyperParameterPrior arrayOf] in Hprior.
      rewrite Hrows in Hprior.
      destruct (priorLoop _ _ _ _); inversion Hprior; subst. reflexivity. }
  apply determinePrior_continues in Hprior.
  destruct Hprior as (Hb2 & _ & Hr2 & Hv2 & Hc2 & Ha2 & _).
  destruct (initSweep_grid eo s2) as (_ & Iv & Ic).
  destruct (initSweep_lists eo s2) as (_ & _ & Ip & Ia).
  rewrite Iv, Ic, Ip, Ia, Hv2, Hc2, Hp, Hv, Hc, Hc1.
  assert (Hib : base (initSweep eo s2)
                = with_selectedHyperParameters (map name (raster s2)) (base s2)).
  { unfold initSweep. destruct eo; reflexivity. }
  rewrite Hib, Hr2, Hr, Hb2, Ha2, Ha.
  cbn [formattedData selectedHyperParameters gridSize grid with_selectedHyperParameters].
  rewrite Hf, Hg, Hgr. repeat split.
Qed.

End Inputs.

(** ** Earlier results of the instance *)

Section EarlierResults.

Context `{SB : StudyBase}.

Lemma aggregate_resets eo self :
  fst (aggregate eo self) = Finished ->
  hyperParameterPrior (snd (aggregate eo self)) = None
  /\ logEvidenceList (snd (aggregate eo self)) = []
  /\ localEvidenceList (snd (aggregate eo self)) = []
  /\ selectedHyperParameters (base (snd (aggregate eo self))) = [].
Proof.
  unfold aggregate. cbv zeta.
  destruct (Np.logsumexp _); [|destruct eo; discriminate].
  destruct eo; cbn; auto.
Qed.

Lemma aggregate_evidenceOnly_average self :
  averagePosteriorSequence (snd (aggregate true self)) = averagePosteriorSequence self.
Proof. unfold aggregate. cbv zeta. destruct (Np.logsumexp _); reflexivity. Qed.

Lemma runSweep_evidenceOnly_average fo silent nJobs pathos self :
  averagePosteriorSequence (runSweep fo true silent nJobs pathos self)
  = averagePosteriorSequence self.
Proof.
  unfold runSweep. cbv zeta. destruct (1 <? _)%Z.
  - apply (fold_left_keeps averagePosteriorSequence). intros s S. reflexivity.
  - unfold sweep. apply (fold_left_keeps averagePosteriorSequence). intros s ih.
    reflexivity.
Qed.

(** The instances at the start of the sweeps of two completed fits with
    the same arguments, on studies with the same observations and the same
    parameter grid, give the raster points the same results. *)
Lemma validated_agree raster_arg prior fo eo silent nJobs pathos self1 self2 :
  rawData (base self1) = rawData (base self2) ->
  segmentLength (base self1) = segmentLength (base self2) ->
  gridSize (base self1) = gridSize (base self2) ->
  fst (fit raster_arg prior fo eo false silent nJobs pathos self1) = Finished ->
  fst (fit raster_arg prior fo eo false silent nJobs pathos self2) = Finished ->
  let v1 := validated raster_arg prior fo eo false silent self1 in
  let v2 := validated raster_arg prior fo eo false silent self2 in
  rasterValues v1 = rasterValues v2
  /\ rasterConstant v1 = rasterConstant v2
  /\ hyperParameterPrior v1 = hyperParameterPrior v2
  /\ formattedData (base v1) = formattedData (base v2)
  /\ selectedHyperParameters (base v1) = selectedHyperParameters (base v2)
  /\ gridSize (base v1) = gridSize (base v2)
  /\ (eo = false -> averagePosteriorSequence v1 = averagePosteriorSequence v2).
Proof.
  intros Hraw Hseg Hgrid Hfin1 Hfin2 v1 v2.
  destruct (fit_finished_validated raster_arg prior fo eo silent nJobs pathos self1 Hfin1)
    as (Hv1 & Hc1 & Hp1 & Hf1 & Hs1 & Hg1 & _ & Ha1).
  destruct (fit_finished_validated raster_arg prior fo eo silent nJobs pathos self2 Hfin2)
    as (Hv2 & Hc2 & Hp2 & Hf2 & Hs2 & Hg2 & _ & Ha2).
  fold v1 in Hv1, Hc1, Hp1, Hf1, Hs1, Hg1, Ha1.
  fold v2 in Hv2, Hc2, Hp2, Hf2, Hs2, Hg2, Ha2.
  rewrite Hv1, Hv2, Hc1, Hc2, Hp1, Hp2, Hf1, Hf2, Hs1, Hs2, Hg1, Hg2, Hraw, Hseg, Hgrid.
  repeat split.
  intros ->. rewrite Ha1, Ha2, Hraw, Hseg, Hgrid. reflexivity.
Qed.

(** The results of a completed fit of a regular raster do not depend on
    what earlier fits left in the instance: two instances with the same
    observations and the same parameter grid get the same total
    log-evidence, hyper-parameter distribution and, unless evidence-only,
    the same averaged posterior sequence; the prior and the evidence lists
    are cleared.  An evidence-only fit leaves [averagePosteriorSequence] as
    it was before the call. *)
Theorem fit_independent_of_earlier_results :
  forall raster_arg prior forwardOnly evidenceOnly silent nJobs pathosAvailable
         self1 self2,
    rawData (base self1) = rawData (base self2) ->
    segmentLength (base self1) = segmentLength (base self2) ->
    gridSize (base self1) = gridSize (base self2) ->
    fst (fit raster_arg prior forwardOnly evidenceOnly false silent nJobs
           pathosAvailable self1) = Finished ->
    fst (fit raster_arg prior forwardOnly evidenceOnly false silent nJobs
           pathosAvailable self2) = Finished ->
    let r1 := snd (fit raster_arg prior forwardOnly evidenceOnly false silent nJobs
                     pathosAvailable self1) in
    let r2 := snd (fit raster_arg prior forwardOnly evidenceOnly false silent nJobs
                     pathosAvailable self2) in
    logEvidence (base r1) = logEvidence (base r2)
    /\ hyperParameterDistribution r1 = hyperParameterDistribution r2
    /\ hyperParameterPrior r1 = None
    /\ logEvidenceList r1 = [] /\ localEvidenceList r1 = []
    /\ (if evidenceOnly
        then averagePosteriorSequence r1 = averagePosteriorSequence self1
        else averagePosteriorSequence r1 = averagePosteriorSequence r2
             /\ posteriorSequence (base r1) = posteriorSequence (base r2)).
Proof.
  intros ra prior fo eo silent nJobs pathos self1 self2 Hraw Hseg Hgrid Hfin1 Hfin2 r1 r2.
  destruct (validated_agree ra prior fo eo silent nJobs pathos self1 self2 Hraw Hseg Hgrid
              Hfin1 Hfin2) as (Ev & Ec & Ep & Ef & Es & Eg & Ea).
  set (v1 := validated ra prior fo eo false silent self1) in *.
  set (v2 := validated ra prior fo eo false silent self2) in *.
  assert (Eres : forall rows, pointResults fo eo (base v1) rows
                              = pointResults fo eo (base v2) rows).
  { intros rows. unfold pointResults, pointResult. rewrite Ef, Es. reflexivity. }
  pose proof (fit_finished_logEvidence ra prior fo eo false silent nJobs pathos self1 Hfin1)
    as HL1.
  pose proof (fit_finished_logEvidence ra prior fo eo false silent nJobs pathos self2 Hfin2)
    as HL2.
  destruct (fit_finished_distribution ra prior fo eo false silent nJobs pathos self1 Hfin1)
    as (HD1 & _).
  destruct (fit_finished_distribution ra prior fo eo false silent nJobs pathos self2 Hfin2)
    as (HD2 & _).
  cbv zeta in HL1, HL2, HD1, HD2.
  fold v1 in HL1, HD1. fold v2 in HL2, HD2. fold r1 in HL1, HD1. fold r2 in HL2, HD2.
  unfold pointLogEvidences in HL1, HD1, HL2, HD2.
  rewrite Eres, Ev, Ep in HL1. rewrite Eres, Ev, Ep, Ec in HD1.
  destruct (fit_finished ra prior fo eo false silent nJobs pathos self1 Hfin1)
    as (Hfit1 & _).
  fold v1 in Hfit1.
  assert (Hagg : fst (aggregate eo (runSweep fo eo silent nJobs pathos v1)) = Finished)
    by (rewrite <- Hfit1; exact Hfin1).
  destruct (aggregate_resets eo _ Hagg) as (Rp & Rl & Rloc & _).
  rewrite <- Hfit1 in Rp, Rl, Rloc. fold r1 in Rp, Rl, Rloc.
  split; [congruence|]. split; [congruence|].
  split; [exact Rp|]. split; [exact Rl|]. split; [exact Rloc|].
  destruct eo.
  - subst r1. rewrite Hfit1.
    rewrite aggregate_evidenceOnly_average, runSweep_evidenceOnly_average.
    destruct (fit_finished_validated ra prior fo true silent nJobs pathos self1 Hfin1)
      as (_ & _ & _ & _ & _ & _ & _ & Hav).
    exact Hav.
  - specialize (Ea eq_refl).
    pose proof (fit_posteriorSequence ra prior fo false silent nJobs pathos self1 Hfin1)
      as HP1.
    pose proof (fit_posteriorSequence ra prior fo false silent nJobs pathos self2 Hfin2)
      as HP2.
    cbv zeta in HP1, HP2. fold r1 in HP1. fold r2 in HP2.
    assert (Havg : averagePosteriorSequence r1 = averagePosteriorSequence r2).
    { destruct (singleProcess nJobs pathos) eqn:Hsingle.
      - destruct (fit_finished_average ra prior fo silent nJobs pathos false self1 Hfin1
                    Hsingle) as (H1 & _).
        destruct (fit_finished_average ra prior fo silent nJobs pathos false self2 Hfin2
                    Hsingle) as (H2 & _).
        fold v1 in H1. fold v2 in H2. fold r1 in H1. fold r2 in H2.
        rewrite H1, H2, Eres, Ev, Ep, Ef, Eg. reflexivity.
      - pose proof (fit_finished_average_parallel ra prior fo silent nJobs pathos false self1
                      Hfin1 Hsingle) as H1.
        pose proof (fit_finished_average_parallel ra prior fo silent nJobs pathos false self2
                      Hfin2 Hsingle) as H2.
        cbv zeta in H1, H2. fold v1 in H1. fold v2 in H2. fold r1 in H1. fold r2 in H2.
        rewrite H1, H2, Ea. do 3 f_equal.
        apply map_ext. intros idx. unfold shardAccumulator. cbv zeta.
        rewrite Eres, Ev, Ep, Ea. reflexivity. }
    split; [exact Havg|]. rewrite HP1, HP2, Havg. reflexivity.
Qed.

End EarlierResults.

(** The instance: a second fit of the raster [[["sigma", 0, 1, 2]]] on the
    instance the first fit left behind gives the log-evidence and the
    distribution of the first. *)
Lemma fit_independent_of_earlier_results_witness :
  let first :=
    snd (fit (SB := Example.base0) [Example.sigma 0 1 2] [] false false false false 1%Z
           false Example.study0) in
  let second :=
    snd (fit (SB := Example.base0) [Example.sigma 0 1 2] [] false false false false 1%Z
           false first) in
  logEvidence (base second) = logEvidence (base first)
  /\ hyperParameterDistribution second = hyperParameterDistribution first
  /\ averagePosteriorSequence second = averagePosteriorSequence first.
Proof.
  intros first second.
  destruct (fit_independent_of_earlier_results (SB := Example.base0)
              [Example.sigma 0 1 2] [] false false false 1%Z false first Example.study0
              eq_refl eq_refl eq_refl eq_refl eq_refl) as (H1 & H2 & _ & _ & _ & H3 & _).
  split; [exact H1|split; [exact H2|exact H3]].
Defined.

(** * [RasterStudy.plotJointHyperParameterDistribution] *)

(** The [params] argument: a list or tuple of parameters, or anything
    else. *)
Inductive ParamsArg : Type :=
| ParamsList (params : list Param)
| ParamsOther.

(** What the method hands back: the three arrays (the two coordinate
    arrays of [np.meshgrid] and the marginal distribution, each flat in C
    order), [None] after a message, or an exception of a list or array
    operation. *)
Inductive JointResult : Type :=
| JointReturned (x y marginalDistribution : list npfloat)
| JointNone
| JointRaised.

Definition isIndex (p : Param) : bool :=
  match p with ParamIndex _ => true | _ => false end.

Definition isName (p : Param) : bool :=
  match p with ParamName _ => true | _ => false end.

Definition indexOf (p : Param) : list Z :=
  match p with ParamIndex i => [i] | _ => [] end.

Definition nameOf (p : Param) : list string :=
  match p with ParamName n => [n] | _ => [] end.

(** Lines 399-403: for every raster entry in turn, its index once for
    every parameter that is its name. *)
Definition findParamIndices (params : list string) (hyperParameterNames : list string)
  : list Z :=
  flat_map (fun iname =>
              flat_map (fun p => if String.eqb (snd iname) p
                                 then [Z.of_nat (fst iname)] else [])
                       params)
           (enumerate hyperParameterNames).

(** Lines 424-425: [axesToMarginalize.remove(p)] for every index; [None]
    stands for the [ValueError] of [list.remove]. *)
Fixpoint remove_each (paramIndices : list Z) (axes : list nat) : option (list nat) :=
  match paramIndices with
  | [] => Some axes
  | p :: rest =>
      if (p <? 0)%Z then None
      else match list_remove (Z.to_nat p) axes with
           | None => None
           | Some axes' => remove_each rest axes'
           end
  end.

(** Lines 413-464 and 471, from the message about the number of matches
    on.  [paramIndices[1]] raises [IndexError] on a single match.  The
    array is kept flat in C order; [np.squeeze] then changes nothing.
    [np.amax] raises [ValueError] on an empty array.  The calls of
    matplotlib are left out, the look-ups of the spacing constants among
    their arguments are kept. *)
Definition marginalizeJoint (paramIndices : list Z) (self : RasterStudy) : JointResult :=
  let hyperParameterNames := map name (raster self) in
  match paramIndices with
  | p0 :: p1 :: _ =>
      let paramIndices := if negb (p0 <? p1)%Z then rev paramIndices else paramIndices in
      match remove_each paramIndices (seq 0 (length hyperParameterNames)) with
      | None => JointRaised
      | Some axesToMarginalize =>
          let rasterSteps := map steps (raster self) in
          match hyperParameterDistribution self with
          | None => JointRaised
          | Some distribution =>
              if negb (length distribution =? Np.nat_prod rasterSteps)%nat then JointRaised
              else
                let marginalDistribution :=
                  Np.apply_over_axes_sum rasterSteps axesToMarginalize distribution in
                match lookup_all (rasterConstant self) axesToMarginalize with
                | None => JointRaised
                | Some constants =>
                    let integrationFactor := Np.prod constants in
                    let marginalDistribution :=
                      Np.scale integrationFactor marginalDistribution in
                    match paramIndices with
                    | q0 :: q1 :: _ =>
                        match nth_error (raster self) (Z.to_nat q0),
                              nth_error (raster self) (Z.to_nat q1) with
                        | Some r0, Some r1 =>
                            match Np.meshgrid_ij_ravel
                                    [Np.linspace (lower r0) (upper r0) (steps r0);
                                     Np.linspace (lower r1) (upper r1) (steps r1)] with
                            | [x; y] =>
                                match marginalDistribution with
                                | [] => JointRaised
                                | _ :: _ =>
                                    match nth_error (rasterConstant self) (Z.to_nat q0),
                                          nth_error (rasterConstant self) (Z.to_nat q1) with
                                    | Some _, Some _ =>
                                        JointReturned x y marginalDistribution
                                    | _, _ => JointRaised
                                    end
                                end
                            | _ => JointRaised
                            end
                        | _, _ => JointRaised
                        end
                    | _ => JointRaised
                    end
                end
          end
      end
  | _ => JointRaised
  end.

(** Lines 387-411: the parameters are resolved to indices. *)
Definition plotJointHyperParameterDistribution (params : ParamsArg) (self : RasterStudy)
  : JointResult :=
  let hyperParameterNames := map name (raster self) in
  match params with
  | ParamsOther => JointNone
  | ParamsList params =>
      if negb (length params =? 2)%nat then JointNone
      else if forallb isIndex params then
        marginalizeJoint (flat_map indexOf params) self
      else if forallb isName params then
        let paramIndices := findParamIndices (flat_map nameOf params) hyperParameterNames in
        match paramIndices with
        | [] => JointNone
        | _ :: _ => marginalizeJoint paramIndices self
        end
      else JointNone
  end.

(** ** How the two parameters are resolved *)

Section JointParameters.

Lemma findParamIndices_from_none params :
  forall names off,
    (forall p, In p params -> ~ In p names) ->
    flat_map (fun iname =>
                flat_map (fun p => if String.eqb (snd iname) p
                                   then [Z.of_nat (fst iname)] else [])
                         params)
             (combine (seq off (length names)) names) = [].
Proof.
  induction names as [|x names IH]; intros off Hnot; [reflexivity|].
  cbn [length seq combine flat_map fst snd].
  rewrite IH by (intros p Hp Hin; apply (Hnot p Hp); right; exact Hin).
  rewrite app_nil_r.
  assert (Hx : forall p, In p params -> String.eqb x p = false).
  { intros p Hp. apply String.eqb_neq. intros ->. apply (Hnot p Hp). left. reflexivity. }
  clear -Hx. induction params as [|p params IHp]; [reflexivity|].
  cbn [flat_map]. rewrite (Hx p) by (left; reflexivity).
  apply IHp. intros p' Hp'. apply Hx. right. exact Hp'.
Qed.

Lemma flat_map_head {A B : Type} (f : A -> list B) x l :
  flat_map f (x :: l) = f x ++ flat_map f l.
Proof. reflexivity. Qed.

Lemma enumerate_app {A : Type} (u v : list A) off :
  combine (seq off (length (u ++ v))) (u ++ v)
  = combine (seq off (length u)) u ++ combine (seq (off + length u) (length v)) v.
Proof.
  revert off. induction u as [|a u IH]; intros off.
  - cbn. rewrite Nat.add_0_r. reflexivity.
  - cbn [app length seq combine]. rewrite IH.
    replace (S off + length u)%nat with (off + S (length u))%nat by lia. reflexivity.
Qed.

(** The indices found for two names, when the names of the raster are
    pairwise different. *)
Lemma findParamIndices_two a b names :
  NoDup names ->
  findParamIndices [a; b] names = findParamIndices [b; a] names
  /\ (~ In a names -> ~ In b names -> findParamIndices [a; b] names = [])
  /\ (forall i, nth_error names i = Some a -> ~ In b names ->
        findParamIndices [a; b] names = [Z.of_nat i])
  /\ (forall i, nth_error names i = Some a -> a = b ->
        findParamIndices [a; b] names = [Z.of_nat i; Z.of_nat i]).
Proof.
  intros Hnd. split; [|split; [|split]].
  - unfold findParamIndices. apply flat_map_ext. intros [i x]. cbn [flat_map fst snd].
    destruct (String.eqb x a), (String.eqb x b); reflexivity.
  - intros Ha Hb. apply findParamIndices_from_none.
    intros p [<-|[<-|[]]]; assumption.
  - intros i Hi Hb.
    destruct (nth_error_split names i Hi) as (l1 & l2 & Hnames & Hlen).
    subst names. apply NoDup_remove_2 in Hnd.
    unfold findParamIndices, enumerate.
    rewrite enumerate_app, flat_map_app.
    rewrite findParamIndices_from_none.
    2:{ intros p [<-|[<-|[]]] Hin.
        - apply Hnd. apply in_or_app. left. exact Hin.
        - apply Hb. apply in_or_app. left. exact Hin. }
    cbn [length seq combine]. rewrite flat_map_head.
    rewrite findParamIndices_from_none.
    2:{ intros p [<-|[<-|[]]] Hin.
        - apply Hnd. apply in_or_app. right. exact Hin.
        - apply Hb. apply in_or_app. right. right. exact Hin. }
    cbn [flat_map fst snd app].
    rewrite String.eqb_refl.
    assert (Hab : String.eqb a b = false).
    { apply String.eqb_neq. intros ->. apply Hb. apply in_or_app. right. left.
      reflexivity. }
    rewrite Hab. cbn. rewrite Hlen. reflexivity.
  - intros i Hi <-.
    destruct (nth_error_split names i Hi) as (l1 & l2 & Hnames & Hlen).
    subst names. apply NoDup_remove_2 in Hnd.
    unfold findParamIndices, enumerate.
    rewrite enumerate_app, flat_map_app.
    rewrite findParamIndices_from_none.
    2:{ intros p [<-|[<-|[]]] Hin; apply Hnd; apply in_or_app; left; exact Hin. }
    cbn [length seq combine]. rewrite flat_map_head.
    rewrite findParamIndices_from_none.
    2:{ intros p [<-|[<-|[]]] Hin; apply Hnd; apply in_or_app; right; exact Hin. }
    cbn [flat_map fst snd app].
    rewrite String.eqb_refl. cbn. rewrite Hlen. reflexivity.
Qed.

Lemma list_remove_incl x l :
  forall l', list_remove x l = Some l' -> In x l /\ incl l' l.
Proof.
  induction l as [|y l IH]; intros l' H; [discriminate|].
  cbn [list_remove] in H. destruct (Nat.eqb_spec y x) as [->|Hne].
  - inversion H; subst. split; [left; reflexivity|]. intros z Hz. right. exact Hz.
  - destruct (list_remove x l) as [r|] eqn:Hr; [|discriminate].
    inversion H; subst. destruct (IH r eq_refl) as (Hin & Hincl).
    split; [right; exact Hin|].
    intros z [<-|Hz]; [left; reflexivity|right; apply Hincl; exact Hz].
Qed.

Lemma remove_each_in paramIndices :
  forall axes axes',
    remove_each paramIndices axes = Some axes' ->
    forall p, In p paramIndices -> (0 <= p)%Z /\ In (Z.to_nat p) axes.
Proof.
  induction paramIndices as [|q rest IH]; intros axes axes' H p Hp; [contradiction|].
  cbn [remove_each] in H.
  destruct (Z.ltb_spec q 0) as [Hneg|Hpos]; [discriminate|].
  destruct (list_remove (Z.to_nat q) axes) as [r|] eqn:Hr; [|discriminate].
  destruct (list_remove_incl _ _ _ Hr) as (Hin & Hincl).
  destruct Hp as [<-|Hp].
  - split; [exact Hpos|exact Hin].
  - destruct (IH r axes' H p Hp) as (H0 & Hin'). split; [exact H0|].
    apply Hincl. exact Hin'.
Qed.

Lemma remove_each_twice i axes : NoDup axes -> remove_each [i; i] axes = None.
Proof.
  intros Hnd. cbn [remove_each].
  destruct (i <? 0)%Z; [reflexivity|].
  destruct (list_remove (Z.to_nat i) axes) as [r|] eqn:Hr; [|reflexivity].
  rewrite list_remove_absent; [reflexivity|].
  clear -Hnd Hr. revert r Hr.
  induction axes as [|y axes IH]; intros r Hr; [discriminate|].
  cbn [list_remove] in Hr. inversion Hnd as [|? ? Hy Hnd']; subst.
  destruct (Nat.eqb_spec y (Z.to_nat i)) as [Heq|Hne].
  - inversion Hr; subst. exact Hy.
  - destruct (list_remove (Z.to_nat i) axes) as [r'|] eqn:Hr'; [|discriminate].
    inversion Hr; subst. intros [Heq|Hin]; [congruence|].
    exact (IH Hnd' r' eq_refl Hin).
Qed.

Lemma marginalizeJoint_raises_on paramIndices p0 p1 tl self :
  paramIndices = p0 :: p1 :: tl ->
  remove_each (if negb (p0 <? p1)%Z then rev paramIndices else paramIndices)
              (seq 0 (length (raster self))) = None ->
  marginalizeJoint paramIndices self = JointRaised.
Proof.
  intros -> H. unfold marginalizeJoint. cbv zeta. rewrite length_map, H. reflexivity.
Qed.

Lemma marginalizeJoint_switch i j self :
  marginalizeJoint [i; j] self = marginalizeJoint [j; i] self.
Proof.
  unfold marginalizeJoint. cbv zeta.
  destruct (Z.ltb_spec i j) as [Hij|Hij]; destruct (Z.ltb_spec j i) as [Hji|Hji];
    cbn [negb rev app]; try reflexivity; try lia.
  assert (i = j) by lia. subst. reflexivity.
Qed.

(** The order of the two parameters does not matter: the two indices, or
    the two names, the other way round give the same result. *)
Theorem plotJoint_order_irrelevant :
  forall self,
    (forall i j,
        plotJointHyperParameterDistribution (ParamsList [ParamIndex i; ParamIndex j]) self
        = plotJointHyperParameterDistribution (ParamsList [ParamIndex j; ParamIndex i]) self)
    /\ (forall a b,
          plotJointHyperParameterDistribution (ParamsList [ParamName a; ParamName b]) self
          = plotJointHyperParameterDistribution (ParamsList [ParamName b; ParamName a])
              self).
Proof.
  intros self. split.
  - intros i j.
    change (marginalizeJoint [i; j] self = marginalizeJoint [j; i] self).
    apply marginalizeJoint_switch.
  - intros a b. unfold plotJointHyperParameterDistribution.
    cbn [length Nat.eqb negb forallb isIndex isName andb flat_map nameOf app].
    cbv zeta.
    replace (findParamIndices [b; a] (map name (raster self)))
      with (findParamIndices [a; b] (map name (raster self))); [reflexivity|].
    unfold findParamIndices. apply flat_map_ext. intros [i x]. cbn [flat_map fst snd].
    destruct (String.eqb x a), (String.eqb x b); reflexivity.
Qed.

(** Parameters that cannot be resolved.  Two names of which none is in
    the raster end the call after a message.  When the names of the
    raster are pairwise different: two names of which exactly one is in
    the raster end it, after a message, with the [IndexError] of
    [paramIndices[1]]; the same name twice with the [ValueError] of
    [list.remove].  The same index twice, or an index outside the raster,
    end it with that [ValueError] as well. *)
Theorem plotJoint_unresolved :
  forall self,
    let names := map name (raster self) in
    (forall a b, ~ In a names -> ~ In b names ->
       plotJointHyperParameterDistribution (ParamsList [ParamName a; ParamName b]) self
       = JointNone)
    /\ (NoDup names ->
        forall a b, In a names -> ~ In b names ->
          plotJointHyperParameterDistribution (ParamsList [ParamName a; ParamName b]) self
          = JointRaised
          /\ plotJointHyperParameterDistribution (ParamsList [ParamName b; ParamName a])
               self = JointRaised)
    /\ (NoDup names ->
        forall a, In a names ->
          plotJointHyperParameterDistribution (ParamsList [ParamName a; ParamName a]) self
          = JointRaised)
    /\ (forall i,
          plotJointHyperParameterDistribution (ParamsList [ParamIndex i; ParamIndex i]) self
          = JointRaised)
    /\ (forall i j,
          (i < 0 \/ Z.of_nat (length (raster self)) <= i
           \/ j < 0 \/ Z.of_nat (length (raster self)) <= j)%Z ->
          plotJointHyperParameterDistribution (ParamsList [ParamIndex i; ParamIndex j]) self
          = JointRaised).
Proof.
  intros self names.
  assert (Hname : forall a b,
             plotJointHyperParameterDistribution (ParamsList [ParamName a; ParamName b])
               self
             = match findParamIndices [a; b] names with
               | [] => JointNone
               | _ :: _ => marginalizeJoint (findParamIndices [a; b] names) self
               end) by reflexivity.
  split; [|split; [|split; [|split]]].
  - intros a b Ha Hb. rewrite Hname.
    unfold findParamIndices, enumerate.
    rewrite findParamIndices_from_none; [reflexivity|].
    intros p [<-|[<-|[]]]; assumption.
  - intros Hnd a b Ha Hb.
    destruct (In_nth_error names a Ha) as (i & Hi).
    destruct (findParamIndices_two a b names Hnd) as (Hsym & _ & Hone & _).
    assert (H : plotJointHyperParameterDistribution
                  (ParamsList [ParamName a; ParamName b]) self = JointRaised).
    { rewrite Hname, (Hone i Hi Hb). reflexivity. }
    split; [exact H|].
    rewrite Hname, <- Hsym, <- Hname. exact H.
  - intros Hnd a Ha.
    destruct (In_nth_error names a Ha) as (i & Hi).
    destruct (findParamIndices_two a a names Hnd) as (_ & _ & _ & Htwo).
    rewrite Hname, (Htwo i Hi eq_refl).
    apply (marginalizeJoint_raises_on _ (Z.of_nat i) (Z.of_nat i) []); [reflexivity|].
    rewrite Z.ltb_irrefl. cbn [negb rev app].
    apply remove_each_twice. apply seq_NoDup.
  - intros i.
    change (plotJointHyperParameterDistribution
              (ParamsList [ParamIndex i; ParamIndex i]) self)
      with (marginalizeJoint [i; i] self).
    apply (marginalizeJoint_raises_on _ i i []); [reflexivity|].
    rewrite Z.ltb_irrefl. cbn [negb rev app].
    apply remove_each_twice. apply seq_NoDup.
  - intros i j Hout.
    change (plotJointHyperParameterDistribution
              (ParamsList [ParamIndex i; ParamIndex j]) self)
      with (marginalizeJoint [i; j] self).
    apply (marginalizeJoint_raises_on _ i j []); [reflexivity|].
    match goal with
    | |- remove_each ?ps ?axes = None =>
        destruct (remove_each ps axes) as [axes'|] eqn:Hrem; [|reflexivity];
        assert (Hin : In i ps /\ In j ps)
    end.
    { destruct (negb (i <? j)%Z); cbn; auto. }
    exfalso. destruct Hin as (Hi & Hj).
    destruct (remove_each_in _ _ _ Hrem i Hi) as (Hi0 & Hiin).
    destruct (remove_each_in _ _ _ Hrem j Hj) as (Hj0 & Hjin).
    rewrite in_seq in Hiin, Hjin. lia.
Qed.

End JointParameters.

(** ** Joint marginal distributions *)

(** The sum of the entries of a C-ordered array of the given shape whose
    index along axis [p] is [j] and along axis [q] is [k], for [p < q]:
    the sum over all other dimensions. *)
Fixpoint pick2R (shape : list nat) (p q j k : nat) (flat : list R) : R :=
  match shape with
  | [] => 0
  | n :: rest =>
      match p, q with
      | O, S q' => pickR rest q' k (nth j (Np.chunks (Np.nat_prod rest) n flat) [])
      | S p', S q' =>
          Rsum (map (pick2R rest p' q' j k) (Np.chunks (Np.nat_prod rest) n flat))
      | _, O => 0
      end
  end.

(** The joint marginal as the specification words it: for every pair of
    indices along the two kept axes, the density summed over all other
    dimensions; flat, the index along [q] varying fastest. *)
Definition jointSums (shape : list nat) (p q : nat) (flat : list R) : list R :=
  flat_map (fun j => map (fun k => pick2R shape p q j k flat) (seq 0 (nth q shape 0%nat)))
           (seq 0 (nth p shape 0%nat)).

(** The joint marginal as [np.apply_over_axes] reaches it. *)
Fixpoint jointR (shape : list nat) (p q : nat) (flat : list R) : list R :=
  match shape with
  | [] => flat
  | n :: rest =>
      match p, q with
      | O, S q' => concat (map (marginalR rest q') (Np.chunks (Np.nat_prod rest) n flat))
      | S p', S q' =>
          jointR rest p' q' (vsumR (Np.nat_prod rest) (Np.chunks (Np.nat_prod rest) n flat))
      | _, O => flat
      end
  end.

(** The axes other than [p] and [q] among [D], for [p < q], in increasing
    order. *)
Definition otherAxes2 (p q D : nat) : list nat :=
  seq 0 p ++ seq (S p) (q - S p) ++ seq (S q) (D - S q).

Section JointMarginal.

Lemma otherAxes2_zero q D : otherAxes2 0 (S q) (S D) = map S (otherAxes q D).
Proof.
  unfold otherAxes2, otherAxes. cbn [seq app Nat.sub].
  rewrite Nat.sub_0_r, map_app, !seq_shift. reflexivity.
Qed.

Lemma otherAxes2_succ p q D :
  otherAxes2 (S p) (S q) (S D) = 0%nat :: map S (otherAxes2 p q D).
Proof.
  unfold otherAxes2. cbn [seq app Nat.sub]. rewrite !map_app, !seq_shift. reflexivity.
Qed.

(** The sums [np.apply_over_axes] takes over the axes other than [p] and
    [q]. *)
Lemma apply_over_other2_axes shape :
  forall p q c,
    (p < q)%nat -> (q < length shape)%nat ->
    length c = Np.nat_prod shape ->
    Np.apply_over_axes_sum shape (otherAxes2 p q (length shape)) (map Fin c)
    = map Fin (jointR shape p q c).
Proof.
  induction shape as [|n rest IH]; intros p q c Hpq Hq Hlen; [simpl in Hq; lia|].
  change (Np.nat_prod (n :: rest)) with (n * Np.nat_prod rest)%nat in Hlen.
  assert (Hall : Forall (fun r => length r = Np.nat_prod rest)
                   (Np.chunks (Np.nat_prod rest) n c))
    by (apply chunks_all; exact Hlen).
  cbn [length]. destruct q as [|q]; [lia|]. destruct p as [|p].
  - rewrite otherAxes2_zero.
    rewrite apply_over_later_axes by (rewrite length_map; exact Hlen).
    rewrite chunks_map, map_map. cbn [jointR].
    rewrite (map_ext_in _ (fun r => map Fin (marginalR rest q r))).
    + rewrite concat_map, map_map. reflexivity.
    + intros r Hr. apply apply_over_other_axes; [simpl in Hq; lia|].
      rewrite Forall_forall in Hall. apply Hall. exact Hr.
  - rewrite otherAxes2_succ.
    cbn [Np.apply_over_axes_sum Np.sum_axis Np.collapse jointR].
    rewrite chunks_map, vsum_fin.
    pose proof (vsumR_length _ _ Hall) as Hv.
    rewrite apply_over_later_axes by (rewrite length_map, Hv; lia).
    rewrite chunks_one by (rewrite length_map; exact Hv).
    cbn [map concat]. rewrite app_nil_r.
    apply IH; [lia|simpl in Hq; lia|exact Hv].
Qed.

Lemma jointR_total shape :
  forall p q c,
    (p < q)%nat -> length c = Np.nat_prod shape -> Rsum (jointR shape p q c) = Rsum c.
Proof.
  induction shape as [|n rest IH]; intros p q c Hpq Hlen; [reflexivity|].
  change (Np.nat_prod (n :: rest)) with (n * Np.nat_prod rest)%nat in Hlen.
  assert (Hall : Forall (fun r => length r = Np.nat_prod rest)
                   (Np.chunks (Np.nat_prod rest) n c))
    by (apply chunks_all; exact Hlen).
  destruct q as [|q]; [lia|]. destruct p as [|p]; cbn [jointR].
  - rewrite Rsum_concat, map_map.
    rewrite (map_ext_in _ Rsum).
    + apply Rsum_chunks. exact Hlen.
    + intros r Hr. apply marginalR_total.
      rewrite Forall_forall in Hall. apply Hall. exact Hr.
  - rewrite IH by (try apply vsumR_length; try exact Hall; lia).
    rewrite Rsum_vsumR by exact Hall. apply Rsum_chunks. exact Hlen.
Qed.

Lemma nth_chunk_length {A : Type} m n (l : list A) j :
  length l = (n * m)%nat -> (j < n)%nat ->
  length (nth j (Np.chunks m n l) []) = m.
Proof.
  intros Hlen Hj. pose proof (chunks_all m n l Hlen) as Hall.
  rewrite Forall_forall in Hall. apply Hall. apply nth_In.
  rewrite chunks_length. exact Hj.
Qed.

Lemma pick2R_add shape :
  forall p q j k u v,
    length u = Np.nat_prod shape -> length v = Np.nat_prod shape ->
    pick2R shape p q j k (Np.zipWith Rplus u v)
    = pick2R shape p q j k u + pick2R shape p q j k v.
Proof.
  induction shape as [|n rest IH]; intros p q j k u v Hu Hv; [simpl; lra|].
  change (Np.nat_prod (n :: rest)) with (n * Np.nat_prod rest)%nat in Hu, Hv.
  pose proof (chunks_all (Np.nat_prod rest) n u Hu) as Hcu.
  pose proof (chunks_all (Np.nat_prod rest) n v Hv) as Hcv.
  pose proof (chunks_length (Np.nat_prod rest) n u) as Hlu.
  pose proof (chunks_length (Np.nat_prod rest) n v) as Hlv.
  destruct q as [|q]; [destruct p; simpl; lra|].
  destruct p as [|p]; cbn [pick2R]; rewrite chunks_zipWith by lia.
  - destruct (Nat.lt_ge_cases j n) as [Hj|Hj].
    + rewrite (nth_zipWith_lt _ _ _ j [] [] []) by lia.
      apply pickR_add; apply nth_chunk_length; assumption.
    + rewrite !nth_overflow
        by (rewrite ?zipWith_length_min, ?Hlu, ?Hlv; lia).
      rewrite (pickR_zeros rest q k []) by constructor. lra.
  - revert Hcu Hcv Hlu Hlv.
    generalize (Np.chunks (Np.nat_prod rest) n u) as cu.
    generalize (Np.chunks (Np.nat_prod rest) n v) as cv.
    intros cv cu Hcu. clear Hu Hv. revert cv n.
    induction Hcu as [|r cu Hr _ IHc]; intros cv n Hcv Hlu Hlv.
    + destruct cv; [|simpl in *; lia]. simpl; lra.
    + destruct cv as [|r' cv]; [simpl in *; lia|].
      inversion Hcv as [|? ? Hr' Hcv']; subst.
      cbn [Np.zipWith map Rsum fold_right].
      rewrite (IH p q j k r r' Hr Hr').
      specialize (IHc cv (length cu) Hcv' eq_refl ltac:(simpl in *; lia)).
      unfold Rsum in IHc. rewrite IHc. lra.
Qed.

Lemma pick2R_zeros shape :
  forall p q j k flat, Forall (fun x => x = 0) flat -> pick2R shape p q j k flat = 0.
Proof.
  induction shape as [|n rest IH]; intros p q j k flat Hz; [reflexivity|].
  pose proof (chunks_Forall _ (Np.nat_prod rest) n flat Hz) as Hc.
  destruct q as [|q]; [destruct p; reflexivity|].
  destruct p as [|p]; cbn [pick2R].
  - apply pickR_zeros.
    destruct (Nat.lt_ge_cases j (length (Np.chunks (Np.nat_prod rest) n flat))) as [Hlt|Hge].
    + rewrite Forall_forall in Hc. apply Hc. apply nth_In. exact Hlt.
    + rewrite nth_overflow by exact Hge. constructor.
  - apply Rsum_zeros. rewrite Forall_map. eapply Forall_impl; [|exact Hc].
    intros r Hr. apply IH. exact Hr.
Qed.

Lemma pick2R_vsumR shape p q j k rows :
  Forall (fun r => length r = Np.nat_prod shape) rows ->
  pick2R shape p q j k (vsumR (Np.nat_prod shape) rows)
  = Rsum (map (pick2R shape p q j k) rows).
Proof.
  induction 1 as [|r rows Hr Hall IH].
  - cbn. apply pick2R_zeros. apply Forall_forall. intros x Hx.
    apply repeat_spec in Hx. exact Hx.
  - cbn [map]. rewrite vsumR_cons, pick2R_add.
    + rewrite IH. reflexivity.
    + exact Hr.
    + apply vsumR_length. exact Hall.
Qed.

(** The sums taken axis by axis are the sums over all other dimensions. *)
Lemma jointR_spec shape :
  forall p q c,
    (p < q)%nat -> (q < length shape)%nat ->
    length c = Np.nat_prod shape ->
    jointR shape p q c = jointSums shape p q c.
Proof.
  induction shape as [|n rest IH]; intros p q c Hpq Hq Hlen; [simpl in Hq; lia|].
  change (Np.nat_prod (n :: rest)) with (n * Np.nat_prod rest)%nat in Hlen.
  pose proof (chunks_all (Np.nat_prod rest) n c Hlen) as Hall.
  unfold jointSums. destruct q as [|q]; [lia|].
  destruct p as [|p]; cbn [jointR pick2R nth].
  - rewrite flat_map_concat_map.
    rewrite <- (chunks_length (Np.nat_prod rest) n c) at 2.
    rewrite <- (map_map (fun j => nth j (Np.chunks (Np.nat_prod rest) n c) [])
                        (fun r => map (fun k => pickR rest q k r)
                                      (seq 0 (nth q rest 0%nat)))).
    rewrite nth_all. f_equal. apply map_ext_in. intros r Hr.
    rewrite marginalR_spec; [reflexivity|simpl in Hq; lia|].
    rewrite Forall_forall in Hall. apply Hall. exact Hr.
  - rewrite IH by (try apply vsumR_length; try exact Hall; simpl in Hq; lia).
    unfold jointSums. apply flat_map_ext. intros j. apply map_ext. intros k.
    apply pick2R_vsumR. exact Hall.
Qed.

Lemma Rsum_map_plus {B : Type} (g h : B -> R) (l : list B) :
  Rsum (map (fun c => g c + h c) l) = Rsum (map g l) + Rsum (map h l).
Proof.
  unfold Rsum. induction l as [|c l IH]; simpl; [lra|]. rewrite IH. lra.
Qed.

Lemma Rsum_map_zero {B : Type} (l : list B) : Rsum (map (fun _ => 0) l) = 0.
Proof. unfold Rsum. induction l as [|c l IH]; simpl; [reflexivity|]. rewrite IH. lra. Qed.

Lemma Rsum_swap {A B : Type} (f : A -> B -> R) (ks : list A) (l : list B) :
  Rsum (map (fun k => Rsum (map (f k) l)) ks)
  = Rsum (map (fun c => Rsum (map (fun k => f k c) ks)) l).
Proof.
  induction ks as [|k ks IH].
  - cbn [map]. rewrite Rsum_map_zero. reflexivity.
  - rewrite (map_ext (fun c => Rsum (map (fun k0 => f k0 c) (k :: ks)))
                     (fun c => f k c + Rsum (map (fun k0 => f k0 c) ks)))
      by (intros c; reflexivity).
    rewrite (Rsum_map_plus (f k)), <- IH. reflexivity.
Qed.

(** Summing the joint sums over the second kept axis leaves the sums of
    the first, and the other way round. *)
Lemma pick2R_sum_q shape :
  forall p q j c,
    (p < q)%nat -> (q < length shape)%nat ->
    length c = Np.nat_prod shape -> (j < nth p shape 0)%nat ->
    Rsum (map (fun k => pick2R shape p q j k c) (seq 0 (nth q shape 0%nat)))
    = pickR shape p j c.
Proof.
  induction shape as [|n rest IH]; intros p q j c Hpq Hq Hlen Hj; [simpl in Hq; lia|].
  change (Np.nat_prod (n :: rest)) with (n * Np.nat_prod rest)%nat in Hlen.
  pose proof (chunks_all (Np.nat_prod rest) n c Hlen) as Hall.
  destruct q as [|q]; [lia|].
  destruct p as [|p]; cbn [pick2R pickR nth] in *.
  - assert (Hr : length (nth j (Np.chunks (Np.nat_prod rest) n c) []) = Np.nat_prod rest)
      by (apply nth_chunk_length; assumption).
    change (map (fun k => pickR rest q k (nth j (Np.chunks (Np.nat_prod rest) n c) []))
                (seq 0 (nth q rest 0%nat)))
      with (marginalSums rest q (nth j (Np.chunks (Np.nat_prod rest) n c) [])).
    rewrite <- marginalR_spec by (try exact Hr; simpl in Hq; lia).
    apply marginalR_total. exact Hr.
  - rewrite (Rsum_swap (fun k r => pick2R rest p q j k r)).
    f_equal. apply map_ext_in. intros r Hr.
    apply IH; [lia|simpl in Hq; lia| |exact Hj].
    rewrite Forall_forall in Hall. apply Hall. exact Hr.
Qed.

Lemma pick2R_sum_p shape :
  forall p q k c,
    (p < q)%nat -> (q < length shape)%nat ->
    length c = Np.nat_prod shape ->
    Rsum (map (fun j => pick2R shape p q j k c) (seq 0 (nth p shape 0%nat)))
    = pickR shape q k c.
Proof.
  induction shape as [|n rest IH]; intros p q k c Hpq Hq Hlen; [simpl in Hq; lia|].
  change (Np.nat_prod (n :: rest)) with (n * Np.nat_prod rest)%nat in Hlen.
  pose proof (chunks_all (Np.nat_prod rest) n c Hlen) as Hall.
  destruct q as [|q]; [lia|].
  destruct p as [|p]; cbn [pick2R pickR nth] in *.
  - rewrite <- (chunks_length (Np.nat_prod rest) n c) at 1.
    rewrite <- (map_map (fun j => nth j (Np.chunks (Np.nat_prod rest) n c) [])
                        (pickR rest q k)).
    rewrite nth_all. reflexivity.
  - rewrite (Rsum_swap (fun j r => pick2R rest p q j k r)).
    f_equal. apply map_ext_in. intros r Hr.
    apply IH; [lia|simpl in Hq; lia|].
    rewrite Forall_forall in Hall. apply Hall. exact Hr.
Qed.

End JointMarginal.

(** The spacing constants of the axes other than [p] and [q]. *)
Definition others2 {A : Type} (p q : nat) (cs : list A) : list A :=
  firstn p cs ++ firstn (q - S p) (skipn (S p) cs) ++ skipn (S q) cs.

Section JointOfState.

Lemma list_remove_app_r x u v :
  ~ In x u ->
  list_remove x (u ++ v)
  = match list_remove x v with
    | Some r => Some (u ++ r)
    | None => None
    end.
Proof.
  induction u as [|y u IH]; intros Hnot.
  - cbn. destruct (list_remove x v); reflexivity.
  - cbn [app list_remove].
    destruct (Nat.eqb_spec y x) as [->|Hne]; [exfalso; apply Hnot; left; reflexivity|].
    rewrite IH by (intros Hin; apply Hnot; right; exact Hin).
    destruct (list_remove x v); reflexivity.
Qed.

Lemma remove_each_two p q D :
  (p < q)%nat -> (q < D)%nat ->
  remove_each [Z.of_nat p; Z.of_nat q] (seq 0 D) = Some (otherAxes2 p q D).
Proof.
  intros Hpq Hq. cbn [remove_each].
  destruct (Z.ltb_spec (Z.of_nat p) 0) as [Hneg|_]; [lia|].
  destruct (Z.ltb_spec (Z.of_nat q) 0) as [Hneg|_]; [lia|].
  rewrite !Nat2Z.id, list_remove_otherAxes by lia.
  unfold otherAxes, otherAxes2.
  rewrite list_remove_app_r by (rewrite in_seq; lia).
  rewrite list_remove_seq by lia.
  replace (S p + (D - S p) - S q)%nat with (D - S q)%nat by lia. reflexivity.
Qed.

Lemma lookup_all_otherAxes2 (l : list npfloat) p q :
  (p < q)%nat -> (q < length l)%nat ->
  lookup_all l (otherAxes2 p q (length l)) = Some (others2 p q l).
Proof.
  intros Hpq Hq. unfold otherAxes2, others2. rewrite !lookup_all_app.
  rewrite !lookup_all_seq by lia.
  change (skipn 0 l) with l.
  rewrite (firstn_all2 (n := length l - S q) (skipn (S q) l))
    by (rewrite length_skipn; lia).
  reflexivity.
Qed.

Lemma others2_map {A B : Type} (f : A -> B) p q cs :
  others2 p q (map f cs) = map f (others2 p q cs).
Proof.
  unfold others2. rewrite !map_app, !firstn_map, !skipn_map, firstn_map. reflexivity.
Qed.

Lemma nth_skipn_R n k (cs : list R) : nth k (skipn n cs) 0 = nth (n + k) cs 0.
Proof.
  revert cs. induction n as [|n IH]; intros cs; [reflexivity|].
  destruct cs as [|c cs]; [destruct k; reflexivity|]. cbn [skipn Nat.add nth]. apply IH.
Qed.

(** The product over the axes other than [p] and [q], times the constant
    of one of the two, is the product over the axes other than the other
    one. *)
Lemma Rprod_others2_q p q cs :
  (p < q)%nat -> (q < length cs)%nat ->
  Rprod (others2 p q cs) * nth q cs 0 = Rprod (firstn p cs ++ skipn (S p) cs).
Proof.
  intros Hpq Hq. unfold others2.
  pose proof (Rprod_split (q - S p) (skipn (S p) cs)) as H.
  rewrite length_skipn, nth_skipn_R, skipn_skipn in H.
  replace (S p + (q - S p))%nat with q in H by lia.
  replace (S (q - S p) + S p)%nat with (S q) in H by lia.
  specialize (H ltac:(lia)).
  rewrite !Rprod_app in *. rewrite <- H. lra.
Qed.

Lemma Rprod_others2_p p q cs :
  (p < q)%nat -> (q < length cs)%nat ->
  Rprod (others2 p q cs) * nth p cs 0 = Rprod (firstn q cs ++ skipn (S q) cs).
Proof.
  intros Hpq Hq. unfold others2.
  assert (Hfq : firstn q cs
                = firstn p cs ++ nth p cs 0 :: firstn (q - S p) (skipn (S p) cs)).
  { rewrite <- (firstn_skipn p (firstn q cs)).
    rewrite firstn_firstn, skipn_firstn_comm.
    replace (Nat.min p q) with p by lia. f_equal.
    destruct (nth_error cs p) as [c|] eqn:Hc.
    - rewrite (skipn_nth_error cs p c Hc).
      replace (q - p)%nat with (S (q - S p)) by lia. cbn [firstn].
      rewrite (nth_error_nth cs p 0 Hc). reflexivity.
    - apply nth_error_None in Hc. lia. }
  assert (Hcons : forall c l, Rprod (c :: l) = c * Rprod l) by reflexivity.
  rewrite Hfq, !Rprod_app, Hcons. lra.
Qed.

Lemma repeat_each_one {A : Type} (l : list A) : Np.repeat_each 1 l = l.
Proof.
  unfold Np.repeat_each. induction l as [|a l IH]; [reflexivity|].
  cbn [flat_map]. rewrite IH. reflexivity.
Qed.

(** [np.meshgrid] of two arrays with ij indexing, raveled. *)
Lemma meshgrid_two {A : Type} (a b : list A) :
  Np.meshgrid_ij_ravel [a; b] = [Np.repeat_each (length b) a; Np.tile (length a) b].
Proof.
  cbn [Np.meshgrid_ij_ravel map].
  change (Np.nat_prod [length b]) with (length b * 1)%nat.
  change (Np.nat_prod (@nil nat)) with 1%nat.
  rewrite Nat.mul_1_r, repeat_each_one. reflexivity.
Qed.

Lemma jointSums_length shape p q flat :
  length (jointSums shape p q flat) = (nth p shape 0 * nth q shape 0)%nat.
Proof.
  unfold jointSums. rewrite flat_map_concat_map.
  rewrite (concat_length_all (nth q shape 0%nat)).
  - rewrite length_map, length_seq. reflexivity.
  - rewrite Forall_map. apply Forall_forall. intros j _.
    rewrite length_map, length_seq. reflexivity.
Qed.

Lemma nat_prod_nth_pos shape p :
  Np.nat_prod shape <> 0%nat -> (p < length shape)%nat -> (0 < nth p shape 0)%nat.
Proof.
  revert p. induction shape as [|n rest IH]; intros p Hne Hp; [simpl in Hp; lia|].
  change (Np.nat_prod (n :: rest)) with (n * Np.nat_prod rest)%nat in Hne.
  destruct p as [|p]; cbn [nth]; [nia|].
  apply IH; [nia|simpl in Hp; lia].
Qed.

(** The joint marginal of a finite density stored in C order, with finite
    spacing constants, for two raster entries [p < q]. *)
Lemma marginalizeJoint_spec self ds cs p q r0 r1 :
  hyperParameterDistribution self = Some (map Fin ds) ->
  length ds = Np.nat_prod (map steps (raster self)) ->
  ds <> [] ->
  rasterConstant self = map Fin cs ->
  length cs = length (raster self) ->
  (p < q)%nat ->
  nth_error (raster self) p = Some r0 ->
  nth_error (raster self) q = Some r1 ->
  marginalizeJoint [Z.of_nat p; Z.of_nat q] self
  = JointReturned
      (Np.repeat_each (steps r1) (Np.linspace (lower r0) (upper r0) (steps r0)))
      (Np.tile (steps r0) (Np.linspace (lower r1) (upper r1) (steps r1)))
      (map Fin (map (fun s => s * Rprod (others2 p q cs))
                    (jointSums (map steps (raster self)) p q ds))).
Proof.
  intros Hd Hlen Hne Hc Hclen Hpq Hr0 Hr1.
  assert (Hq : (q < length (raster self))%nat).
  { apply nth_error_Some. rewrite Hr1. discriminate. }
  unfold marginalizeJoint. cbv zeta.
  destruct (Z.ltb_spec (Z.of_nat p) (Z.of_nat q)) as [_|Hge]; [|lia].
  cbn [negb].
  rewrite length_map, (remove_each_two p q _ Hpq Hq), Hd.
  rewrite length_map, Hlen, Nat.eqb_refl. cbn [negb].
  rewrite Hc.
  replace (length (raster self)) with (length (map Fin cs))
    by (rewrite length_map; exact Hclen).
  rewrite lookup_all_otherAxes2 by (rewrite ?length_map; lia).
  rewrite length_map, Hclen, !Nat2Z.id, Hr0, Hr1.
  rewrite <- (length_map steps (raster self)).
  rewrite apply_over_other2_axes by (rewrite ?length_map; assumption).
  rewrite others2_map, prod_fin, scale_fin.
  rewrite jointR_spec by (rewrite ?length_map; assumption).
  rewrite meshgrid_two, !linspace_length.
  assert (Hpos : (0 < length (jointSums (map steps (raster self)) p q ds))%nat).
  { rewrite jointSums_length.
    assert (Hprod : Np.nat_prod (map steps (raster self)) <> 0%nat).
    { rewrite <- Hlen. destruct ds; [congruence|discriminate]. }
    pose proof (nat_prod_nth_pos _ p Hprod ltac:(rewrite length_map; lia)).
    pose proof (nat_prod_nth_pos _ q Hprod ltac:(rewrite length_map; lia)).
    nia. }
  destruct (jointSums (map steps (raster self)) p q ds) as [|z zs] eqn:Hz;
    [simpl in Hpos; lia|].
  cbn [map].
  rewrite !nth_error_map.
  destruct (nth_error cs p) as [c0|] eqn:Hc0;
    [|apply nth_error_None in Hc0; lia].
  destruct (nth_error cs q) as [c1|] eqn:Hc1;
    [|apply nth_error_None in Hc1; lia].
  reflexivity.
Qed.

Lemma zipWith_map_same {A B C D : Type} (f : B -> C -> D) (g : A -> B) (h : A -> C) l :
  Np.zipWith f (map g l) (map h l) = map (fun a => f (g a) (h a)) l.
Proof. induction l as [|a l IH]; [reflexivity|]. cbn. rewrite IH. reflexivity. Qed.

(** The sum over the rows of an array given entry by entry. *)
Lemma vsumR_pointwise {J : Type} (g : J -> nat -> R) m (js : list J) :
  vsumR m (map (fun j => map (g j) (seq 0 m)) js)
  = map (fun k => Rsum (map (fun j => g j k) js)) (seq 0 m).
Proof.
  induction js as [|j js IH].
  - cbn [map]. unfold vsumR. cbn [fold_right].
    rewrite (map_ext _ (fun _ => 0)) by reflexivity.
    rewrite map_const, length_seq. reflexivity.
  - cbn [map]. rewrite vsumR_cons, IH, zipWith_map_same. reflexivity.
Qed.

(** The joint sums as an array of rows, and what its row sums and column
    sums are. *)
Lemma jointSums_rows shape p q ds :
  (p < q)%nat -> (q < length shape)%nat -> length ds = Np.nat_prod shape ->
  Np.chunks (nth q shape 0%nat) (nth p shape 0%nat) (jointSums shape p q ds)
  = map (fun j => map (fun k => pick2R shape p q j k ds) (seq 0 (nth q shape 0%nat)))
        (seq 0 (nth p shape 0%nat))
  /\ map Rsum (Np.chunks (nth q shape 0%nat) (nth p shape 0%nat) (jointSums shape p q ds))
     = marginalSums shape p ds
  /\ vsumR (nth q shape 0%nat)
       (Np.chunks (nth q shape 0%nat) (nth p shape 0%nat) (jointSums shape p q ds))
     = marginalSums shape q ds.
Proof.
  intros Hpq Hq Hlen.
  assert (Hrows : Np.chunks (nth q shape 0%nat) (nth p shape 0%nat) (jointSums shape p q ds)
                  = map (fun j => map (fun k => pick2R shape p q j k ds)
                                      (seq 0 (nth q shape 0%nat)))
                        (seq 0 (nth p shape 0%nat))).
  { unfold jointSums. rewrite flat_map_concat_map.
    set (rows := map (fun j => map (fun k => pick2R shape p q j k ds)
                                   (seq 0 (nth q shape 0%nat)))
                     (seq 0 (nth p shape 0%nat))).
    assert (Hl : length rows = nth p shape 0%nat)
      by (subst rows; rewrite length_map, length_seq; reflexivity).
    rewrite <- Hl. apply chunks_of_concat.
    subst rows. rewrite Forall_map. apply Forall_forall. intros j _.
    rewrite length_map, length_seq. reflexivity. }
  split; [exact Hrows|]. rewrite Hrows. split.
  - rewrite map_map. unfold marginalSums. apply map_ext_in. intros j Hj.
    apply pick2R_sum_q; try assumption. apply in_seq in Hj. lia.
  - rewrite (vsumR_pointwise (fun j k => pick2R shape p q j k ds)).
    unfold marginalSums. apply map_ext. intros k.
    apply pick2R_sum_p; assumption.
Qed.

End JointOfState.

Section JointOfFit.

Context `{SB : StudyBase}.

Lemma nth_steps raster_arg p r :
  nth_error raster_arg p = Some r -> nth p (map steps raster_arg) 0%nat = steps r.
Proof.
  intros H. rewrite (nth_indep _ 0%nat (steps r)).
  - rewrite map_nth. f_equal. apply nth_error_nth. exact H.
  - rewrite length_map. apply nth_error_Some. rewrite H. discriminate.
Qed.

(** The indices found for the names of two raster entries, the first
    before the second, when the names of the raster are pairwise
    different. *)
Lemma findParamIndices_both a b names i j :
  NoDup names -> (i < j)%nat ->
  nth_error names i = Some a -> nth_error names j = Some b ->
  findParamIndices [a; b] names = [Z.of_nat i; Z.of_nat j].
Proof.
  intros Hnd Hij Hi Hj.
  assert (Hab : a <> b).
  { intros ->. rewrite NoDup_nth_error in Hnd.
    assert (i = j); [|lia].
    apply Hnd; [apply nth_error_Some; rewrite Hi; discriminate|congruence]. }
  destruct (nth_error_split names i Hi) as (l1 & l2 & Hnames & Hlen1).
  subst names.
  assert (Hj2 : nth_error l2 (j - S i) = Some b).
  { rewrite nth_error_app2 in Hj by lia. rewrite Hlen1 in Hj.
    replace (j - i)%nat with (S (j - S i)) in Hj by lia. exact Hj. }
  destruct (nth_error_split l2 (j - S i) Hj2) as (l3 & l4 & Hl2 & Hlen3).
  subst l2.
  pose proof (NoDup_remove_2 _ _ _ Hnd) as Ha.
  assert (Hnd2 : NoDup (l3 ++ b :: l4)).
  { apply NoDup_remove_1 in Hnd. apply NoDup_app_remove_l in Hnd. exact Hnd. }
  pose proof (NoDup_remove_2 _ _ _ Hnd2) as Hb2.
  assert (Hb1 : ~ In b l1).
  { intros Hin. rewrite NoDup_nth_error in Hnd.
    destruct (In_nth_error _ _ Hin) as (k & Hk).
    assert (Hklt : (k < length l1)%nat) by (apply nth_error_Some; rewrite Hk; discriminate).
    assert (k = j); [|lia].
    apply Hnd.
    - rewrite length_app. lia.
    - rewrite nth_error_app1 by exact Hklt. rewrite Hk. symmetry. exact Hj. }
  unfold findParamIndices, enumerate.
  rewrite enumerate_app, flat_map_app.
  rewrite findParamIndices_from_none.
  2:{ intros p [<-|[<-|[]]] Hin; [|exact (Hb1 Hin)].
      apply Ha. apply in_or_app. left. exact Hin. }
  cbn [length seq combine app]. rewrite flat_map_head.
  rewrite (enumerate_app l3 (b :: l4)), flat_map_app.
  rewrite findParamIndices_from_none.
  2:{ intros p [<-|[<-|[]]] Hin.
      - apply Ha. apply in_or_app. right. apply in_or_app. left. exact Hin.
      - apply Hb2. apply in_or_app. left. exact Hin. }
  cbn [length seq combine app].
  rewrite (flat_map_head _ ((S (0 + length l1) + length l3)%nat, b)).
  rewrite findParamIndices_from_none.
  2:{ intros p [<-|[<-|[]]] Hin.
      - apply Ha. apply in_or_app. right. apply in_or_app. right. right. exact Hin.
      - apply Hb2. apply in_or_app. right. exact Hin. }
  cbn [flat_map fst snd app].
  rewrite !String.eqb_refl.
  assert (E1 : String.eqb a b = false) by (apply String.eqb_neq; exact Hab).
  assert (E2 : String.eqb b a = false) by (apply String.eqb_neq; congruence).
  rewrite E1, E2. cbn [app].
  repeat f_equal; lia.
Qed.

Lemma fit_finished_density raster_arg prior fo eo silent nJobs pathos self ds :
  fst (fit raster_arg prior fo eo false silent nJobs pathos self) = Finished ->
  hyperParameterDistribution
    (snd (fit raster_arg prior fo eo false silent nJobs pathos self)) = Some (map Fin ds) ->
  raster_arg <> [] /\ ds <> [] /\ length ds = Np.nat_prod (map steps raster_arg).
Proof.
  intros Hfin Hd.
  assert (Hne : raster_arg <> []).
  { intros ->. unfold fit, prepareRaster in Hfin. simpl in Hfin. discriminate. }
  destruct (fit_finished_shape raster_arg prior fo eo silent nJobs pathos self Hne Hfin)
    as (_ & _ & Hlen).
  specialize (Hlen _ Hd). rewrite length_map in Hlen.
  split; [exact Hne|]. split; [|exact Hlen].
  destruct (fit_finished raster_arg prior fo eo false silent nJobs pathos self Hfin)
    as (_ & Hv & _).
  destruct (fit_finished_validated raster_arg prior fo eo silent nJobs pathos self Hfin)
    as (Hc & _).
  rewrite Hc in Hv. intros ->. apply Hv. apply length_zero_iff_nil.
  rewrite cartesian_length, axes_lengths, <- Hlen. reflexivity.
Qed.

(** After a completed fit of a regular raster whose distribution and
    spacing constants are finite, [plotJointHyperParameterDistribution]
    called with the indices [p < q] of two raster entries returns the two
    coordinate arrays of the values of these entries and, for every pair
    of values, the density summed over all other dimensions and multiplied
    by the product of the spacing constants of those other dimensions;
    called with the names of the two entries it returns the same when the
    names of the raster are pairwise different.  The returned array summed
    up and multiplied by the two own spacing constants is the density
    summed over the grid times the product of all spacing constants. *)
Theorem plotJoint_marginal :
  forall raster_arg prior forwardOnly evidenceOnly silent nJobs pathosAvailable self
         ds cs p q r0 r1,
    fst (fit raster_arg prior forwardOnly evidenceOnly false silent nJobs
           pathosAvailable self) = Finished ->
    let self' :=
      snd (fit raster_arg prior forwardOnly evidenceOnly false silent nJobs
             pathosAvailable self) in
    hyperParameterDistribution self' = Some (map Fin ds) ->
    rasterConstant self' = map Fin cs ->
    (p < q)%nat ->
    nth_error raster_arg p = Some r0 ->
    nth_error raster_arg q = Some r1 ->
    let joint :=
      map (fun s => s * Rprod (others2 p q cs)) (jointSums (map steps raster_arg) p q ds) in
    plotJointHyperParameterDistribution
      (ParamsList [ParamIndex (Z.of_nat p); ParamIndex (Z.of_nat q)]) self'
    = JointReturned
        (Np.repeat_each (steps r1) (Np.linspace (lower r0) (upper r0) (steps r0)))
        (Np.tile (steps r0) (Np.linspace (lower r1) (upper r1) (steps r1)))
        (map Fin joint)
    /\ (NoDup (map name raster_arg) ->
        plotJointHyperParameterDistribution
          (ParamsList [ParamName (name r0); ParamName (name r1)]) self'
        = plotJointHyperParameterDistribution
            (ParamsList [ParamIndex (Z.of_nat p); ParamIndex (Z.of_nat q)]) self')
    /\ length joint = (steps r0 * steps r1)%nat
    /\ Rsum joint * nth p cs 0 * nth q cs 0 = Rsum ds * Rprod cs.
Proof.
  intros ra prior fo eo silent nJobs pathos self ds cs p q r0 r1 Hfin self' Hd Hc Hpq
         Hr0 Hr1 joint.
  destruct (fit_finished_density ra prior fo eo silent nJobs pathos self ds Hfin Hd)
    as (Hne & Hds & Hdlen).
  destruct (fit_finished_shape ra prior fo eo silent nJobs pathos self Hne Hfin)
    as (Hr & Hclen & _).
  fold self' in Hr, Hclen.
  rewrite Hc, length_map in Hclen.
  assert (Hq : (q < length ra)%nat) by (apply nth_error_Some; rewrite Hr1; discriminate).
  assert (Hidx : plotJointHyperParameterDistribution
                   (ParamsList [ParamIndex (Z.of_nat p); ParamIndex (Z.of_nat q)]) self'
                 = marginalizeJoint [Z.of_nat p; Z.of_nat q] self') by reflexivity.
  split; [|split; [|split]].
  - rewrite Hidx.
    rewrite (marginalizeJoint_spec self' ds cs p q r0 r1); rewrite ?Hr; auto.
  - intros Hnd. rewrite Hidx.
    unfold plotJointHyperParameterDistribution.
    cbn [length Nat.eqb negb forallb isIndex isName andb flat_map nameOf app].
    cbv zeta. rewrite Hr.
    rewrite (findParamIndices_both (name r0) (name r1) (map name ra) p q Hnd Hpq)
      by (rewrite nth_error_map; rewrite ?Hr0, ?Hr1; reflexivity).
    reflexivity.
  - subst joint. rewrite length_map, jointSums_length.
    rewrite (nth_steps ra p r0 Hr0), (nth_steps ra q r1 Hr1). reflexivity.
  - subst joint. rewrite Rsum_scale.
    rewrite <- jointR_spec, jointR_total by (rewrite ?length_map; assumption).
    rewrite <- (Rprod_split p cs) by lia.
    rewrite <- (Rprod_others2_q p q cs) by lia. lra.
Qed.

Lemma vsumR_scale m k rows :
  Forall (fun r => length r = m) rows ->
  vsumR m (map (map (fun x => x * k)) rows) = map (fun x => x * k) (vsumR m rows).
Proof.
  induction 1 as [|r rows Hr Hall IH].
  - cbn. rewrite map_repeat. f_equal. lra.
  - cbn [map]. rewrite !vsumR_cons, IH.
    generalize (vsumR m rows). clear. intros v. revert v.
    induction r as [|a r IHr]; intros [|b v]; cbn; try reflexivity.
    rewrite IHr. f_equal. lra.
Qed.

(** The joint marginal and the two marginals fit together: after a
    completed fit of a regular raster with finite distribution and spacing
    constants, for raster entries [p < q], the rows of the returned joint
    array, each summed up and multiplied by the spacing constant of [q],
    are the marginal distribution [plotHyperParameterDistribution] returns
    for [p]; its columns, summed up and multiplied by the spacing constant
    of [p], are the marginal distribution for [q]. *)
Theorem plotJoint_sums_to_marginals :
  forall raster_arg prior forwardOnly evidenceOnly silent nJobs pathosAvailable self
         ds cs p q r0 r1,
    fst (fit raster_arg prior forwardOnly evidenceOnly false silent nJobs
           pathosAvailable self) = Finished ->
    let self' :=
      snd (fit raster_arg prior forwardOnly evidenceOnly false silent nJobs
             pathosAvailable self) in
    hyperParameterDistribution self' = Some (map Fin ds) ->
    rasterConstant self' = map Fin cs ->
    (p < q)%nat ->
    nth_error raster_arg p = Some r0 ->
    nth_error raster_arg q = Some r1 ->
    exists x y joint xp marginalP xq marginalQ,
      plotJointHyperParameterDistribution
        (ParamsList [ParamIndex (Z.of_nat p); ParamIndex (Z.of_nat q)]) self'
      = JointReturned x y (map Fin joint)
      /\ plotHyperParameterDistribution (ParamIndex (Z.of_nat p)) self'
         = PlotReturned xp (map Fin marginalP)
      /\ plotHyperParameterDistribution (ParamIndex (Z.of_nat q)) self'
         = PlotReturned xq (map Fin marginalQ)
      /\ map (fun row => Rsum row * nth q cs 0) (Np.chunks (steps r1) (steps r0) joint)
         = marginalP
      /\ map (fun s => s * nth p cs 0)
             (vsumR (steps r1) (Np.chunks (steps r1) (steps r0) joint))
         = marginalQ.
Proof.
  intros ra prior fo eo silent nJobs pathos self ds cs p q r0 r1 Hfin self' Hd Hc Hpq
         Hr0 Hr1.
  destruct (fit_finished_density ra prior fo eo silent nJobs pathos self ds Hfin Hd)
    as (Hne & Hds & Hdlen).
  destruct (fit_finished_shape ra prior fo eo silent nJobs pathos self Hne Hfin)
    as (Hr & Hclen & _).
  fold self' in Hr, Hclen.
  rewrite Hc, length_map in Hclen.
  assert (Hq : (q < length ra)%nat) by (apply nth_error_Some; rewrite Hr1; discriminate).
  do 7 eexists.
  split; [|split; [|split; [|split]]].
  - assert (Hidx : plotJointHyperParameterDistribution
                     (ParamsList [ParamIndex (Z.of_nat p); ParamIndex (Z.of_nat q)]) self'
                   = marginalizeJoint [Z.of_nat p; Z.of_nat q] self') by reflexivity.
    rewrite Hidx.
    rewrite (marginalizeJoint_spec self' ds cs p q r0 r1); rewrite ?Hr; auto.
  - cbn [plotHyperParameterDistribution].
    rewrite (marginalize_spec self' ds cs p r0); rewrite ?Hr; auto.
  - cbn [plotHyperParameterDistribution].
    rewrite (marginalize_spec self' ds cs q r1); rewrite ?Hr; auto.
  - rewrite ?Hr.
    destruct (jointSums_rows (map steps ra) p q ds Hpq) as (_ & Hrow & _);
      [rewrite length_map; exact Hq|exact Hdlen|].
    rewrite (nth_steps ra p r0 Hr0), (nth_steps ra q r1 Hr1) in Hrow.
    rewrite chunks_map, map_map, <- Hrow, map_map.
    apply map_ext. intros row. rewrite Rsum_scale.
    rewrite <- (Rprod_others2_q p q cs) by lia. lra.
  - rewrite ?Hr.
    destruct (jointSums_rows (map steps ra) p q ds Hpq) as (_ & _ & Hcol);
      [rewrite length_map; exact Hq|exact Hdlen|].
    rewrite (nth_steps ra p r0 Hr0), (nth_steps ra q r1 Hr1) in Hcol.
    rewrite chunks_map, vsumR_scale, map_map, <- Hcol.
    + apply map_ext. intros s.
      rewrite <- (Rprod_others2_p p q cs) by lia. lra.
    + apply chunks_all. rewrite jointSums_length.
      rewrite (nth_steps ra p r0 Hr0), (nth_steps ra q r1 Hr1). reflexivity.
Qed.

End JointOfFit.

Module JointExample.
Import Example.

(** The density of the completed fit of the raster
    [[["sigma", 0, 1, 2], ["log10pMin", 0, 1, 2]]] with a uniform prior. *)
Lemma fitted22_density :
  let fitted22 :=
    snd (fit MarginalExample.raster22 [] false false false false 1%Z false study0) in
  exists ds,
    hyperParameterDistribution fitted22 = Some (map Fin ds)
    /\ rasterConstant fitted22 = map Fin [1; 1]
    /\ Rsum ds * Rprod [1; 1] = 1.
Proof.
  intros fitted22.
  destruct (posteriorDensity_normalized [0; 0; 1; 1] [1 / 4; 1 / 4; 1 / 4; 1 / 4] [1; 1])
    as (ds & Hds & _ & _ & Hsum);
    [discriminate|reflexivity|do 4 (constructor; [lra|]); constructor|simpl; lra
    |apply in_range_no_overflow, MarginalExample.v22_in_range|].
  destruct (fit_finished_distribution (SB := base0) MarginalExample.raster22 []
              false false false false 1%Z false study0 eq_refl)
    as (Hdist & Hconst).
  fold fitted22 in Hdist, Hconst. fold MarginalExample.v22 in Hdist, Hconst.
  rewrite MarginalExample.v22_logEvidences, MarginalExample.v22_prior,
    MarginalExample.v22_constant in Hdist.
  rewrite MarginalExample.v22_constant in Hconst.
  exists ds. split; [rewrite Hdist; f_equal; exact Hds|].
  split; [exact Hconst|exact Hsum].
Qed.

End JointExample.

(** The instance for the raster
    [[["sigma", 0, 1, 2], ["log10pMin", 0, 1, 2]]] with a uniform prior. *)
Lemma plotJoint_marginal_witness :
  exists joint,
    plotJointHyperParameterDistribution (ParamsList [ParamIndex 0; ParamIndex 1])
      (snd (fit (SB := Example.base0) MarginalExample.raster22 [] false false false false
              1%Z false Example.study0))
    = JointReturned (Np.repeat_each 2 (Np.linspace (Fin 0) (Fin 1) 2))
                    (Np.tile 2 (Np.linspace (Fin 0) (Fin 1) 2)) (map Fin joint)
    /\ length joint = 4%nat
    /\ Rsum joint * 1 * 1 = 1.
Proof.
  destruct JointExample.fitted22_density as (ds & Hd & Hc & Hsum).
  destruct (plotJoint_marginal (SB := Example.base0) MarginalExample.raster22 [] false
              false false 1%Z false Example.study0 ds [1; 1] 0%nat 1%nat
              (Example.sigma 0 1 2) (Example.log10pMin 0 1 2) eq_refl Hd Hc
              ltac:(lia) eq_refl eq_refl) as (Hplot & _ & Hlen & Hnorm).
  eexists. split; [exact Hplot|]. split; [exact Hlen|].
  transitivity (Rsum ds * Rprod [1; 1]); [exact Hnorm|exact Hsum].
Defined.

(** The instance for the same fit. *)
Lemma plotJoint_sums_to_marginals_witness :
  exists x y joint xp marginalP,
    plotJointHyperParameterDistribution (ParamsList [ParamIndex 0; ParamIndex 1])
      (snd (fit (SB := Example.base0) MarginalExample.raster22 [] false false false false
              1%Z false Example.study0))
    = JointReturned x y (map Fin joint)
    /\ plotHyperParameterDistribution (ParamIndex 0) (snd (fit (SB := Example.base0) MarginalExample.raster22 [] false false false false
              1%Z false Example.study0))
       = PlotReturned xp (map Fin marginalP)
    /\ map (fun row => Rsum row * 1) (Np.chunks 2 2 joint) = marginalP.
Proof.
  destruct JointExample.fitted22_density as (ds & Hd & Hc & _).
  destruct (plotJoint_sums_to_marginals (SB := Example.base0) MarginalExample.raster22 []
              false false false 1%Z false Example.study0 ds [1; 1] 0%nat 1%nat
              (Example.sigma 0 1 2) (Example.log10pMin 0 1 2) eq_refl Hd Hc
              ltac:(lia) eq_refl eq_refl)
    as (x & y & joint & xp & marginalP & xq & marginalQ & Hj & Hp & _ & Hrow & _).
  exists x, y, joint, xp, marginalP.
  split; [exact Hj|]. split; [exact Hp|exact Hrow].
Defined.

(** ** The calls of [Study.fit] and the local evidence *)

Section CallsAndLocalEvidence.

Context `{SB : StudyBase}.

Lemma aggregate_base eo self :
  fst (aggregate eo self) = Finished ->
  fitCalls (base (snd (aggregate eo self))) = fitCalls (base self)
  /\ localEvidence (base (snd (aggregate eo self)))
     = sum_axis0 (Np.zipWith (fun row h => Np.scale h row) (localEvidenceList self)
                    (computeHyperParameterDistribution (logEvidenceList self)
                       (arrayOf (hyperParameterPrior self)) (rasterConstant self)))
  /\ (eo = false ->
      posteriorMeanValues (base (snd (aggregate eo self)))
      = map (fun g => map (fun p => Np.sum (Np.zipWith npmul p g))
                          (normalizeSequence (arrayOf (averagePosteriorSequence self))))
            (grid (base self))).
Proof.
  unfold aggregate. cbv zeta.
  destruct eo; cbn;
    (destruct (Np.logsumexp _); [|discriminate]); intros _; cbn;
    (split; [reflexivity|split; [reflexivity|]]); intros H; try discriminate;
    reflexivity.
Qed.

Lemma validated_fitCalls raster_arg prior fo eo custom silent nJobs pathos self :
  fst (fit raster_arg prior fo eo custom silent nJobs pathos self) = Finished ->
  fitCalls (base (validated raster_arg prior fo eo custom silent self))
  = fitCalls (base self).
Proof.
  intros Hfin. unfold validated. unfold fit in Hfin.
  destruct (prepareRaster _ _ _ _ _ _) as [[o s1]|s1] eqn:Hprep.
  { apply prepareRaster_returns in Hprep.
    destruct Hprep as [(Ho & _)|(e' & Ho & _)]; simpl in Hfin; rewrite Ho in Hfin;
      discriminate. }
  apply prepareRaster_continues in Hprep. destruct Hprep as (Hb & _).
  cbn [stateOf].
  destruct (determinePrior _ _) as [[o s2]|s2] eqn:Hprior.
  { exfalso. unfold determinePrior in Hprior. destruct prior as [|rv prior]; [discriminate|].
    destruct (rasterValues _) as [|row0 rows]; [inversion Hprior; subst; discriminate|].
    destruct (negb _); [inversion Hprior; subst; discriminate|].
    destruct (priorLoop _ _ _ _); inversion Hprior; subst; discriminate. }
  apply determinePrior_continues in Hprior. destruct Hprior as (Hb2 & _).
  cbn [stateOf]. unfold initSweep. destruct eo; cbn; rewrite Hb2; cbn; rewrite Hb;
    reflexivity.
Qed.

(** A completed fit that sweeps the raster in its own process has called
    [Study.fit] once for every raster point, in raster order, each time
    with [silent=True] whatever the [silent] argument; with worker
    processes the instance itself has made no call. *)
Theorem fit_analyses_every_point_once :
  forall raster_arg prior forwardOnly evidenceOnly customRaster silent nJobs
         pathosAvailable self,
    fst (fit raster_arg prior forwardOnly evidenceOnly customRaster silent nJobs
           pathosAvailable self) = Finished ->
    let self' := snd (fit raster_arg prior forwardOnly evidenceOnly customRaster silent
                        nJobs pathosAvailable self) in
    fitCalls (base self')
    = fitCalls (base self)
      ++ (if singleProcess nJobs pathosAvailable
          then map (fun row => {| call_hyperParameterValues := row;
                                  call_forwardOnly := forwardOnly;
                                  call_evidenceOnly := evidenceOnly;
                                  call_silent := true |}) (rasterValues self')
          else []).
Proof.
  intros ra prior fo eo custom silent nJobs pathos self Hfin self'.
  destruct (fit_finished ra prior fo eo custom silent nJobs pathos self Hfin)
    as (Hfit & _).
  pose proof (validated_fitCalls ra prior fo eo custom silent nJobs pathos self Hfin)
    as Hcalls.
  set (v := validated ra prior fo eo custom silent self) in *.
  assert (Hagg : fst (aggregate eo (runSweep fo eo silent nJobs pathos v)) = Finished)
    by (rewrite <- Hfit; exact Hfin).
  destruct (aggregate_base eo _ Hagg) as (Hc & _).
  destruct (aggregate_grid eo (runSweep fo eo silent nJobs pathos v)) as (_ & Av & _).
  destruct (runSweep_grid fo eo silent nJobs pathos v) as (_ & Rv & _).
  subst self'. rewrite Hfit, Hc, Av, Rv, <- Hcalls.
  destruct (singleProcess nJobs pathos) eqn:Hsingle.
  - rewrite (runSweep_single fo eo silent nJobs pathos v Hsingle).
    unfold sweep, enumerate. apply sweep_calls.
  - rewrite app_nil_r. unfold runSweep, singleProcess in *. cbv zeta.
    destruct (1 <? _)%Z; [|discriminate].
    destruct (merge_grid eo
                (map (fun idx => parallelFit idx
                        (Z.to_nat (if (1 <? nJobs)%Z && negb pathos then 1%Z else nJobs))
                        fo eo silent v)
                     (seq 0 (Z.to_nat (if (1 <? nJobs)%Z && negb pathos
                                       then 1%Z else nJobs)))) v)
      as (_ & _ & _ & Hb).
    rewrite Hb. reflexivity.
Qed.

Lemma vsumR_nth m rows t :
  Forall (fun r => length r = m) rows -> (t < m)%nat ->
  nth t (vsumR m rows) 0 = Rsum (map (fun r => nth t r 0) rows).
Proof.
  intros Hall Ht. induction Hall as [|r rows Hr Hall IH].
  - cbn. apply nth_repeat.
  - cbn [map]. rewrite vsumR_cons.
    rewrite (nth_zipWith_lt Rplus r (vsumR m rows) t 0 0 0)
      by (rewrite ?vsumR_length by exact Hall; lia).
    rewrite IH. reflexivity.
Qed.

(** The local evidence of the averaged model after a completed fit with
    finite results: at every time step the sum over the raster points of
    the local evidence of the point times the entry of the hyper-parameter
    distribution at the point (the density: the probability of the point
    divided by the product of the spacing constants). *)
Theorem fit_localEvidence_density_weighted :
  forall raster_arg prior forwardOnly evidenceOnly customRaster silent nJobs
         pathosAvailable self Es ds T,
    fst (fit raster_arg prior forwardOnly evidenceOnly customRaster silent nJobs
           pathosAvailable self) = Finished ->
    let v := validated raster_arg prior forwardOnly evidenceOnly customRaster silent self in
    let self' := snd (fit raster_arg prior forwardOnly evidenceOnly customRaster silent
                        nJobs pathosAvailable self) in
    map res_localEvidence
        (pointResults forwardOnly evidenceOnly (base v) (rasterValues v))
    = map (map Fin) Es ->
    Forall (fun E => length E = T) Es ->
    hyperParameterDistribution self' = Some (map Fin ds) ->
    exists local,
      localEvidence (base self') = map Fin local
      /\ length local = T
      /\ forall t, (t < T)%nat ->
           nth t local 0 = Rsum (Np.zipWith (fun E d => nth t E 0 * d) Es ds).
Proof.
  intros ra prior fo eo custom silent nJobs pathos self Es ds T Hfin v self' HE Hall Hd.
  destruct (fit_finished ra prior fo eo custom silent nJobs pathos self Hfin)
    as (Hfit & Hne & Hlen & Hl & Hp & Hc).
  fold v in Hfit, Hne, Hlen, Hl, Hp, Hc.
  assert (Hagg : fst (aggregate eo (runSweep fo eo silent nJobs pathos v)) = Finished)
    by (rewrite <- Hfit; exact Hfin).
  destruct (aggregate_base eo _ Hagg) as (_ & Hloc & _).
  pose proof (aggregate_spec eo (runSweep fo eo silent nJobs pathos v)) as Hspec.
  cbv zeta in Hspec.
  destruct (Np.logsumexp _) as [total|]; [|rewrite Hspec in Hagg; discriminate].
  destruct Hspec as (_ & _ & Hdist & _).
  rewrite <- Hfit in Hloc, Hdist. fold self' in Hloc, Hdist.
  rewrite Hd in Hdist. inversion Hdist as [Hdist'].
  rewrite <- Hdist' in Hloc.
  destruct (initSweep_lists eo
              (stateOf (determinePrior prior
                 (upd_base (fun b => with_formattedData
                                       (movingWindow (rawData b) (segmentLength b)) b)
                    (stateOf (prepareRaster ra fo eo custom silent self))))))
    as (Il & Iloc & _).
  destruct (runSweep_lists fo eo silent nJobs pathos v Il Iloc) as (_ & Rloc & _).
  rewrite Rloc, HE in Hloc.
  assert (Hrows : Np.zipWith (fun row h => Np.scale h row) (map (map Fin) Es) (map Fin ds)
                  = map (map Fin) (Np.zipWith (fun E d => map (fun x => x * d) E) Es ds)).
  { clear. revert ds. induction Es as [|E Es IH]; intros [|d ds]; cbn; try reflexivity.
    rewrite IH, scale_fin. reflexivity. }
  rewrite Hrows in Hloc.
  set (rows := Np.zipWith (fun E d => map (fun x => x * d) E) Es ds) in *.
  assert (HrowsT : Forall (fun r => length r = T) rows).
  { subst rows. clear -Hall. revert ds.
    induction Hall as [|E Es HElen _ IH]; intros [|d ds]; cbn; constructor.
    - rewrite length_map. exact HElen.
    - apply IH. }
  assert (Hsum0 : sum_axis0 (map (map Fin) rows) = map Fin (vsumR T rows) \/ rows = []).
  { destruct rows as [|r rows']; [right; reflexivity|left].
    cbn [map sum_axis0]. rewrite length_map.
    inversion HrowsT as [|? ? Hr _]; subst.
    change (map Fin r :: map (map Fin) rows') with (map (map Fin) (r :: rows')).
    apply vsum_fin. }
  assert (Hrne : rows <> []).
  { subst rows. intros Hnil.
    assert (HEs : length Es = length (rasterValues v)).
    { rewrite <- (length_map (map Fin) Es), <- HE. unfold pointResults.
      rewrite !length_map. reflexivity. }
    assert (Hds : length ds = length (rasterValues v)).
    { rewrite <- (length_map Fin ds), Hdist'.
      unfold computeHyperParameterDistribution, Np.divide, Np.add. cbv zeta.
      rewrite !length_map, zipWith_length_min, Hl, Hp, length_map, Hlen.
      unfold pointLogEvidences, pointResults. rewrite !length_map. apply Nat.min_id. }
    apply (f_equal (@length (list R))) in Hnil.
    rewrite zipWith_length_min, HEs, Hds, Nat.min_id in Hnil. simpl in Hnil.
    apply Hne. apply length_zero_iff_nil. exact Hnil. }
  destruct Hsum0 as [Hsum0|Hnil]; [|contradiction].
  rewrite Hsum0 in Hloc.
  exists (vsumR T rows). split; [exact Hloc|].
  split; [apply vsumR_length; exact HrowsT|].
  intros t Ht. rewrite (vsumR_nth T rows t HrowsT Ht).
  subst rows. rewrite map_zipWith. f_equal.
  clear -Hall Ht. revert ds.
  induction Hall as [|E Es HElen _ IH]; intros [|d ds]; cbn; try reflexivity.
  rewrite IH. f_equal.
  rewrite (nth_indep _ 0 ((fun x => x * d) 0)) by (rewrite length_map; lia).
  apply (map_nth (fun x => x * d)).
Qed.

End CallsAndLocalEvidence.

(** The instance for the raster [[["sigma", 0, 1, 2]]], swept in one
    process. *)
Lemma fit_analyses_every_point_once_witness :
  fitCalls (base (snd (fit (SB := Example.base0) [Example.sigma 0 1 2] [] false false false
                         false 1%Z false Example.study0)))
  = fitCalls (base Example.study0)
    ++ (if singleProcess 1 false
        then map (fun row => {| call_hyperParameterValues := row; call_forwardOnly := false;
                                call_evidenceOnly := false; call_silent := true |})
                 (rasterValues (snd (fit (SB := Example.base0) [Example.sigma 0 1 2] []
                                       false false false false 1%Z false Example.study0)))
        else []).
Proof.
  exact (fit_analyses_every_point_once (SB := Example.base0) [Example.sigma 0 1 2] []
           false false false false 1%Z false Example.study0 eq_refl).
Defined.

Module LocalExample.
Import Example.

Lemma v_logEvidences :
  pointLogEvidences false false ParallelExample.v = [Fin 0; Fin 1].
Proof.
  unfold pointLogEvidences. rewrite ParallelExample.v_results. reflexivity.
Qed.

Lemma v_constant : rasterConstant ParallelExample.v = [Fin 1].
Proof.
  change (rasterConstant ParallelExample.v)
    with (rasterConstant ZeroPriorExample.prepared2).
  apply ZeroPriorExample.prepared2_constant.
Qed.

(** The density of the completed fit of the raster [[["sigma", 0, 1, 2]]]
    with a uniform prior. *)
Lemma fitted2_density :
  let self' :=
    snd (fit [sigma 0 1 2] [] false false false false 1%Z false study0) in
  exists ds, hyperParameterDistribution self' = Some (map Fin ds).
Proof.
  intros self'.
  destruct (posteriorDensity_normalized [0; 1] [1 / 2; 1 / 2] [1])
    as (ds & Hds & _ & _ & _);
    [discriminate|reflexivity|do 2 (constructor; [lra|]); constructor|simpl; lra| |].
  { apply in_range_no_overflow.
    apply (centredLogWeights_in_range (ln (1 / 2)) (1 + ln (1 / 2))); try discriminate;
      try reflexivity; [lra|].
    do 2 (constructor; [simpl; lra|]). constructor. }
  destruct (fit_finished_distribution (SB := base0) [sigma 0 1 2] []
              false false false false 1%Z false study0 eq_refl)
    as (Hdist & _).
  fold self' in Hdist. fold ParallelExample.v in Hdist.
  rewrite v_logEvidences, ParallelExample.v_prior, v_constant in Hdist.
  exists ds. rewrite Hdist. f_equal. exact Hds.
Qed.

Lemma v_localEvidences :
  map res_localEvidence
      (pointResults false false (base ParallelExample.v) (rasterValues ParallelExample.v))
  = map (map Fin) [[0]; [1]].
Proof. rewrite ParallelExample.v_results. reflexivity. Qed.

End LocalExample.

(** The instance for the same fit: the local evidences of the two points
    are [[0]] and [[1]]. *)
Lemma fit_localEvidence_density_weighted_witness :
  exists ds local,
    hyperParameterDistribution
      (snd (fit (SB := Example.base0) [Example.sigma 0 1 2] [] false false false false 1%Z
              false Example.study0)) = Some (map Fin ds)
    /\ localEvidence
         (base (snd (fit (SB := Example.base0) [Example.sigma 0 1 2] [] false false false
                       false 1%Z false Example.study0))) = map Fin local
    /\ nth 0 local 0 = Rsum (Np.zipWith (fun E d => nth 0 E 0 * d) [[0]; [1]] ds).
Proof.
  destruct LocalExample.fitted2_density as (ds & Hd).
  destruct (fit_localEvidence_density_weighted (SB := Example.base0)
              [Example.sigma 0 1 2] [] false false false false 1%Z false Example.study0
              [[0]; [1]] ds 1%nat eq_refl LocalExample.v_localEvidences
              ltac:(repeat constructor) Hd) as (local & Hloc & _ & Hnth).
  exists ds, local. split; [exact Hd|]. split; [exact Hloc|].
  exact (Hnth 0%nat (le_n 1)).
Defined.

(** ** The posterior mean values *)

Section PosteriorMeans.

Context `{SB : StudyBase}.








End PosteriorMeans.


(** ** A custom raster whose values are an empty array *)

Section EmptyArray.

Context `{SB : StudyBase}.

Lemma aggregate_fitCalls eo self :
  fitCalls (base (snd (aggregate eo self))) = fitCalls (base self).
Proof.
  unfold aggregate. cbv zeta. destruct eo; destruct (Np.logsumexp _); reflexivity.
Qed.

Lemma runSweep_empty_fitCalls fo eo silent nJobs pathos self :
  rasterValues self = [] ->
  fitCalls (base (runSweep fo eo silent nJobs pathos self)) = fitCalls (base self).
Proof.
  intros Hv. unfold runSweep. cbv zeta. destruct (1 <? _)%Z.
  - match goal with
    | |- context [fold_left (mergeStudy eo) ?l self] =>
        destruct (merge_grid eo l self) as (_ & _ & _ & Hb)
    end.
    rewrite Hb. reflexivity.
  - unfold sweep, enumerate. rewrite Hv. reflexivity.
Qed.

(** With [customRaster=True] on an instance whose [rasterValues] is a
    NumPy array without rows (as the fit of a raster with a zero-step
    entry leaves it), whose [raster] is not empty and whose
    [rasterConstant] is not the empty list, the comparison with [[]] of
    line 93 does not end the call.  With priors given the call raises the
    [IndexError] of [self.rasterValues[0]]; without, it ends at the
    consistency check, where unless the fit is evidence-only the averaged
    posterior sequence has been reset to zeros, or it raises the
    [ValueError] of [logsumexp] on an empty array.  [Study.fit] is not
    called. *)
Theorem fit_custom_empty_array_not_detected :
  forall raster_arg prior forwardOnly evidenceOnly silent nJobs pathosAvailable self,
    raster self <> [] ->
    rasterValuesIsArray self = true ->
    rasterValues self = [] ->
    equalsEmptyList (rasterConstantIsArray self) (rasterConstant self) = false ->
    let result :=
      fit raster_arg prior forwardOnly evidenceOnly true silent nJobs pathosAvailable
        self in
    let T := length (movingWindow (rawData (base self)) (segmentLength (base self))) in
    let G := Np.nat_prod (gridSize (base self)) in
    (prior <> [] -> fst result = Raised IndexError)
    /\ (prior = [] ->
        (fst result = Aborted Inconsistent
         /\ (evidenceOnly = false ->
             averagePosteriorSequence (snd result) = Some (Np.zeros2 T G)))
        \/ fst result = Raised ValueError)
    /\ fitCalls (base (snd result)) = fitCalls (base self).
Proof.
  intros ra prior fo eo silent nJobs pathos self Hr Hk Hv Hc result T G.
  assert (Hprep : prepareRaster ra fo eo true silent self = inr self).
  { unfold prepareRaster. cbn [negb]. destruct (raster self); [congruence|].
    rewrite Hk, Hc. reflexivity. }
  subst result. unfold fit. rewrite Hprep.
  destruct prior as [|rv prior].
  - cbn [determinePrior]. cbv zeta.
    set (s2 := with_hyperParameterPrior _ _).
    assert (Hs2v : rasterValues (initSweep eo s2) = []).
    { destruct (initSweep_grid eo s2) as (_ & -> & _). subst s2. cbn. exact Hv. }
    assert (Hs2l : logEvidenceList (initSweep eo s2) = []
                   /\ localEvidenceList (initSweep eo s2) = [])
      by (destruct (initSweep_lists eo s2) as (H1 & H2 & _); auto).
    assert (Hs2c : fitCalls (base (initSweep eo s2)) = fitCalls (base self)).
    { unfold initSweep. destruct eo; reflexivity. }
    assert (Hs2a : eo = false ->
                   averagePosteriorSequence (initSweep eo s2) = Some (Np.zeros2 T G)).
    { intros ->. reflexivity. }
    destruct (negb (checkConsistency _)).
    + cbn [fst snd]. split; [congruence|]. split; [|exact Hs2c].
      intros _. left. split; [reflexivity|exact Hs2a].
    + split; [congruence|].
      destruct Hs2l as (Hl1 & Hl2).
      destruct (runSweep_lists fo eo silent nJobs pathos (initSweep eo s2) Hl1 Hl2)
        as (Rl & _ & Rp).
      rewrite Hs2v in Rl. cbn in Rl.
      pose proof (aggregate_spec eo (runSweep fo eo silent nJobs pathos (initSweep eo s2)))
        as Hagg.
      cbv zeta in Hagg. rewrite Rl in Hagg.
      cbn [Np.add Np.zipWith Np.logsumexp Np.max] in Hagg.
      split.
      * intros _. right. exact Hagg.
      * rewrite aggregate_fitCalls, runSweep_empty_fitCalls by exact Hs2v.
        exact Hs2c.
  - split; [|split].
    + intros _. unfold determinePrior. cbn [rasterValues upd_base]. rewrite Hv. reflexivity.
    + intros H. discriminate.
    + unfold determinePrior. cbn [rasterValues upd_base]. rewrite Hv. reflexivity.
Qed.

End EmptyArray.

Module EmptyArrayExample.
Import Example.

(** The instance as a fit of the raster [[["sigma", 0, 1, 0]]], which has
    no raster point, leaves it when it ends at [logsumexp]. *)
Definition emptied : RasterStudy :=
  {| base := {| rawData := [Fin 0]; segmentLength := 1%nat; formattedData := [[Fin 0]];
                gridSize := [2%nat]; grid := [[Fin 0; Fin 1]];
                selectedHyperParameters := []; hyperParameterValues := [];
                logEvidence := Fin 0; localEvidence := [];
                posteriorSequence := [[NaN; NaN]];
                posteriorMeanValues := []; fitCalls := [] |};
     raster := [sigma 0 1 0]; rasterValues := []; rasterValuesIsArray := true;
     rasterConstant := [Fin (-1)]; rasterConstantIsArray := false;
     hyperParameterPrior := Some []; hyperParameterDistribution := None;
     averagePosteriorSequence := Some [[NaN; NaN]];
     logEvidenceList := []; localEvidenceList := [] |}.

End EmptyArrayExample.

(** The instance for a fit with [customRaster=True] and two priors on the
    instance a fit of a raster without points left. *)
Lemma fit_custom_empty_array_not_detected_witness :
  let result :=
    fit (SB := Example.base0) [] [AbortExample.uniform01; AbortExample.uniform01] false
      false true false 1%Z false EmptyArrayExample.emptied in
  fst result = Raised IndexError
  /\ fitCalls (base (snd result)) = [].
Proof.
  destruct (fit_custom_empty_array_not_detected (SB := Example.base0)
              [] [AbortExample.uniform01; AbortExample.uniform01] false false false 1%Z
              false EmptyArrayExample.emptied ltac:(discriminate) eq_refl eq_refl eq_refl)
    as (H1 & _ & H3).
  split; [apply H1; discriminate|exact H3].
Defined.

(** ** Overflow in the hyper-parameter distribution *)

Section DistributionOverflow.

Context `{SB : StudyBase}.

Lemma exp64_cases x : exp64 x = PInf \/ exists t, exp64 x = Fin t.
Proof.
  unfold exp64. destruct (Rlt_dec float64_max (exp x)); [left; reflexivity|].
  right. destruct (Rlt_dec (exp x) float64_tiny); eauto.
Qed.

Lemma sum_inf_or_fin l :
  Forall (fun a => a = PInf \/ exists t, a = Fin t) l ->
  Np.sum l = PInf \/ exists t, Np.sum l = Fin t.
Proof.
  induction 1 as [|a l Ha _ IH]; [right; exists 0; reflexivity|].
  rewrite sum_cons.
  destruct Ha as [->|(t & ->)]; destruct IH as [->|(s & ->)]; cbn [npadd]; eauto.
Qed.

Lemma sum_with_inf l :
  Forall (fun a => a = PInf \/ exists t, a = Fin t) l -> In PInf l -> Np.sum l = PInf.
Proof.
  induction 1 as [|a l Ha Hl IH]; intros Hin; [contradiction|].
  rewrite sum_cons. destruct Hin as [->|Hin].
  - destruct (sum_inf_or_fin l Hl) as [->|(s & ->)]; reflexivity.
  - rewrite (IH Hin). destruct Ha as [->|(t & ->)]; reflexivity.
Qed.

Lemma sum_with_nan l : In NaN l -> Np.sum l = NaN.
Proof.
  induction l as [|a l IH]; intros Hin; [contradiction|].
  rewrite sum_cons. destruct Hin as [->|Hin]; [reflexivity|].
  rewrite (IH Hin). destruct a; reflexivity.
Qed.

(** Where an exponential of step (3) overflows, the sum of step (4) is
    [inf], and [inf / inf] is [nan]. *)
Lemma posteriorDensity_overflow ls ps constants :
  ls <> [] -> length ls = length ps ->
  Forall (fun p => 0 < p) ps ->
  Exists (fun x => float64_max < exp x) (centredLogWeights ls ps) ->
  In NaN (posteriorDensity_spec (map Fin ls) (map Fin ps) constants).
Proof.
  intros Hne Hlen Hpos Hover.
  unfold posteriorDensity_spec. cbv zeta.
  rewrite (exponentiated_centred ls ps Hne Hlen Hpos).
  set (e := map exp64 (centredLogWeights ls ps)).
  assert (He : Forall (fun a => a = PInf \/ exists t, a = Fin t) e).
  { subst e. rewrite Forall_map. apply Forall_forall. intros x _. apply exp64_cases. }
  assert (Hin : In PInf e).
  { apply Exists_exists in Hover. destruct Hover as (x & Hx & Hlt).
    subst e. apply in_map_iff. exists x. split; [apply exp64_overflow; exact Hlt|exact Hx]. }
  rewrite (sum_with_inf e He Hin).
  apply in_map_iff. exists NaN. split; [reflexivity|].
  apply in_map_iff. exists PInf. split; [reflexivity|exact Hin].
Qed.

(** When the values [logEvidence_i + log(prior_i)] of a completed fit lie
    so far apart that the exponential of one of them less their mean is
    beyond the range of [float64], the hyper-parameter distribution has
    the entry [nan]; its sum is [nan], and so is the sum multiplied by the
    product of the spacing constants. *)
Theorem fit_distribution_overflow :
  forall raster_arg prior forwardOnly evidenceOnly customRaster silent nJobs
         pathosAvailable self ls ps,
    fst (fit raster_arg prior forwardOnly evidenceOnly customRaster silent nJobs
           pathosAvailable self) = Finished ->
    let v := validated raster_arg prior forwardOnly evidenceOnly customRaster silent self in
    let self' := snd (fit raster_arg prior forwardOnly evidenceOnly customRaster silent
                        nJobs pathosAvailable self) in
    pointLogEvidences forwardOnly evidenceOnly v = map Fin ls ->
    arrayOf (hyperParameterPrior v) = map Fin ps ->
    Forall (fun p => 0 < p) ps ->
    Exists (fun x => float64_max < exp x) (centredLogWeights ls ps) ->
    exists ds,
      hyperParameterDistribution self' = Some ds
      /\ In NaN ds
      /\ Np.sum ds = NaN
      /\ npmul (Np.sum ds) (Np.prod (rasterConstant self')) = NaN.
Proof.
  intros ra prior fo eo custom silent nJobs pathos self ls ps Hfin v self' Els Eps Hpos
         Hover.
  destruct (fit_finished ra prior fo eo custom silent nJobs pathos self Hfin)
    as (_ & Hne & Hlen & _).
  fold v in Hne, Hlen.
  destruct (fit_finished_distribution ra prior fo eo custom silent nJobs pathos self Hfin)
    as (Hdist & _).
  fold v in Hdist. fold self' in Hdist.
  assert (Hls : ls <> []).
  { intros ->. unfold pointLogEvidences, pointResults in Els.
    destruct (rasterValues v); [congruence|discriminate]. }
  assert (Hlens : length ls = length ps).
  { rewrite <- (length_map Fin ls), <- Els, <- (length_map Fin ps), <- Eps, Hlen.
    unfold pointLogEvidences, pointResults. rewrite !length_map. reflexivity. }
  pose proof (posteriorDensity_overflow ls ps (rasterConstant v) Hls Hlens Hpos Hover)
    as Hnan.
  rewrite <- Els, <- Eps in Hnan.
  eexists. split; [exact Hdist|]. split; [exact Hnan|].
  rewrite (sum_with_nan _ Hnan). split; reflexivity.
Qed.

End DistributionOverflow.

Module OverflowExample.
Import Example.

(** The fit of the raster [[["sigma", 0, 3000, 2]]] with a uniform prior:
    the log-evidences of the two points are 0 and 3000, which lie 1500
    below and above their mean. *)
Definition prepared3000 : RasterStudy :=
  stateOf (prepareRaster [sigma 0 3000 2] false false false false study0).

Definition v3000 : RasterStudy :=
  validated [sigma 0 3000 2] [] false false false false study0.

Lemma prepared3000_values : rasterValues prepared3000 = [[Fin 0]; [Fin 3000]].
Proof.
  unfold prepared3000, prepareRaster. cbn -[Np.linspace].
  unfold Np.linspace. cbn [seq map app of_nat npsub npadd npopp].
  unfold of_nat. rewrite npdiv_fin by (simpl; lra).
  cbn [flat_map map app npmul npadd INR].
  np_list.
Qed.

Lemma v3000_logEvidences : pointLogEvidences false false v3000 = [Fin 0; Fin 3000].
Proof.
  unfold pointLogEvidences, pointResults.
  change (rasterValues v3000) with (rasterValues prepared3000).
  rewrite prepared3000_values. reflexivity.
Qed.

Lemma v3000_prior : hyperParameterPrior v3000 = Some [Fin (1 / 2); Fin (1 / 2)].
Proof.
  change (hyperParameterPrior v3000)
    with (Some (Np.divide (Np.ones (length (rasterValues prepared3000)))
                  (of_nat (length (rasterValues prepared3000))))).
  rewrite prepared3000_values. cbn [length].
  rewrite uniform_prior_values by discriminate.
  cbn [repeat map INR]. f_equal; np_list.
Qed.

Lemma v3000_overflows :
  Exists (fun x => float64_max < exp x) (centredLogWeights [0; 3000] [1 / 2; 1 / 2]).
Proof.
  apply Exists_cons_tl. apply Exists_cons_hd.
  apply exp_overflows. simpl. lra.
Qed.

End OverflowExample.

(** The instance for the raster [[["sigma", 0, 3000, 2]]] with a uniform
    prior. *)
Lemma fit_distribution_overflow_witness :
  let self' :=
    snd (fit (SB := Example.base0) [Example.sigma 0 3000 2] [] false false false false 1%Z
           false Example.study0) in
  exists ds,
    hyperParameterDistribution self' = Some ds
    /\ In NaN ds
    /\ Np.sum ds = NaN
    /\ npmul (Np.sum ds) (Np.prod (rasterConstant self')) = NaN.
Proof.
  apply (fit_distribution_overflow (SB := Example.base0)
           [Example.sigma 0 3000 2] [] false false false false 1%Z false Example.study0
           [0; 3000] [1 / 2; 1 / 2] eq_refl).
  - apply OverflowExample.v3000_logEvidences.
  - fold OverflowExample.v3000. rewrite OverflowExample.v3000_prior. reflexivity.
  - repeat constructor; lra.
  - apply OverflowExample.v3000_overflows.
Defined.
